(** * Harmonic playlist creator: audio-feature reconciliation and grouping

    A shallow embedding of the reconciliation and grouping core of the
    playlist creator:

    - [alternative-audio-sources.js]: [combineAudioFeatures],
      [estimateBeatportData], [getBeatportData], [mapAcousticBrainzKey],
      [mapAcousticBrainzMode], [getAlternativeAudioFeatures],
      [batchAnalyzeAlternativeSources];
    - the DJ harmonizer script: [CAMELOT_WHEEL], [CAMELOT_WHEEL_MINOR],
      [KEY_NAMES], [getCamelotKey], [getHarmonicCompatibility],
      [processAlternativeAnalysis], [createDJPlaylists].

    Conventions of the embedding.

    - A JavaScript number that the code only ever uses as an integer (a
      pitch class, a Camelot slot, a rounded tempo) is a [Z]; a number that
      may be fractional (a raw tempo, an energy, a confidence) is an exact
      rational [Q].  The confidence weights 0.8, 0.3 and 0.2 are the
      rationals 8/10, 3/10 and 2/10.  The confidences the code can reach
      are sums of these weights over 1, 2 or 3; on them the test
      [confidence > 0.2] gives the same answer on doubles and on
      rationals.
    - [null] / [undefined] is [None]; [NaN] (the result of [parseInt] on a
      string without digits) is the [None] of [num].
    - A JavaScript object used as an insertion-ordered dictionary is an
      association list ([Obj]).
    - [Math.random()] is an explicit argument: a rational in the interval
      from 0 (included) to 1 (excluded).
    - The three network adapters are the environment: what they settle to
      is an input of the model. *)

From Stdlib Require Import ZArith QArith Qround String Ascii List Bool Lia.
From Stdlib Require Import DecimalString.
From Stdlib Require Import Permutation Sorted.
Import ListNotations.

Local Open Scope Z_scope.

(** ** JavaScript primitives used by the code *)

Module Js.

(** A number that may be [NaN]. *)
Definition num := option Z.

(** Template-literal rendering of a number: [`${n}`]. *)
Definition show_Z (z : Z) : string := NilZero.string_of_int (Z.to_int z).

Definition show (n : num) : string :=
  match n with
  | Some z => show_Z z
  | None => "NaN"%string
  end.

(** [n + k] for an integer literal [k]. *)
Definition add (n : num) (k : Z) : num := option_map (fun z => z + k) n.

(** [n === k]: never true of [NaN]. *)
Definition eqb (n : num) (k : Z) : bool :=
  match n with
  | Some z => z =? k
  | None => false
  end.

(** [n > k]: never true of [NaN]. *)
Definition gtb (n : num) (k : Z) : bool :=
  match n with
  | Some z => z >? k
  | None => false
  end.

(** White space skipped by [parseInt] (the ASCII part of it). *)
Definition is_ws (c : ascii) : bool :=
  match nat_of_ascii c with
  | 9%nat | 10%nat | 11%nat | 12%nat | 13%nat | 32%nat => true
  | _ => false
  end.

Fixpoint skip_ws (s : string) : string :=
  match s with
  | String c r => if is_ws c then skip_ws r else s
  | EmptyString => s
  end.

(** Value of a character as a digit of the radix, if it is one. *)
Definition digit_val (radix : Z) (c : ascii) : option Z :=
  let n := Z.of_nat (nat_of_ascii c) in
  let v :=
    if (48 <=? n) && (n <=? 57) then Some (n - 48)
    else if (97 <=? n) && (n <=? 122) then Some (n - 97 + 10)
    else if (65 <=? n) && (n <=? 90) then Some (n - 65 + 10)
    else None in
  match v with
  | Some d => if d <? radix then Some d else None
  | None => None
  end.

(** The longest prefix of digits; [None] when there is no digit. *)
Fixpoint parse_digits (radix : Z) (s : string) (acc : num) : num :=
  match s with
  | String c r =>
      match digit_val radix c with
      | Some d =>
          parse_digits radix r
            (Some (radix * match acc with Some a => a | None => 0 end + d))
      | None => acc
      end
  | EmptyString => acc
  end.

(** [parseInt(s)] without a radix argument: leading white space, an
    optional sign, an optional [0x] prefix, then digits. *)
Definition parseInt (s : string) : num :=
  let s1 := skip_ws s in
  let '(neg, s2) :=
    match s1 with
    | String "-"%char r => (true, r)
    | String "+"%char r => (false, r)
    | _ => (false, s1)
    end in
  let '(radix, s3) :=
    match s2 with
    | String "0"%char (String "x"%char r) => (16, r)
    | String "0"%char (String "X"%char r) => (16, r)
    | _ => (10, s2)
    end in
  option_map (fun v => if neg then - v else v) (parse_digits radix s3 None).

(** [s.slice(-1)]: the last character, or the empty string. *)
Fixpoint slice_last (s : string) : string :=
  match s with
  | EmptyString => EmptyString
  | String c EmptyString => s
  | String _ r => slice_last r
  end.

(** [Math.round]: nearest integer, halves towards plus infinity. *)
Definition round (q : Q) : Z := Qfloor (q + (1 # 2)).

(** [Math.floor]. *)
Definition floor (q : Q) : Z := Qfloor q.

(** [Math.min(1, q)]. *)
Definition min1 (q : Q) : Q := if Qle_bool q 1 then q else 1%Q.

(** Truthiness of a number: every number but zero (and [NaN]). *)
Definition truthyZ (z : Z) : bool := negb (z =? 0).
Definition truthyQ (q : Q) : bool := negb (Qeq_bool q 0).

(** Truthiness of a nullable number. *)
Definition truthy_oZ (v : option Z) : bool :=
  match v with Some z => truthyZ z | None => false end.
Definition truthy_oQ (v : option Q) : bool :=
  match v with Some q => truthyQ q | None => false end.

(** [v || d] on a nullable number. *)
Definition orZ (v : option Z) (d : Z) : Z :=
  match v with
  | Some z => if truthyZ z then z else d
  | None => d
  end.
Definition orQ (v : option Q) (d : Q) : Q :=
  match v with
  | Some q => if truthyQ q then q else d
  | None => d
  end.

(** An object used as a dictionary with string keys: own properties in
    insertion order.  Integer-like keys, which JavaScript enumerates
    first, and keys that name a property of [Object.prototype] are
    outside the model: the keys here are Camelot keys or "Unknown". *)
Definition Obj (V : Type) := list (string * V).

Fixpoint get {V} (o : Obj V) (k : string) : option V :=
  match o with
  | [] => None
  | (k', v) :: r => if String.eqb k' k then Some v else get r k
  end.

(** [o[k] = v]: overwrite in place, or append a new property. *)
Fixpoint set {V} (o : Obj V) (k : string) (v : V) : Obj V :=
  match o with
  | [] => [(k, v)]
  | (k', v') :: r =>
      if String.eqb k' k then (k', v) :: r else (k', v') :: set r k v
  end.

(** [a.push(x)]. *)
Definition push {A} (a : list A) (x : A) : list A := (a ++ [x])%list.

(** A lookup table with small integer keys. *)
Fixpoint getZ {V} (o : list (Z * V)) (k : Z) : option V :=
  match o with
  | [] => None
  | (k', v) :: r => if k' =? k then Some v else getZ r k
  end.

End Js.

(** ** The key circle *)

Local Open Scope string_scope.

(** Major keys (letter B). *)
Definition CAMELOT_WHEEL : list (Z * string) :=
  [ (0, "1B"); (1, "8B"); (2, "3B"); (3, "10B"); (4, "5B"); (5, "12B");
    (6, "7B"); (7, "2B"); (8, "9B"); (9, "4B"); (10, "11B"); (11, "6B") ].

(** Minor keys (letter A). *)
Definition CAMELOT_WHEEL_MINOR : list (Z * string) :=
  [ (0, "8A"); (1, "3A"); (2, "10A"); (3, "5A"); (4, "12A"); (5, "7A");
    (6, "2A"); (7, "9A"); (8, "4A"); (9, "11A"); (10, "6A"); (11, "1A") ].

Definition KEY_NAMES : list (Z * string) :=
  [ (0, "C"); (1, "C#/Db"); (2, "D"); (3, "D#/Eb"); (4, "E"); (5, "F");
    (6, "F#/Gb"); (7, "G"); (8, "G#/Ab"); (9, "A"); (10, "A#/Bb"); (11, "B") ].

(** [table[key] || 'Unknown'] (no table entry is the empty string). *)
Definition or_unknown (v : option string) : string :=
  match v with
  | Some s => if String.eqb s "" then "Unknown" else s
  | None => "Unknown"
  end.

(** [mode] is the nullable number of the combined record: 1 is major,
    anything else (0, [null]) takes the minor table. *)
Definition getCamelotKey (key : Z) (mode : option Z) : string :=
  match mode with
  | Some 1 => or_unknown (Js.getZ CAMELOT_WHEEL key)
  | _ => or_unknown (Js.getZ CAMELOT_WHEEL_MINOR key)
  end.

Definition getHarmonicCompatibility (camelotKey : string) : list string :=
  if String.eqb camelotKey "" || String.eqb camelotKey "Unknown" then []
  else
    let number := Js.parseInt camelotKey in
    let letter := Js.slice_last camelotKey in
    (* Same key *)
    let compatible := Js.push [] camelotKey in
    (* Adjacent keys *)
    let nextNum := if Js.eqb number 12 then Some 1 else Js.add number 1 in
    let prevNum := if Js.eqb number 1 then Some 12 else Js.add number (-1) in
    let compatible := Js.push compatible (Js.show nextNum ++ letter) in
    let compatible := Js.push compatible (Js.show prevNum ++ letter) in
    (* Relative major/minor *)
    let oppositeLetter := if String.eqb letter "A" then "B" else "A" in
    let compatible := Js.push compatible (Js.show number ++ oppositeLetter) in
    (* Perfect 4th/5th *)
    let fourthUp :=
      if Js.gtb (Js.add number 7) 12 then Js.add (Js.add number 7) (-12)
      else Js.add number 7 in
    let fifthUp :=
      if Js.gtb (Js.add number 5) 12 then Js.add (Js.add number 5) (-12)
      else Js.add number 5 in
    let compatible := Js.push compatible (Js.show fourthUp ++ letter) in
    let compatible := Js.push compatible (Js.show fifthUp ++ letter) in
    (* Energy boost/drop *)
    let energyBoost := if Js.eqb nextNum 13 then Some 1 else nextNum in
    let energyDrop := if Js.eqb prevNum 0 then Some 12 else prevNum in
    let compatible :=
      Js.push compatible (Js.show energyBoost ++ oppositeLetter) in
    let compatible :=
      Js.push compatible (Js.show energyDrop ++ oppositeLetter) in
    compatible.

(** A wheel position as the code writes it: the slot in decimal followed by
    the letter. *)
Definition camelot (slot : Z) (letter : string) : string :=
  Js.show_Z slot ++ letter.

Definition opposite (letter : string) : string :=
  if String.eqb letter "A" then "B" else "A".

(** Slot arithmetic on the circle 1..12. *)
Definition wrap (n : Z) : Z := (n - 1) mod 12 + 1.

(** ** Adapter results (alternative-audio-sources.js) *)

(** What an adapter call settles to: the data object, or the
    [{ error: message }] object built by the [catch] in
    [getAlternativeAudioFeatures].  The reconciler is an ordinary function
    of three such objects, so the fields it reads are nullable in the data
    records below, whatever the adapters put there. *)
Inductive Result (A : Type) : Type :=
| Success (data : A)
| Failure (error : string).
Arguments Success {A} data.
Arguments Failure {A} error.

(** [data && !data.error] *)
Definition succeeded {A} (r : Result A) : bool :=
  match r with
  | Success _ => true
  | Failure _ => false
  end.

Module LastFm.
(** The part of [getLastFmData]'s object that the reconciler reads. *)
Record t := { tags : list string; estimatedEnergy : option Q }.
End LastFm.

Module AcousticBrainz.
(** Every descriptor is nullable ([... || null] in
    [getAcousticBrainzData]). *)
Record t := {
  bpm : option Q;
  key : option string;
  mode : option string;
  energy : option Q;
  danceability : option Q;
  confidence : Q
}.
End AcousticBrainz.

Module Beatport.
Record t := {
  searchQuery : string;
  estimated : bool;
  bpm : option Z;
  key : option Z;
  genre : option string;
  confidence : Q
}.
End Beatport.

Module Combined.
Record t := {
  bpm : option Z;
  key : option Z;
  mode : option Z;
  energy : option Q;
  danceability : option Q;
  confidence : Q
}.

Definition set_bpm (c : t) (v : option Z) : t :=
  {| bpm := v; key := key c; mode := mode c; energy := energy c;
     danceability := danceability c; confidence := confidence c |}.
Definition set_key (c : t) (v : option Z) : t :=
  {| bpm := bpm c; key := v; mode := mode c; energy := energy c;
     danceability := danceability c; confidence := confidence c |}.
Definition set_mode (c : t) (v : option Z) : t :=
  {| bpm := bpm c; key := key c; mode := v; energy := energy c;
     danceability := danceability c; confidence := confidence c |}.
Definition set_energy (c : t) (v : option Q) : t :=
  {| bpm := bpm c; key := key c; mode := mode c; energy := v;
     danceability := danceability c; confidence := confidence c |}.
Definition set_danceability (c : t) (v : option Q) : t :=
  {| bpm := bpm c; key := key c; mode := mode c; energy := energy c;
     danceability := v; confidence := confidence c |}.
Definition set_confidence (c : t) (v : Q) : t :=
  {| bpm := bpm c; key := key c; mode := mode c; energy := energy c;
     danceability := danceability c; confidence := v |}.
End Combined.

(** The values [Math.random()] returns during one track's analysis, in the
    order the code may ask for them. *)
Record Draws := {
  genre_draw : Q;   (* estimateBeatportData: genre *)
  bpm_draw : Q;     (* estimateBeatportData: tempo inside the genre's range *)
  bkey_draw : Q;    (* estimateBeatportData: key *)
  key_draw : Q;     (* mapAcousticBrainzKey: unrecognised key *)
  mode_draw : Q     (* mapAcousticBrainzMode: unrecognised mode *)
}.

(** A draw of [Math.random()] lies in the interval from 0 to 1, 1 excluded. *)
Definition unit_draw (r : Q) : Prop := (0 <= r)%Q /\ (r < 1)%Q.

(** ** Helper functions of the reconciler *)

Definition genres : list string :=
  ["house"; "techno"; "trance"; "drum and bass"; "dubstep"].

Definition estimateBeatportData (d : Draws) : Z * Z * option string :=
  let index := Js.floor (genre_draw d * 5) in
  let randomGenre :=
    if (index <? 0)%Z then None else nth_error genres (Z.to_nat index) in
  let chosen g := match randomGenre with
              | Some g' => String.eqb g' g
              | None => false
              end in
  let estimatedBpm :=
    if chosen "house" then 120 + Js.floor (bpm_draw d * 8)
    else if chosen "techno" then 125 + Js.floor (bpm_draw d * 10)
    else if chosen "trance" then 128 + Js.floor (bpm_draw d * 8)
    else if chosen "drum and bass" then 170 + Js.floor (bpm_draw d * 10)
    else if chosen "dubstep" then 140 + Js.floor (bpm_draw d * 10)
    else 120 + Js.floor (bpm_draw d * 20) in
  let estimatedKey := Js.floor (bkey_draw d * 12) in
  (estimatedBpm, estimatedKey, randomGenre).

(** [getBeatportData] when nothing inside it throws. *)
Definition getBeatportData (artist track : string) (d : Draws) : Beatport.t :=
  let searchQuery := artist ++ " " ++ track in
  let '(bpm, key, genre) := estimateBeatportData d in
  {| Beatport.searchQuery := searchQuery;
     Beatport.estimated := true;
     Beatport.bpm := Some bpm;
     Beatport.key := Some key;
     Beatport.genre := genre;
     Beatport.confidence := 0.3 |}.

Definition keyMap : Js.Obj Z :=
  [ ("C", 0); ("C#", 1); ("Db", 1); ("D", 2); ("D#", 3); ("Eb", 3);
    ("E", 4); ("F", 5); ("F#", 6); ("Gb", 6); ("G", 7); ("G#", 8);
    ("Ab", 8); ("A", 9); ("A#", 10); ("Bb", 10); ("B", 11) ].

(** Own properties of [keyMap] only: a key name that happens to be the name
    of a property of [Object.prototype] is outside the model. *)
Definition mapAcousticBrainzKey (abKey : string) (d : Draws) : Z :=
  match Js.get keyMap abKey with
  | Some k => k
  | None => Js.floor (key_draw d * 12)
  end.

Definition mapAcousticBrainzMode (abMode : option string) (d : Draws) : Z :=
  match abMode with
  | Some m =>
      if String.eqb m "major" then 1
      else if String.eqb m "minor" then 0
      else Js.round (mode_draw d)
  | None => Js.round (mode_draw d)
  end.

(** ** The reconciler: [combineAudioFeatures] *)

(** The local variables of [combineAudioFeatures]. *)
Record Merge := {
  combined : Combined.t;
  sources : Z;
  totalConfidence : Q
}.

Definition on_combined (f : Combined.t -> Combined.t) (m : Merge) : Merge :=
  {| combined := f (combined m); sources := sources m;
     totalConfidence := totalConfidence m |}.

(** [totalConfidence += w] *)
Definition add_confidence (w : Q) (m : Merge) : Merge :=
  {| combined := combined m; sources := sources m;
     totalConfidence := (totalConfidence m + w)%Q |}.

(** [sources++] *)
Definition count_source (m : Merge) : Merge :=
  {| combined := combined m; sources := sources m + 1;
     totalConfidence := totalConfidence m |}.

(** Prioritize AcousticBrainz for accuracy. *)
Definition merge_acousticbrainz
    (acousticbrainzData : Result AcousticBrainz.t) (d : Draws) (m : Merge)
  : Merge :=
  match acousticbrainzData with
  | Success ab =>
      let m :=
        match AcousticBrainz.bpm ab with
        | Some b =>
            if Js.truthyQ b then
              add_confidence 0.8
                (on_combined
                   (fun c => Combined.set_bpm c (Some (Js.round b))) m)
            else m
        | None => m
        end in
      let m :=
        match AcousticBrainz.key ab with
        | Some k =>
            on_combined
              (fun c =>
                 Combined.set_mode
                   (Combined.set_key c (Some (mapAcousticBrainzKey k d)))
                   (Some (mapAcousticBrainzMode (AcousticBrainz.mode ab) d)))
              m
        | None => m
        end in
      let m :=
        match AcousticBrainz.energy ab with
        | Some e =>
            if Js.truthyQ e then
              on_combined
                (fun c => Combined.set_energy c (Some (Js.min1 e))) m
            else m
        | None => m
        end in
      let m :=
        match AcousticBrainz.danceability ab with
        | Some dn =>
            if Js.truthyQ dn then
              on_combined (fun c => Combined.set_danceability c (Some dn)) m
            else m
        | None => m
        end in
      count_source m
  | Failure _ => m
  end.

(** Use Beatport as backup for BPM/key. *)
Definition merge_beatport (beatportData : Result Beatport.t) (m : Merge)
  : Merge :=
  match beatportData with
  | Success bp =>
      if negb (Js.truthy_oZ (Combined.bpm (combined m))) then
        let m :=
          if Js.truthy_oZ (Beatport.bpm bp) then
            add_confidence 0.3
              (on_combined (fun c => Combined.set_bpm c (Beatport.bpm bp)) m)
          else m in
        let m :=
          if Js.truthy_oZ (Beatport.key bp)
             && negb (Js.truthy_oZ (Combined.key (combined m)))
          then on_combined (fun c => Combined.set_key c (Beatport.key bp)) m
          else m in
        count_source m
      else m
  | Failure _ => m
  end.

(** Use Last.fm for energy estimation. *)
Definition merge_lastfm (lastfmData : Result LastFm.t) (m : Merge) : Merge :=
  match lastfmData with
  | Success lf =>
      let m :=
        if Js.truthy_oQ (LastFm.estimatedEnergy lf)
           && negb (Js.truthy_oQ (Combined.energy (combined m)))
        then
          add_confidence 0.2
            (on_combined
               (fun c => Combined.set_energy c (LastFm.estimatedEnergy lf)) m)
        else m in
      count_source m
  | Failure _ => m
  end.

Definition empty_combined : Combined.t :=
  {| Combined.bpm := None; Combined.key := None; Combined.mode := None;
     Combined.energy := None; Combined.danceability := None;
     Combined.confidence := 0 |}.

Definition combineAudioFeatures
    (lastfmData : Result LastFm.t)
    (acousticbrainzData : Result AcousticBrainz.t)
    (beatportData : Result Beatport.t)
    (d : Draws) : Combined.t :=
  let m := {| combined := empty_combined; sources := 0;
              totalConfidence := 0 |} in
  let m := merge_acousticbrainz acousticbrainzData d m in
  let m := merge_beatport beatportData m in
  let m := merge_lastfm lastfmData m in
  (* Calculate overall confidence *)
  Combined.set_confidence (combined m)
    (if sources m >? 0 then (totalConfidence m / inject_Z (sources m))%Q
     else 0%Q).

(** ** The batch orchestrator *)

Module Artist.
Record t := { name : string }.
End Artist.

Module Track.
Record t := {
  id : string;
  name : string;
  uri : string;
  artists : list Artist.t
}.
End Track.

(** What the outside world does during the analysis of one track: what the
    two network adapters settle to, whether the Beatport estimator throws,
    and the random draws. *)
Record World := {
  lastfm_settles : Result LastFm.t;
  acousticbrainz_settles : Result AcousticBrainz.t;
  beatport_throws : option string;
  draws : Draws
}.

Module Sources.
Record t := {
  lastfm : Result LastFm.t;
  acousticbrainz : Result AcousticBrainz.t;
  beatport : Result Beatport.t
}.
End Sources.

Module Analysis.
Record t := {
  artist : string;
  track : string;
  spotifyId : string;
  sources : Sources.t;
  combined : Combined.t
}.
End Analysis.

Definition getAlternativeAudioFeatures
    (artist track spotifyId : string) (w : World) : Analysis.t :=
  let lastfmData := lastfm_settles w in
  let acousticbrainzData := acousticbrainz_settles w in
  let beatportData :=
    match beatport_throws w with
    | Some message => Failure ("Beatport search failed: " ++ message)
    | None => Success (getBeatportData artist track (draws w))
    end in
  {| Analysis.artist := artist;
     Analysis.track := track;
     Analysis.spotifyId := spotifyId;
     Analysis.sources :=
       {| Sources.lastfm := lastfmData;
          Sources.acousticbrainz := acousticbrainzData;
          Sources.beatport := beatportData |};
     Analysis.combined :=
       combineAudioFeatures lastfmData acousticbrainzData beatportData
         (draws w) |}.

(** Computations that may throw. *)
Inductive exc (A : Type) : Type :=
| Ok (value : A)
| Throw (message : string).
Arguments Ok {A} value.
Arguments Throw {A} message.

Definition bind {A B} (c : exc A) (k : A -> exc B) : exc B :=
  match c with
  | Ok a => k a
  | Throw e => Throw e
  end.

Notation "x <- c ;; k" := (bind c (fun x => k))
  (at level 61, c at next level, right associativity).

(** [try { body } catch (error) { handler(error) }] *)
Definition try_catch {A} (body : exc A) (handler : string -> exc A) : exc A :=
  match body with
  | Ok a => Ok a
  | Throw e => handler e
  end.

(** An element of the list the orchestrator returns. *)
Module Entry.
Record t := {
  track : option Track.t;
  bpm : option Z;
  key : option Z;
  mode : option Z;
  energy : option Q;
  danceability : option Q;
  confidence : Q;
  sources : list string
}.
End Entry.

(** [Object.keys(analysis.sources)] filtered by
    [key => !analysis.sources[key].error]. *)
Definition contributing (s : Sources.t) : list string :=
  (if succeeded (Sources.lastfm s) then ["lastfm"] else [])
  ++ (if succeeded (Sources.acousticbrainz s) then ["acousticbrainz"] else [])
  ++ (if succeeded (Sources.beatport s) then ["beatport"] else []).

Definition make_entry (track : Track.t) (analysis : Analysis.t) : Entry.t :=
  let c := Analysis.combined analysis in
  {| Entry.track := Some track;
     Entry.bpm := Combined.bpm c;
     Entry.key := Combined.key c;
     Entry.mode := Combined.mode c;
     Entry.energy := Combined.energy c;
     Entry.danceability := Combined.danceability c;
     Entry.confidence := Combined.confidence c;
     Entry.sources := contributing (Analysis.sources analysis) |}.

(** [a > b] on rationals. *)
Definition Qgtb (a b : Q) : bool := negb (Qle_bool a b).

(** The state of the loop: the accumulated [results], the calls made to
    [progressCallback] (the caller passes one; it only prints), and the
    lines the orchestrator itself logs.  The 200 ms pause between tracks
    has no effect on the state. *)
Record Batch := {
  results : list Entry.t;
  progress : list (Q * string);
  console : list string
}.

Definition report (percent : Q) (status : string) (b : Batch) : Batch :=
  {| results := results b;
     progress := Js.push (progress b) (percent, status);
     console := console b |}.

Definition log (line : string) (b : Batch) : Batch :=
  {| results := results b; progress := progress b;
     console := Js.push (console b) line |}.

Definition push_result (e : Entry.t) (b : Batch) : Batch :=
  {| results := Js.push (results b) e; progress := progress b;
     console := console b |}.

(** The [try] block of the loop body.  [track.artists[0].name] throws a
    [TypeError] when the track has no artist. *)
Definition analyze_track (track : Track.t) (w : World) (b : Batch)
  : exc Batch :=
  artist0 <- match Track.artists track with
             | a :: _ => Ok (Artist.name a)
             | [] =>
                 Throw "Cannot read properties of undefined (reading 'name')"
             end ;;
  let analysis :=
    getAlternativeAudioFeatures artist0 (Track.name track) (Track.id track) w in
  if Qgtb (Combined.confidence (Analysis.combined analysis)) 0.2
  then Ok (push_result (make_entry track analysis) b)
  else Ok b.

(** One iteration of the [for] loop. *)
Definition batch_step (world : nat -> World) (total i : nat)
    (track : Track.t) (b : Batch) : exc Batch :=
  let b :=
    report (inject_Z (Z.of_nat i) / inject_Z (Z.of_nat total) * 100)%Q
      ("Analyzing: " ++ Track.name track) b in
  try_catch (analyze_track track (world i) b)
    (fun message =>
       Ok (log ("   ⚠️ Failed to analyze " ++ Track.name track ++ ": "
                ++ message) b)).

Fixpoint batch_loop (world : nat -> World) (total i : nat)
    (rest : list Track.t) (b : Batch) : exc Batch :=
  match rest with
  | [] => Ok b
  | track :: rest' =>
      b' <- batch_step world total i track b ;;
      batch_loop world total (S i) rest' b'
  end.

(** [world i] is what the outside world does during iteration [i]. *)
Definition batchAnalyzeAlternativeSources
    (world : nat -> World) (tracks : list Track.t) : exc Batch :=
  batch_loop world (length tracks) 0 tracks
    {| results := []; progress := []; console := [] |}.

(** ** Per-track processing: [processAlternativeAnalysis] *)

Module Analyzed.
Record t := {
  track : Track.t;
  bpm : Z;
  key : Z;
  mode : option Z;
  camelotKey : string;
  keyName : string;
  energy : Q;
  danceability : Q;
  confidence : Q;
  sources : list string;
  harmonicKeys : list string
}.
End Analyzed.

(** The body of the [forEach] callback: the feature record pushed for one
    analysis result, or nothing when the callback returns early. *)
Definition process_result (result : Entry.t) : option Analyzed.t :=
  match Entry.track result with
  | None => None                       (* No track at index *)
  | Some track =>
      match Entry.key result with
      | None => None                   (* No key data for track *)
      | Some key =>
          let camelotKey := getCamelotKey key (Entry.mode result) in
          let keyName := or_unknown (Js.getZ KEY_NAMES key) in
          let mode :=
            match Entry.mode result with
            | Some 1 => "Major"
            | _ => "Minor"
            end in
          Some
            {| Analyzed.track := track;
               Analyzed.bpm := Js.orZ (Entry.bpm result) 120;
               Analyzed.key := key;
               Analyzed.mode := Entry.mode result;
               Analyzed.camelotKey := camelotKey;
               Analyzed.keyName := keyName ++ " " ++ mode;
               Analyzed.energy := Js.orQ (Entry.energy result) 0.5;
               Analyzed.danceability :=
                 Js.orQ (Entry.danceability result) 0.5;
               Analyzed.confidence :=
                 Js.orQ (Some (Entry.confidence result)) 0;
               Analyzed.sources := Entry.sources result;
               Analyzed.harmonicKeys := getHarmonicCompatibility camelotKey |}
      end
  end.

Definition processAlternativeAnalysis (analysisResults : list Entry.t)
  : list Analyzed.t :=
  fold_left
    (fun analyzedTracks result =>
       match process_result result with
       | Some feature => Js.push analyzedTracks feature
       | None => analyzedTracks
       end)
    analysisResults [].

(** ** The harmonic grouper: [createDJPlaylists] *)

Module Playlist.
Record t := {
  name : string;
  description : string;
  tracks : list Analyzed.t;
  camelotKey : string;
  bpmRange : string
}.
End Playlist.

(** [tracks.sort((a, b) => a.bpm - b.bpm)]: the sort is stable. *)
Fixpoint insert_by_bpm (x : Analyzed.t) (sorted : list Analyzed.t)
  : list Analyzed.t :=
  match sorted with
  | [] => [x]
  | y :: rest =>
      if (Analyzed.bpm x <=? Analyzed.bpm y)%Z then x :: y :: rest
      else y :: insert_by_bpm x rest
  end.

Definition sort_by_bpm (tracks : list Analyzed.t) : list Analyzed.t :=
  fold_right insert_by_bpm [] tracks.

(** [s.toUpperCase()] on ASCII letters. *)
Definition upper_char (c : ascii) : ascii :=
  let n := nat_of_ascii c in
  if (97 <=? n)%nat && (n <=? 122)%nat then ascii_of_nat (n - 32) else c.

Fixpoint toUpperCase (s : string) : string :=
  match s with
  | EmptyString => EmptyString
  | String c r => String (upper_char c) (toUpperCase r)
  end.

(** The callback of the first [forEach]: file one track under its Camelot
    key. *)
Definition group_track (keyGroups : Js.Obj (list Analyzed.t))
    (track : Analyzed.t) : Js.Obj (list Analyzed.t) :=
  let k := Analyzed.camelotKey track in
  let keyGroups :=
    match Js.get keyGroups k with
    | None => Js.set keyGroups k []
    | Some _ => keyGroups
    end in
  match Js.get keyGroups k with
  | Some group => Js.set keyGroups k (Js.push group track)
  | None => keyGroups
  end.

(** Group by Camelot key. *)
Definition group_by_key (analyzedTracks : list Analyzed.t)
  : Js.Obj (list Analyzed.t) :=
  fold_left group_track analyzedTracks [].

(** The three tempo bands of a partition, in the order of the object
    literal. *)
Definition bpmRanges (tracks : list Analyzed.t)
  : Js.Obj (list Analyzed.t) :=
  [ ("slow", filter (fun t => (Analyzed.bpm t <? 100)%Z) tracks);
    ("medium",
     filter (fun t => (100 <=? Analyzed.bpm t)%Z && (Analyzed.bpm t <? 130)%Z)
       tracks);
    ("fast", filter (fun t => (130 <=? Analyzed.bpm t)%Z) tracks) ].

(** The inner [forEach] callback: one tempo band of one partition. *)
Definition emit_band (camelotKey : string)
    (playlists : Js.Obj Playlist.t) (band : string * list Analyzed.t)
  : Js.Obj Playlist.t :=
  let '(speed, speedTracks) := band in
  if (2 <=? length speedTracks)%nat then
    match speedTracks, last (map Some speedTracks) None with
    | first :: _, Some final =>
        let playlistKey := camelotKey ++ "-" ++ speed in
        Js.set playlists playlistKey
          {| Playlist.name :=
               "🎛️ " ++ camelotKey ++ " " ++ toUpperCase speed
               ++ " (" ++ Analyzed.keyName first ++ ")";
             Playlist.description :=
               "DJ Mix Ready • Key: " ++ camelotKey
               ++ " (" ++ Analyzed.keyName first ++ ") • BPM: "
               ++ Js.show_Z (Analyzed.bpm first) ++ "-"
               ++ Js.show_Z (Analyzed.bpm final) ++ " • "
               ++ Js.show_Z (Z.of_nat (length speedTracks)) ++ " tracks";
             Playlist.tracks := sort_by_bpm speedTracks;
             Playlist.camelotKey := camelotKey;
             Playlist.bpmRange := speed |}
    | _, _ => playlists   (* a band of two or more has both ends *)
    end
  else playlists.

(** The outer [forEach] callback: one partition. *)
Definition emit_partition (playlists : Js.Obj Playlist.t)
    (entry : string * list Analyzed.t) : Js.Obj Playlist.t :=
  let '(camelotKey, tracks) := entry in
  if (3 <=? length tracks)%nat && negb (String.eqb camelotKey "Unknown") then
    let tracks := sort_by_bpm tracks in
    fold_left (emit_band camelotKey) (bpmRanges tracks) playlists
  else playlists.

Definition createDJPlaylists (analyzedTracks : list Analyzed.t)
  : Js.Obj Playlist.t :=
  let keyGroups := group_by_key analyzedTracks in
  fold_left emit_partition keyGroups [].

(** ** Definitions used to state the properties *)

(** The 24 wheel positions: slots 1 to 12, letters A (minor) and B (major). *)
Definition slots : list Z := [1; 2; 3; 4; 5; 6; 7; 8; 9; 10; 11; 12]%Z.

Definition WHEEL_POSITIONS : list string :=
  flat_map (fun n => [camelot n "A"; camelot n "B"]) slots.

Definition is_letter (letter : string) : Prop := letter = "A" \/ letter = "B".

(** The mode flag of a reconciled key: 1 is major, 0 is minor. *)
Definition is_mode (m : Z) : Prop := m = 1%Z \/ m = 0%Z.

(** The slot of an entry of a compatibility list. *)
Definition slot_of (entry : string) : Js.num := Js.parseInt entry.

(** The compatibility set as the specification words it: the position, its
    two neighbours, its twin of the other letter, and positions 5 or 7
    slots away in either direction, whatever their letter. *)
Definition spec_members (n : Z) (letter : string) : list string :=
  [ camelot n letter;
    camelot (wrap (n + 1)) letter;
    camelot (wrap (n - 1)) letter;
    camelot n (opposite letter) ]
  ++ flat_map
       (fun d => [ camelot (wrap (n + d)) letter;
                   camelot (wrap (n + d)) (opposite letter) ])
       [5; -5; 7; -7]%Z.

(** The compatibility list as the code builds it. *)
Definition code_members (n : Z) (letter : string) : list string :=
  [ camelot n letter;
    camelot (wrap (n + 1)) letter;
    camelot (wrap (n - 1)) letter;
    camelot n (opposite letter);
    camelot (wrap (n + 7)) letter;
    camelot (wrap (n + 5)) letter;
    camelot (wrap (n + 1)) (opposite letter);
    camelot (wrap (n - 1)) (opposite letter) ].

(** The tempo AcousticBrainz leaves in the combined record. *)
Definition ab_tempo (a : Result AcousticBrainz.t) : option Z :=
  match a with
  | Success ab =>
      match AcousticBrainz.bpm ab with
      | Some b => if Js.truthyQ b then Some (Js.round b) else None
      | None => None
      end
  | Failure _ => None
  end.

(** AcousticBrainz contributes its weight: it succeeded with a tempo. *)
Definition ab_weighs (a : Result AcousticBrainz.t) : bool :=
  match a with
  | Success ab => Js.truthy_oQ (AcousticBrainz.bpm ab)
  | Failure _ => false
  end.

(** AcousticBrainz supplies the energy. *)
Definition ab_energy (a : Result AcousticBrainz.t) : bool :=
  match a with
  | Success ab => Js.truthy_oQ (AcousticBrainz.energy ab)
  | Failure _ => false
  end.

(** Beatport is consulted: it succeeded and the tempo is still unset. *)
Definition beatport_consulted
    (a : Result AcousticBrainz.t) (c : Result Beatport.t) : bool :=
  succeeded c && negb (Js.truthy_oZ (ab_tempo a)).

Definition beatport_weighs
    (a : Result AcousticBrainz.t) (c : Result Beatport.t) : bool :=
  match c with
  | Success bp =>
      negb (Js.truthy_oZ (ab_tempo a)) && Js.truthy_oZ (Beatport.bpm bp)
  | Failure _ => false
  end.

Definition lastfm_weighs
    (l : Result LastFm.t) (a : Result AcousticBrainz.t) : bool :=
  match l with
  | Success lf =>
      Js.truthy_oQ (LastFm.estimatedEnergy lf) && negb (ab_energy a)
  | Failure _ => false
  end.

(** The sum of the weights contributed. *)
Definition weights_contributed
    (l : Result LastFm.t) (a : Result AcousticBrainz.t)
    (c : Result Beatport.t) : Q :=
  ((if ab_weighs a then 0.8 else 0)
   + (if beatport_weighs a c then 0.3 else 0)
   + (if lastfm_weighs l a then 0.2 else 0))%Q.

(** The number of sources the reconciler counts. *)
Definition sources_counted
    (l : Result LastFm.t) (a : Result AcousticBrainz.t)
    (c : Result Beatport.t) : Z :=
  (Z.b2z (succeeded a) + Z.b2z (beatport_consulted a c)
   + Z.b2z (succeeded l))%Z.

(** The number of sources that returned a non-failing result. *)
Definition sources_succeeded
    (l : Result LastFm.t) (a : Result AcousticBrainz.t)
    (c : Result Beatport.t) : Z :=
  (Z.b2z (succeeded l) + Z.b2z (succeeded a) + Z.b2z (succeeded c))%Z.

(** The confidence as the specification words it: the weights contributed
    over the number of non-failing sources. *)
Definition spec_confidence
    (l : Result LastFm.t) (a : Result AcousticBrainz.t)
    (c : Result Beatport.t) : Q :=
  if (sources_succeeded l a c =? 0)%Z then 0%Q
  else (weights_contributed l a c / inject_Z (sources_succeeded l a c))%Q.

(** A value of exactly 0 replaced by [null]. *)
Definition null_if_zeroQ (v : option Q) : option Q :=
  if Js.truthy_oQ v then v else None.

Definition null_if_zeroZ (v : option Z) : option Z :=
  if Js.truthy_oZ v then v else None.

Definition map_result {A} (f : A -> A) (r : Result A) : Result A :=
  match r with
  | Success data => Success (f data)
  | Failure e => Failure e
  end.

Definition ab_without_zeros (ab : AcousticBrainz.t) : AcousticBrainz.t :=
  {| AcousticBrainz.bpm := null_if_zeroQ (AcousticBrainz.bpm ab);
     AcousticBrainz.key := AcousticBrainz.key ab;
     AcousticBrainz.mode := AcousticBrainz.mode ab;
     AcousticBrainz.energy := null_if_zeroQ (AcousticBrainz.energy ab);
     AcousticBrainz.danceability :=
       null_if_zeroQ (AcousticBrainz.danceability ab);
     AcousticBrainz.confidence := AcousticBrainz.confidence ab |}.

Definition beatport_without_zeros (bp : Beatport.t) : Beatport.t :=
  {| Beatport.searchQuery := Beatport.searchQuery bp;
     Beatport.estimated := Beatport.estimated bp;
     Beatport.bpm := null_if_zeroZ (Beatport.bpm bp);
     Beatport.key := Beatport.key bp;
     Beatport.genre := Beatport.genre bp;
     Beatport.confidence := Beatport.confidence bp |}.

Definition lastfm_without_zeros (lf : LastFm.t) : LastFm.t :=
  {| LastFm.tags := LastFm.tags lf;
     LastFm.estimatedEnergy := null_if_zeroQ (LastFm.estimatedEnergy lf) |}.

Definition entry_without_zeros (r : Entry.t) : Entry.t :=
  {| Entry.track := Entry.track r;
     Entry.bpm := null_if_zeroZ (Entry.bpm r);
     Entry.key := Entry.key r;
     Entry.mode := Entry.mode r;
     Entry.energy := null_if_zeroQ (Entry.energy r);
     Entry.danceability := null_if_zeroQ (Entry.danceability r);
     Entry.confidence := Entry.confidence r;
     Entry.sources := Entry.sources r |}.

(** The analysis the orchestrator runs for a track with a first artist. *)
Definition analysis_of (artist0 : Artist.t) (track : Track.t) (w : World)
  : Analysis.t :=
  getAlternativeAudioFeatures (Artist.name artist0) (Track.name track)
    (Track.id track) w.

(** What one track adds to the result list. *)
Definition accepted (w : World) (track : Track.t) : list Entry.t :=
  match Track.artists track with
  | artist0 :: _ =>
      let analysis := analysis_of artist0 track w in
      if Qgtb (Combined.confidence (Analysis.combined analysis)) 0.2
      then [make_entry track analysis]
      else []
  | [] => []
  end.

(** What the tracks from position [i] on add to the result list. *)
Fixpoint accepted_from (world : nat -> World) (i : nat)
    (tracks : list Track.t) : list Entry.t :=
  match tracks with
  | [] => []
  | track :: rest => accepted (world i) track ++ accepted_from world (S i) rest
  end.

(** All three adapters of a track fail. *)
Definition all_adapters_fail (w : World) : Prop :=
  succeeded (lastfm_settles w) = false
  /\ succeeded (acousticbrainz_settles w) = false
  /\ beatport_throws w <> None.

(** The features a result list yields, one result at a time. *)
Definition features_of (r : Entry.t) : list Analyzed.t :=
  match process_result r with
  | Some feature => [feature]
  | None => []
  end.

(** Membership in the partition of a wheel position. *)
Definition in_partition (k : string) (t : Analyzed.t) : bool :=
  String.eqb (Analyzed.camelotKey t) k.

(** The size of a partition before the split into tempo bands. *)
Definition partition_size (analyzedTracks : list Analyzed.t) (k : string)
  : nat :=
  length (filter (in_partition k) analyzedTracks).

(** ** Sample inputs *)

Definition zero_draws : Draws :=
  {| genre_draw := 0; bpm_draw := 0; bkey_draw := 0; key_draw := 0;
     mode_draw := 0 |}.

(** AcousticBrainz data: tempo 128, C major. *)
Definition sample_ab : AcousticBrainz.t :=
  {| AcousticBrainz.bpm := Some 128%Q;
     AcousticBrainz.key := Some "C";
     AcousticBrainz.mode := Some "major";
     AcousticBrainz.energy := None;
     AcousticBrainz.danceability := None;
     AcousticBrainz.confidence := 0.8 |}.

Definition no_lastfm_key : Result LastFm.t :=
  Failure "Last.fm API key not configured".

Definition sample_beatport : Result Beatport.t :=
  Success (getBeatportData "Artist" "Title" zero_draws).

Definition sample_track (title : string) : Track.t :=
  {| Track.id := "id-" ++ title; Track.name := title;
     Track.uri := "spotify:track:" ++ title;
     Track.artists := [ {| Artist.name := "Artist" |} ] |}.

(** Nothing answers: no Last.fm key, no recording found, and the Beatport
    estimator throws. *)
Definition failing_world : World :=
  {| lastfm_settles := no_lastfm_key;
     acousticbrainz_settles :=
       Failure "AcousticBrainz failed: Track not found in MusicBrainz";
     beatport_throws := Some "URI malformed";
     draws := zero_draws |}.

(** Only the Beatport estimator answers. *)
Definition beatport_only_world : World :=
  {| lastfm_settles := no_lastfm_key;
     acousticbrainz_settles :=
       Failure "AcousticBrainz failed: Track not found in MusicBrainz";
     beatport_throws := None;
     draws := zero_draws |}.

(** Every third track meets the failing world. *)
Definition every_third_fails (i : nat) : World :=
  if (i mod 3 =? 2)%nat then failing_world else beatport_only_world.

(** An analysis result whose tempo, energy and danceability are 0. *)
Definition zero_entry : Entry.t :=
  {| Entry.track := Some (sample_track "Zero");
     Entry.bpm := Some 0%Z;
     Entry.key := Some 9%Z;
     Entry.mode := Some 0%Z;
     Entry.energy := Some 0%Q;
     Entry.danceability := Some 0%Q;
     Entry.confidence := 0.3;
     Entry.sources := ["beatport"] |}.

(** An analysis result without a key. *)
Definition keyless_entry : Entry.t :=
  {| Entry.track := Some (sample_track "Keyless");
     Entry.bpm := Some 128%Z;
     Entry.key := None;
     Entry.mode := None;
     Entry.energy := Some 0.8%Q;
     Entry.danceability := None;
     Entry.confidence := 0.5;
     Entry.sources := ["lastfm"; "beatport"] |}.

(** A feature with a given wheel position and tempo. *)
Definition sample_feature (title k : string) (tempo : Z) : Analyzed.t :=
  {| Analyzed.track := sample_track title;
     Analyzed.bpm := tempo;
     Analyzed.key := 9;
     Analyzed.mode := Some 0%Z;
     Analyzed.camelotKey := k;
     Analyzed.keyName := "A Minor";
     Analyzed.energy := 0.5;
     Analyzed.danceability := 0.5;
     Analyzed.confidence := 0.3;
     Analyzed.sources := ["beatport"];
     Analyzed.harmonicKeys := getHarmonicCompatibility k |}.

Definition three_tracks : list Track.t :=
  [sample_track "One"; sample_track "Two"; sample_track "Three"].

Definition empty_batch : Batch :=
  {| results := []; progress := []; console := [] |}.

(** The value of a dictionary of groups at a key: groups are never empty. *)
Definition group_entry (g : list Analyzed.t) : option (list Analyzed.t) :=
  match g with
  | [] => None
  | _ :: _ => Some g
  end.

(** What the grouper guarantees of a playlist it emits from
    [analyzedTracks]. *)
Definition emitted_from (analyzedTracks : list Analyzed.t) (p : Playlist.t)
  : Prop :=
  (2 <= length (Playlist.tracks p))%nat
  /\ Playlist.camelotKey p <> "Unknown"
  /\ (3 <= partition_size analyzedTracks (Playlist.camelotKey p))%nat
  /\ Forall (fun t => In t analyzedTracks
                      /\ Analyzed.camelotKey t = Playlist.camelotKey p)
       (Playlist.tracks p).

Definition all_emitted_from (analyzedTracks : list Analyzed.t)
    (playlists : Js.Obj Playlist.t) : Prop :=
  forall pk p, In (pk, p) playlists -> emitted_from analyzedTracks p.

(** ** Further definitions used to state properties of the key circle *)

(** The entry at a position of a compatibility list. *)
Definition entry_at (i : nat) (entries : list string) : string :=
  nth i entries "".

(** Membership of a position in the compatibility list of another. *)
Definition compatible_with (p q : string) : bool :=
  existsb (String.eqb q) (getHarmonicCompatibility p).

(** ** More JavaScript string primitives *)

(** [s.toLowerCase()] on ASCII letters. *)
Definition lower_char (c : ascii) : ascii :=
  let n := nat_of_ascii c in
  if (65 <=? n)%nat && (n <=? 90)%nat then ascii_of_nat (n + 32) else c.

Fixpoint toLowerCase (s : string) : string :=
  match s with
  | EmptyString => EmptyString
  | String c r => String (lower_char c) (toLowerCase r)
  end.

(** [s.includes(sub)] *)
Fixpoint includes (s sub : string) : bool :=
  String.prefix sub s
  || match s with
     | EmptyString => false
     | String _ r => includes r sub
     end.

(** ** Energy estimated from Last.fm tags: [estimateEnergyFromTags] *)

Module Tag.
(** A tag object; its [name] may be missing. *)
Record t := { name : option string }.
End Tag.

Definition highEnergyTags : list string :=
  ["electronic"; "dance"; "house"; "techno"; "dubstep"; "drum and bass";
   "hardcore"].

Definition mediumEnergyTags : list string :=
  ["rock"; "pop"; "indie"; "alternative"].

Definition lowEnergyTags : list string :=
  ["ambient"; "classical"; "folk"; "acoustic"; "chill"].

(** [tag.name?.toLowerCase() || ''] *)
Definition tag_name (tag : Tag.t) : string :=
  match Tag.name tag with
  | Some n => toLowerCase n
  | None => ""
  end.

(** [energyTags.some(energyTag => tag.includes(energyTag))] *)
Definition matches_any (energyTags : list string) (tag : string) : bool :=
  existsb (fun energyTag => includes tag energyTag) energyTags.

Definition estimateEnergyFromTags (tags : list Tag.t) : Q :=
  let tagNames := map tag_name tags in
  let highEnergyCount := length (filter (matches_any highEnergyTags) tagNames) in
  let mediumEnergyCount :=
    length (filter (matches_any mediumEnergyTags) tagNames) in
  let lowEnergyCount := length (filter (matches_any lowEnergyTags) tagNames) in
  if (0 <? highEnergyCount)%nat then 0.8%Q
  else if (0 <? mediumEnergyCount)%nat then 0.6%Q
  else if (0 <? lowEnergyCount)%nat then 0.3%Q
  else 0.5%Q.

(** Some tag carries one of the keywords. *)
Definition tagged (energyTags : list string) (tags : list Tag.t) : Prop :=
  exists tag, In tag tags /\ matches_any energyTags (tag_name tag) = true.

(** A tag with its name in upper case. *)
Definition shout (tag : Tag.t) : Tag.t :=
  {| Tag.name := option_map toUpperCase (Tag.name tag) |}.

(** The tempo range of each genre template of the Beatport estimator:
    lowest and highest tempo. *)
Definition genre_tempo : list (string * (Z * Z)) :=
  [ ("house", (120, 127)%Z); ("techno", (125, 134)%Z);
    ("trance", (128, 135)%Z); ("drum and bass", (170, 179)%Z);
    ("dubstep", (140, 149)%Z) ].

(** All the draws of one analysis are draws of [Math.random()]. *)
Definition unit_draws (d : Draws) : Prop :=
  unit_draw (genre_draw d) /\ unit_draw (bpm_draw d)
  /\ unit_draw (bkey_draw d) /\ unit_draw (key_draw d)
  /\ unit_draw (mode_draw d).

Definition half_draws : Draws :=
  {| genre_draw := 0.5; bpm_draw := 0.5; bkey_draw := 0.5; key_draw := 0.5;
     mode_draw := 0.5 |}.

(** Only the Beatport estimator answers, with every draw at one half. *)
Definition half_world : World :=
  {| lastfm_settles := no_lastfm_key;
     acousticbrainz_settles :=
       Failure "AcousticBrainz failed: Track not found in MusicBrainz";
     beatport_throws := None;
     draws := half_draws |}.

(** ** Further definitions used to state properties of the batch *)

(** [sub] is obtained from [l] by leaving elements out. *)
Inductive subsequence {A : Type} : list A -> list A -> Prop :=
| subsequence_nil : subsequence [] []
| subsequence_keep x sub l :
    subsequence sub l -> subsequence (x :: sub) (x :: l)
| subsequence_skip x sub l :
    subsequence sub l -> subsequence sub (x :: l).

(** The names an entry may list as its sources, in the order of the
    [sources] object. *)
Definition source_names : list string :=
  ["lastfm"; "acousticbrainz"; "beatport"].

(** The progress events of the tracks from position [i] on, out of
    [total]. *)
Fixpoint progress_from (total i : nat) (tracks : list Track.t)
  : list (Q * string) :=
  match tracks with
  | [] => []
  | track :: rest =>
      ((inject_Z (Z.of_nat i) / inject_Z (Z.of_nat total) * 100)%Q,
       "Analyzing: " ++ Track.name track)
      :: progress_from total (S i) rest
  end.

(** The tracks the orchestrator cannot analyse: those without an artist. *)
Definition without_artist (track : Track.t) : bool :=
  match Track.artists track with
  | [] => true
  | _ :: _ => false
  end.

(** An analysis result the per-track processing keeps: it has a track and
    a key. *)
Definition usable (r : Entry.t) : bool :=
  match Entry.track r, Entry.key r with
  | Some _, Some _ => true
  | _, _ => false
  end.

(** ** Further definitions used to state properties of the grouper *)

(** The names of the tempo bands. *)
Definition speeds : list string := ["slow"; "medium"; "fast"].

(** The tempo band a track falls in: under 100, from 100 to under 130, from
    130. *)
Definition in_band (speed : string) (t : Analyzed.t) : bool :=
  if String.eqb speed "slow" then (Analyzed.bpm t <? 100)%Z
  else if String.eqb speed "medium"
       then (100 <=? Analyzed.bpm t)%Z && (Analyzed.bpm t <? 130)%Z
  else (130 <=? Analyzed.bpm t)%Z.

(** The tracks of a wheel position that fall in a tempo band, by ascending
    tempo, tracks of equal tempo in input order. *)
Definition band_of (analyzedTracks : list Analyzed.t) (k speed : string)
  : list Analyzed.t :=
  filter (in_band speed)
    (sort_by_bpm (filter (in_partition k) analyzedTracks)).

(** Ascending tempo. *)
Definition ascending (tracks : list Analyzed.t) : Prop :=
  StronglySorted (fun a b => (Analyzed.bpm a <= Analyzed.bpm b)%Z) tracks.

(** What a playlist stored under the key [pk] looks like. *)
Definition well_shaped (analyzedTracks : list Analyzed.t)
    (pk : string) (p : Playlist.t) : Prop :=
  In (Playlist.bpmRange p) speeds
  /\ pk = Playlist.camelotKey p ++ "-" ++ Playlist.bpmRange p
  /\ Playlist.tracks p
     = band_of analyzedTracks (Playlist.camelotKey p) (Playlist.bpmRange p)
  /\ ascending (Playlist.tracks p).

(** ** The AcousticBrainz adapter: [getAcousticBrainzData] *)

(** What a [fetchWithTimeout] followed by [.json()] settles to: the parsed
    document, or a rejection (network error, timeout, malformed JSON). *)
Inductive Fetched (A : Type) : Type :=
| Arrived (json : A)
| Lost (message : string).
Arguments Arrived {A} json.
Arguments Lost {A} message.

Module Recording.
(** A candidate recording of the MusicBrainz search. *)
Record t := { id : string; title : string }.
End Recording.

Module LowLevel.
(** The parts of a low-level document the adapter reads: whether it has
    a truthy [error] field, and the descriptors, each [None] when its
    path is missing. *)
Record t := {
  error : bool;
  rhythm_bpm : option Q;
  tonal_key_key : option string;
  tonal_key_scale : option string;
  spectral_energy_mean : option Q;
  rhythm_danceability : option Q
}.
End LowLevel.

(** [s || null] on a nullable string. *)
Definition null_if_empty (v : option string) : option string :=
  match v with
  | Some s => if String.eqb s "" then None else Some s
  | None => None
  end.

(** The [for] loop over the candidates: the first whose document arrives,
    is not [null] and has no [error]; a rejected fetch moves on to the next
    candidate.  [lowlevel i] is what the fetch for candidate [i] settles
    to. *)
Fixpoint first_analysed (lowlevel : nat -> Fetched (option LowLevel.t))
    (i : nat) (recordings : list Recording.t) : option AcousticBrainz.t :=
  match recordings with
  | [] => None
  | recording :: rest =>
      match lowlevel i with
      | Arrived (Some audioData) =>
          if negb (LowLevel.error audioData) then
            Some
              {| AcousticBrainz.bpm :=
                   null_if_zeroQ (LowLevel.rhythm_bpm audioData);
                 AcousticBrainz.key :=
                   null_if_empty (LowLevel.tonal_key_key audioData);
                 AcousticBrainz.mode :=
                   null_if_empty (LowLevel.tonal_key_scale audioData);
                 AcousticBrainz.energy :=
                   null_if_zeroQ (LowLevel.spectral_energy_mean audioData);
                 AcousticBrainz.danceability :=
                   null_if_zeroQ (LowLevel.rhythm_danceability audioData);
                 AcousticBrainz.confidence := 0.8 |}
          else first_analysed lowlevel (S i) rest
      | Arrived None => first_analysed lowlevel (S i) rest
      | Lost _ => first_analysed lowlevel (S i) rest
      end
  end.

(** [search] is what the MusicBrainz search settles to: the [recordings]
    field of its document, [None] when the field is missing. *)
Definition getAcousticBrainzData
    (search : Fetched (option (list Recording.t)))
    (lowlevel : nat -> Fetched (option LowLevel.t))
  : Result AcousticBrainz.t :=
  match search with
  | Lost message => Failure ("AcousticBrainz failed: " ++ message)
  | Arrived None | Arrived (Some []) =>
      Failure "AcousticBrainz failed: Track not found in MusicBrainz"
  | Arrived (Some recordings) =>
      match first_analysed lowlevel 0 (firstn 3 recordings) with
      | Some data => Success data
      | None => Failure "AcousticBrainz failed: No audio analysis data found"
      end
  end.

(** A candidate's document is of no use: lost, [null], or with an
    [error]. *)
Definition unusable (outcome : Fetched (option LowLevel.t)) : Prop :=
  match outcome with
  | Arrived (Some audioData) => LowLevel.error audioData = true
  | Arrived None => True
  | Lost _ => True
  end.

(** ** Fetching the library: [getAllSavedTracks] *)

Definition limit : nat := 50.

(** The [while (true)] loop.  [fetch offset] is what the request for the
    page at [offset] settles to: a rejection, or the [items] of the
    response ([None] when the field is missing).  [None] as a result means
    that the loop is still running after [fuel] requests. *)
Fixpoint getAllSavedTracks_loop {Item : Type}
    (fetch : nat -> exc (option (list Item)))
    (fuel : nat) (allTracks : list Item) (offset : nat)
  : option (exc (list Item)) :=
  match fuel with
  | O => None
  | S fuel' =>
      match fetch offset with
      | Throw message => Some (Throw message)
      | Ok None => Some (Ok allTracks)
      | Ok (Some items) =>
          if (length items =? 0)%nat then Some (Ok allTracks)
          else
            let allTracks := (allTracks ++ items)%list in
            let offset := (offset + limit)%nat in
            if (length items <? limit)%nat then Some (Ok allTracks)
            else getAllSavedTracks_loop fetch fuel' allTracks offset
      end
  end.

Definition getAllSavedTracks {Item : Type}
    (fetch : nat -> exc (option (list Item))) (fuel : nat)
  : option (exc (list Item)) :=
  getAllSavedTracks_loop fetch fuel [] 0.

(** A server that holds a library and answers each request with the page
    asked for. *)
Definition serve {Item : Type} (library : list Item) (offset : nat)
  : exc (option (list Item)) :=
  Ok (Some (firstn limit (skipn offset library))).

(** ** Adding tracks to a playlist: the chunks of [createPlaylist] *)

(** [a.slice(i, j)] for [i <= j]. *)
Definition slice {A : Type} (i j : nat) (a : list A) : list A :=
  firstn (j - i) (skipn i a).

(** The [for] loop that cuts the URIs in chunks of 100; [None] when the
    loop is still running after [fuel] iterations. *)
Fixpoint chunk_loop (fuel : nat) (trackUris : list string) (i : nat)
    (chunks : list (list string)) : option (list (list string)) :=
  match fuel with
  | O => None
  | S fuel' =>
      if (i <? length trackUris)%nat then
        chunk_loop fuel' trackUris (i + 100)
          (Js.push chunks (slice i (i + 100) trackUris))
      else Some chunks
  end.

(** The chunks of a playlist's tracks. *)
Definition track_chunks (fuel : nat) (playlistData : Playlist.t)
  : option (list (list string)) :=
  let trackUris :=
    map (fun t => Track.uri (Analyzed.track t)) (Playlist.tracks playlistData)
  in
  chunk_loop fuel trackUris 0 [].

(** The endpoints of the requests that add the tracks, one per chunk. *)
Definition add_tracks_endpoints (playlist_id : string)
    (chunks : list (list string)) : list string :=
  map (fun chunk =>
         "v1/playlists/" ++ playlist_id ++ "/tracks?uris="
         ++ String.concat "," chunk)
    chunks.

(** * Properties *)

(** ** The key circle *)

(** Case analysis on membership in a list given in full. *)
Ltac each_member H :=
  simpl in H;
  repeat (destruct H as [H | H]; [ subst | ]); try contradiction.

(** Search of the pitch class and mode that reach a wheel position. *)
Ltac reach_with k :=
  first
    [ exists k, 1%Z; split; [ lia | split; [ left | ]; reflexivity ]
    | exists k, 0%Z; split; [ lia | split; [ right | ]; reflexivity ] ].

Ltac reach_position :=
  first
    [ reach_with 0%Z | reach_with 1%Z | reach_with 2%Z | reach_with 3%Z
    | reach_with 4%Z | reach_with 5%Z | reach_with 6%Z | reach_with 7%Z
    | reach_with 8%Z | reach_with 9%Z | reach_with 10%Z | reach_with 11%Z ].

Example parseInt_10B : Js.parseInt "10B" = Some 10%Z.
Proof. reflexivity. Qed.

Example parseInt_Unknown : Js.parseInt "Unknown" = None.
Proof. reflexivity. Qed.

Example compat_12A :
  getHarmonicCompatibility "12A" =
  ["12A"; "1A"; "11A"; "12B"; "7A"; "5A"; "1B"; "11B"].
Proof. vm_compute. reflexivity. Qed.

Lemma pitch_cases (k : Z) :
  (0 <= k < 12)%Z ->
  In k [0; 1; 2; 3; 4; 5; 6; 7; 8; 9; 10; 11]%Z.
Proof. intros H. simpl. lia. Qed.

Lemma slot_cases (n : Z) : (1 <= n <= 12)%Z -> In n slots.
Proof. intros H. unfold slots. simpl. lia. Qed.

(** On the 24 wheel positions the code builds exactly [code_members]. *)
Lemma compat_on_wheel (n : Z) (letter : string) :
  In n slots -> In letter ["A"; "B"] ->
  getHarmonicCompatibility (camelot n letter) = code_members n letter.
Proof.
  intros Hn Hl. each_member Hn; each_member Hl; vm_compute; reflexivity.
Qed.

Lemma letter_cases (letter : string) :
  is_letter letter -> In letter ["A"; "B"].
Proof. intros [-> | ->]; simpl; auto. Qed.

(** C2 (as amended): the list built for a wheel position is the position,
    its two neighbours of the same letter, its twin of the other letter,
    the positions 7 and 5 slots up with the same letter, and the two
    neighbours with the other letter. *)
Theorem compatibility_members (n : Z) (letter : string) :
  (1 <= n <= 12)%Z -> is_letter letter ->
  getHarmonicCompatibility (camelot n letter) =
  [ camelot n letter;
    camelot (wrap (n + 1)) letter;
    camelot (wrap (n - 1)) letter;
    camelot n (opposite letter);
    camelot (wrap (n + 7)) letter;
    camelot (wrap (n + 5)) letter;
    camelot (wrap (n + 1)) (opposite letter);
    camelot (wrap (n - 1)) (opposite letter) ].
Proof.
  intros Hn Hl.
  apply (compat_on_wheel n letter (slot_cases n Hn) (letter_cases letter Hl)).
Qed.

Lemma compatibility_members_witness :
  getHarmonicCompatibility "12A" =
  ["12A"; "1A"; "11A"; "12B"; "7A"; "5A"; "1B"; "11B"].
Proof.
  apply (compatibility_members 12 "A"); [ lia | left; reflexivity ].
Defined.

(** C2 (as stated) fails: the list of 1A holds 2B, which is one slot away
    with the other letter, not 5 or 7 slots away. *)
Lemma compatibility_not_spec_members :
  In "2B" (getHarmonicCompatibility (camelot 1 "A"))
  /\ ~ In "2B" (spec_members 1 "A").
Proof.
  split.
  - vm_compute. tauto.
  - vm_compute. intros H.
    repeat (destruct H as [H | H]; [ discriminate H | ]). exact H.
Qed.

(** C4: on the 12 pitch classes and the two modes, [getCamelotKey] is a
    bijection onto the 24 wheel positions: its value is one of them (never
    "Unknown"), distinct arguments give distinct positions, and every
    position is reached. *)
Theorem getCamelotKey_bijection (k1 m1 k2 m2 : Z) :
  (0 <= k1 < 12)%Z -> is_mode m1 -> (0 <= k2 < 12)%Z -> is_mode m2 ->
  In (getCamelotKey k1 (Some m1)) WHEEL_POSITIONS
  /\ getCamelotKey k1 (Some m1) <> "Unknown"
  /\ (getCamelotKey k1 (Some m1) = getCamelotKey k2 (Some m2) ->
      k1 = k2 /\ m1 = m2)
  /\ (forall p, In p WHEEL_POSITIONS ->
      exists k m, (0 <= k < 12)%Z /\ is_mode m
                  /\ getCamelotKey k (Some m) = p).
Proof.
  intros H1 M1 H2 M2.
  apply pitch_cases in H1. apply pitch_cases in H2.
  split; [ | split; [ | split ] ].
  - destruct M1; subst m1; each_member H1; vm_compute; tauto.
  - destruct M1; subst m1; each_member H1; vm_compute; discriminate.
  - destruct M1, M2; subst m1 m2; each_member H1; each_member H2;
      vm_compute; intros E; first [ discriminate E | split; reflexivity ].
  - intros p Hp. unfold WHEEL_POSITIONS in Hp. each_member Hp.
    all: reach_position.
Qed.

Lemma getCamelotKey_bijection_witness :
  In (getCamelotKey 0 (Some 1%Z)) WHEEL_POSITIONS
  /\ getCamelotKey 0 (Some 1%Z) <> "Unknown"
  /\ (getCamelotKey 0 (Some 1%Z) = getCamelotKey 11 (Some 0%Z) ->
      0%Z = 11%Z /\ 1%Z = 0%Z)
  /\ (forall p, In p WHEEL_POSITIONS ->
      exists k m, (0 <= k < 12)%Z /\ is_mode m
                  /\ getCamelotKey k (Some m) = p).
Proof.
  apply (getCamelotKey_bijection 0 1 11 0);
    [ lia | left; reflexivity | lia | right; reflexivity ].
Defined.

(** C5: for a wheel position, the list has exactly 8 entries, holds the
    position itself, and every entry is a wheel position whose slot lies
    in 1..12. *)
Theorem compatibility_eight (n : Z) (letter : string) :
  (1 <= n <= 12)%Z -> is_letter letter ->
  let entries := getHarmonicCompatibility (camelot n letter) in
  length entries = 8%nat
  /\ In (camelot n letter) entries
  /\ Forall (fun e => In e WHEEL_POSITIONS) entries
  /\ Forall (fun e => exists m, slot_of e = Some m /\ (1 <= m <= 12)%Z)
       entries.
Proof.
  intros Hn Hl entries. subst entries.
  rewrite (compat_on_wheel n letter (slot_cases n Hn) (letter_cases letter Hl)).
  apply slot_cases in Hn. apply letter_cases in Hl.
  split; [ reflexivity | split; [ left; reflexivity | split ] ].
  - each_member Hn; each_member Hl;
      repeat (constructor; [ vm_compute; tauto | ]); constructor.
  - each_member Hn; each_member Hl;
      repeat (constructor;
              [ eexists; split; [ vm_compute; reflexivity | lia ] | ]);
      constructor.
Qed.

Lemma compatibility_eight_witness :
  let entries := getHarmonicCompatibility (camelot 12 "B") in
  length entries = 8%nat
  /\ In (camelot 12 "B") entries
  /\ Forall (fun e => In e WHEEL_POSITIONS) entries
  /\ Forall (fun e => exists m, slot_of e = Some m /\ (1 <= m <= 12)%Z)
       entries.
Proof.
  apply (compatibility_eight 12 "B"); [ lia | right; reflexivity ].
Defined.

(** ** The reconciler *)

Lemma truthyQ_min1 (e : Q) :
  Js.truthyQ e = true -> Js.truthyQ (Js.min1 e) = true.
Proof.
  unfold Js.min1. destruct (Qle_bool e 1); [ tauto | reflexivity ].
Qed.

Section Merge.

Variable d : Draws.

Lemma merge_acousticbrainz_sources a m :
  sources (merge_acousticbrainz a d m) = (sources m + Z.b2z (succeeded a))%Z.
Proof.
  destruct a as [ab | e]; simpl; [ | lia ].
  destruct (AcousticBrainz.bpm ab) as [b | ]; [ destruct (Js.truthyQ b) | ];
    destruct (AcousticBrainz.key ab);
    (destruct (AcousticBrainz.energy ab) as [en | ];
     [ destruct (Js.truthyQ en) | ]);
    (destruct (AcousticBrainz.danceability ab) as [dn | ];
     [ destruct (Js.truthyQ dn) | ]);
    reflexivity.
Qed.

Lemma merge_acousticbrainz_total a m :
  (totalConfidence (merge_acousticbrainz a d m)
   == totalConfidence m + (if ab_weighs a then 0.8 else 0))%Q.
Proof.
  destruct a as [ab | e]; simpl; [ | ring ].
  destruct (AcousticBrainz.bpm ab) as [b | ]; simpl;
    [ destruct (Js.truthyQ b) | ];
    destruct (AcousticBrainz.key ab);
    (destruct (AcousticBrainz.energy ab) as [en | ];
     [ destruct (Js.truthyQ en) | ]);
    (destruct (AcousticBrainz.danceability ab) as [dn | ];
     [ destruct (Js.truthyQ dn) | ]);
    simpl; ring.
Qed.

Lemma merge_acousticbrainz_bpm a m :
  Combined.bpm (combined (merge_acousticbrainz a d m)) =
  match ab_tempo a with
  | Some t => Some t
  | None => Combined.bpm (combined m)
  end.
Proof.
  destruct a as [ab | e]; simpl; [ | reflexivity ].
  destruct (AcousticBrainz.bpm ab) as [b | ]; [ destruct (Js.truthyQ b) | ];
    destruct (AcousticBrainz.key ab);
    (destruct (AcousticBrainz.energy ab) as [en | ];
     [ destruct (Js.truthyQ en) | ]);
    (destruct (AcousticBrainz.danceability ab) as [dn | ];
     [ destruct (Js.truthyQ dn) | ]);
    reflexivity.
Qed.

Lemma merge_acousticbrainz_energy a m :
  Js.truthy_oQ (Combined.energy (combined (merge_acousticbrainz a d m))) =
  ab_energy a || Js.truthy_oQ (Combined.energy (combined m)).
Proof.
  destruct a as [ab | e]; simpl; [ | reflexivity ].
  destruct (AcousticBrainz.bpm ab) as [b | ]; [ destruct (Js.truthyQ b) | ];
    destruct (AcousticBrainz.key ab);
    (destruct (AcousticBrainz.energy ab) as [en | ];
     [ destruct (Js.truthyQ en) eqn:Hen | ]);
    (destruct (AcousticBrainz.danceability ab) as [dn | ];
     [ destruct (Js.truthyQ dn) | ]);
    simpl; rewrite ?Hen; try reflexivity;
    apply truthyQ_min1; assumption.
Qed.

Lemma merge_beatport_sources c m :
  sources (merge_beatport c m) =
  (sources m
   + Z.b2z (succeeded c
            && negb (Js.truthy_oZ (Combined.bpm (combined m)))))%Z.
Proof.
  destruct c as [bp | e]; simpl; [ | lia ].
  destruct (Js.truthy_oZ (Combined.bpm (combined m))); simpl; [ lia | ].
  destruct (Js.truthy_oZ (Beatport.bpm bp)); simpl;
    match goal with
    | |- context [if ?b then _ else _] => destruct b
    end; reflexivity.
Qed.

Lemma merge_beatport_total c m :
  (totalConfidence (merge_beatport c m)
   == totalConfidence m
      + (if match c with
            | Success bp =>
                negb (Js.truthy_oZ (Combined.bpm (combined m)))
                && Js.truthy_oZ (Beatport.bpm bp)
            | Failure _ => false
            end
         then 0.3 else 0))%Q.
Proof.
  destruct c as [bp | e]; simpl; [ | ring ].
  destruct (Js.truthy_oZ (Combined.bpm (combined m))); simpl; [ ring | ].
  destruct (Js.truthy_oZ (Beatport.bpm bp)); simpl;
    match goal with
    | |- context [if ?b then _ else _] => destruct b
    end; simpl; ring.
Qed.

Lemma merge_beatport_energy c m :
  Combined.energy (combined (merge_beatport c m)) =
  Combined.energy (combined m).
Proof.
  destruct c as [bp | e]; simpl; [ | reflexivity ].
  destruct (Js.truthy_oZ (Combined.bpm (combined m))); simpl;
    [ reflexivity | ].
  destruct (Js.truthy_oZ (Beatport.bpm bp)); simpl;
    match goal with
    | |- context [if ?b then _ else _] => destruct b
    end; reflexivity.
Qed.

Lemma merge_lastfm_sources l m :
  sources (merge_lastfm l m) = (sources m + Z.b2z (succeeded l))%Z.
Proof.
  destruct l as [lf | e]; simpl; [ | lia ].
  match goal with
  | |- context [if ?b then _ else _] => destruct b
  end; reflexivity.
Qed.

Lemma merge_lastfm_total l m :
  (totalConfidence (merge_lastfm l m)
   == totalConfidence m
      + (if match l with
            | Success lf =>
                Js.truthy_oQ (LastFm.estimatedEnergy lf)
                && negb (Js.truthy_oQ (Combined.energy (combined m)))
            | Failure _ => false
            end
         then 0.2 else 0))%Q.
Proof.
  destruct l as [lf | e]; simpl; [ | ring ].
  match goal with
  | |- context [if ?b then _ else _] => destruct b
  end; simpl; ring.
Qed.

(** The closed form of the confidence the reconciler computes. *)
Lemma confidence_closed_form l a c :
  (Combined.confidence (combineAudioFeatures l a c d)
   == if (sources_counted l a c =? 0)%Z then 0
      else weights_contributed l a c / inject_Z (sources_counted l a c))%Q.
Proof.
  unfold combineAudioFeatures.
  set (m0 := {| combined := empty_combined; sources := 0;
                totalConfidence := 0 |}).
  set (m1 := merge_acousticbrainz a d m0).
  set (m2 := merge_beatport c m1).
  set (m3 := merge_lastfm l m2).
  assert (Hs : sources m3 = sources_counted l a c).
  { unfold m3, m2, m1, sources_counted, beatport_consulted.
    rewrite merge_lastfm_sources, merge_beatport_sources,
      merge_acousticbrainz_sources, merge_acousticbrainz_bpm.
    simpl. destruct (ab_tempo a); reflexivity. }
  assert (Ht : (totalConfidence m3 == weights_contributed l a c)%Q).
  { unfold m3, m2, m1, weights_contributed.
    rewrite merge_lastfm_total, merge_beatport_total,
      merge_acousticbrainz_total.
    rewrite merge_beatport_energy, merge_acousticbrainz_energy,
      merge_acousticbrainz_bpm.
    simpl. rewrite orb_false_r.
    assert (E1 : match ab_tempo a with
                 | Some t => Some t
                 | None => None
                 end = ab_tempo a) by (destruct (ab_tempo a); reflexivity).
    rewrite E1. unfold beatport_weighs, lastfm_weighs.
    ring. }
  assert (Hpos : (0 <= sources_counted l a c)%Z).
  { unfold sources_counted.
    destruct (succeeded a), (beatport_consulted a c), (succeeded l);
      simpl; lia. }
  simpl. rewrite Hs.
  destruct (Z.eqb_spec (sources_counted l a c) 0) as [E | E].
  - rewrite E. reflexivity.
  - replace (sources_counted l a c >? 0)%Z with true
      by (symmetry; apply Z.gtb_lt; lia).
    rewrite Ht. reflexivity.
Qed.

End Merge.

Lemma floor_scaled_draw (r k : Q) :
  unit_draw r -> (0 <= k)%Q -> (0 <= Js.floor (r * k))%Z.
Proof.
  intros [H0 _] Hk. unfold Js.floor.
  change 0%Z with (Qfloor 0). apply Qfloor_resp_le.
  apply Qmult_le_0_compat; assumption.
Qed.

(** The estimator's tempo is at least 120, whatever the draws. *)
Lemma estimateBeatportData_bpm (d : Draws) :
  unit_draw (bpm_draw d) ->
  (120 <= fst (fst (estimateBeatportData d)))%Z.
Proof.
  intros H. unfold estimateBeatportData. cbv zeta. cbn [fst].
  pose proof (floor_scaled_draw _ 8%Q H ltac:(discriminate)).
  pose proof (floor_scaled_draw _ 10%Q H ltac:(discriminate)).
  pose proof (floor_scaled_draw _ 20%Q H ltac:(discriminate)).
  repeat match goal with
         | |- context [if ?b then _ else _] => destruct b
         end; lia.
Qed.

Lemma getBeatportData_bpm_truthy (artist track : string) (d : Draws) :
  unit_draw (bpm_draw d) ->
  Js.truthy_oZ (Beatport.bpm (getBeatportData artist track d)) = true.
Proof.
  intros H. pose proof (estimateBeatportData_bpm d H) as Hb.
  unfold getBeatportData.
  destruct (estimateBeatportData d) as [[bpm key] genre]. simpl in *.
  unfold Js.truthyZ. destruct (Z.eqb_spec bpm 0); [ lia | reflexivity ].
Qed.

(** C1 (as amended): the confidence is the sum of the weights contributed
    over the number of sources the reconciler counts: AcousticBrainz and
    Last.fm when they do not fail, Beatport when it does not fail and the
    tempo is still unset after AcousticBrainz.  It is 0 when no source
    succeeded, and exactly 0.3 when only the Beatport estimator succeeds. *)
Theorem reconciled_confidence
    (l : Result LastFm.t) (a : Result AcousticBrainz.t)
    (c : Result Beatport.t) (d : Draws)
    (artist track e1 e2 : string) :
  unit_draw (bpm_draw d) ->
  (Combined.confidence (combineAudioFeatures l a c d)
   == if (sources_counted l a c =? 0)%Z then 0
      else weights_contributed l a c / inject_Z (sources_counted l a c))%Q
  /\ (sources_succeeded l a c = 0%Z ->
      Combined.confidence (combineAudioFeatures l a c d) = 0%Q)
  /\ Combined.confidence
       (combineAudioFeatures (Failure e1) (Failure e2)
          (Success (getBeatportData artist track d)) d) = 0.3%Q.
Proof.
  intros Hd. split; [ apply confidence_closed_form | split ].
  - unfold sources_succeeded.
    destruct l, a, c; simpl; intros H; try discriminate H; reflexivity.
  - pose proof (getBeatportData_bpm_truthy artist track d Hd) as Hb.
    remember (getBeatportData artist track d) as bp eqn:Ebp. clear Ebp.
    unfold combineAudioFeatures. simpl. rewrite Hb. simpl.
    destruct (Js.truthy_oZ (Beatport.key bp)); reflexivity.
Qed.

Lemma reconciled_confidence_witness :
  (Combined.confidence
     (combineAudioFeatures no_lastfm_key (Success sample_ab) sample_beatport
        zero_draws)
   == if (sources_counted no_lastfm_key (Success sample_ab) sample_beatport
          =? 0)%Z
      then 0
      else weights_contributed no_lastfm_key (Success sample_ab)
             sample_beatport
           / inject_Z (sources_counted no_lastfm_key (Success sample_ab)
                         sample_beatport))%Q
  /\ (sources_succeeded no_lastfm_key (Success sample_ab) sample_beatport
      = 0%Z ->
      Combined.confidence
        (combineAudioFeatures no_lastfm_key (Success sample_ab)
           sample_beatport zero_draws) = 0%Q)
  /\ Combined.confidence
       (combineAudioFeatures (Failure "no key") (Failure "not found")
          (Success (getBeatportData "Artist" "Title" zero_draws))
          zero_draws) = 0.3%Q.
Proof.
  apply (reconciled_confidence no_lastfm_key (Success sample_ab)
           sample_beatport zero_draws "Artist" "Title" "no key" "not found").
  split; [ discriminate | reflexivity ].
Defined.

(** C1 (as stated) fails: when AcousticBrainz supplies the tempo, a Beatport
    result that did not fail is not counted.  With Last.fm failing the code
    yields 0.8 over 1, the specification's formula 0.8 over 2. *)
Lemma confidence_not_spec_confidence :
  Combined.confidence
    (combineAudioFeatures no_lastfm_key (Success sample_ab) sample_beatport
       zero_draws) = 0.8%Q
  /\ (spec_confidence no_lastfm_key (Success sample_ab) sample_beatport
      == 0.4)%Q
  /\ ~ (Combined.confidence
          (combineAudioFeatures no_lastfm_key (Success sample_ab)
             sample_beatport zero_draws)
        == spec_confidence no_lastfm_key (Success sample_ab)
             sample_beatport)%Q.
Proof.
  split; [ vm_compute; reflexivity | split ].
  - vm_compute. reflexivity.
  - vm_compute. discriminate.
Qed.

(** ** Falsy values *)

Lemma merge_acousticbrainz_without_zeros a d m :
  merge_acousticbrainz (map_result ab_without_zeros a) d m =
  merge_acousticbrainz a d m.
Proof.
  destruct a as [ab | e]; [ | reflexivity ].
  destruct ab as [bpm key mode energy dance conf]. simpl.
  unfold null_if_zeroQ.
  destruct bpm as [b | ]; simpl; [ destruct (Js.truthyQ b) eqn:Hb | ];
    (destruct energy as [en | ]; simpl;
     [ destruct (Js.truthyQ en) eqn:Hen | ]);
    (destruct dance as [dn | ]; simpl;
     [ destruct (Js.truthyQ dn) eqn:Hdn | ]);
    simpl; rewrite ?Hb, ?Hen, ?Hdn; reflexivity.
Qed.

Lemma merge_beatport_without_zeros c m :
  merge_beatport (map_result beatport_without_zeros c) m = merge_beatport c m.
Proof.
  destruct c as [bp | e]; [ | reflexivity ].
  destruct bp as [q est bpm key genre conf]. simpl.
  unfold null_if_zeroZ.
  destruct (Js.truthy_oZ bpm) eqn:Hb; simpl; rewrite ?Hb; reflexivity.
Qed.

Lemma merge_lastfm_without_zeros l m :
  merge_lastfm (map_result lastfm_without_zeros l) m = merge_lastfm l m.
Proof.
  destruct l as [lf | e]; [ | reflexivity ].
  destruct lf as [tags en]. simpl. unfold null_if_zeroQ.
  destruct (Js.truthy_oQ en) eqn:Hen; simpl; rewrite ?Hen; reflexivity.
Qed.

Lemma falsy_zeroQ (q : Q) : (q == 0)%Q -> Js.truthyQ q = false.
Proof.
  intros H. unfold Js.truthyQ.
  apply Qeq_bool_iff in H. rewrite H. reflexivity.
Qed.

(** C10: a value of exactly 0 is treated as a missing one.  The per-track
    processing puts the defaults (tempo 120, energy 0.5, danceability 0.5)
    in its place and builds the same feature as for [null]; the reconciler
    gives the same result when each source's zero tempo, energy or
    danceability is replaced by [null]. *)
Theorem zero_counts_as_missing
    (r : Entry.t) (l : Result LastFm.t) (a : Result AcousticBrainz.t)
    (c : Result Beatport.t) (d : Draws) :
  (forall f, process_result r = Some f ->
     (Entry.bpm r = Some 0%Z -> Analyzed.bpm f = 120%Z)
     /\ (forall e, Entry.energy r = Some e -> (e == 0)%Q ->
         Analyzed.energy f = 0.5%Q)
     /\ (forall x, Entry.danceability r = Some x -> (x == 0)%Q ->
         Analyzed.danceability f = 0.5%Q))
  /\ process_result (entry_without_zeros r) = process_result r
  /\ combineAudioFeatures (map_result lastfm_without_zeros l)
       (map_result ab_without_zeros a)
       (map_result beatport_without_zeros c) d
     = combineAudioFeatures l a c d.
Proof.
  split; [ | split ].
  - intros f Hf. unfold process_result in Hf.
    destruct (Entry.track r) as [t | ]; [ | discriminate Hf ].
    destruct (Entry.key r) as [k | ]; [ | discriminate Hf ].
    injection Hf as <-. simpl.
    split; [ | split ].
    + intros ->. reflexivity.
    + intros e -> He. simpl. rewrite (falsy_zeroQ e He). reflexivity.
    + intros x -> Hx. simpl. rewrite (falsy_zeroQ x Hx). reflexivity.
  - destruct r as [t bpm key mode energy dance conf srcs].
    unfold process_result, entry_without_zeros. simpl.
    destruct t as [t | ]; [ | reflexivity ].
    destruct key as [k | ]; [ | reflexivity ].
    f_equal.
    assert (Eb : Js.orZ (null_if_zeroZ bpm) 120 = Js.orZ bpm 120).
    { unfold null_if_zeroZ.
      destruct bpm as [b | ]; simpl; [ | reflexivity ].
      destruct (Js.truthyZ b) eqn:Hb; simpl; rewrite ?Hb; reflexivity. }
    assert (Eq : forall v dflt,
               Js.orQ (null_if_zeroQ v) dflt = Js.orQ v dflt).
    { intros v dflt. unfold null_if_zeroQ.
      destruct v as [q | ]; simpl; [ | reflexivity ].
      destruct (Js.truthyQ q) eqn:Hq; simpl; rewrite ?Hq; reflexivity. }
    rewrite Eb, !Eq. reflexivity.
  - unfold combineAudioFeatures.
    rewrite merge_acousticbrainz_without_zeros, merge_beatport_without_zeros,
      merge_lastfm_without_zeros. reflexivity.
Qed.

Lemma zero_counts_as_missing_witness :
  exists f, process_result zero_entry = Some f
            /\ Analyzed.bpm f = 120%Z
            /\ Analyzed.energy f = 0.5%Q
            /\ Analyzed.danceability f = 0.5%Q.
Proof.
  destruct (zero_counts_as_missing zero_entry no_lastfm_key
              (Success sample_ab) sample_beatport zero_draws) as [H _].
  eexists. split; [ reflexivity | ].
  destruct (H _ eq_refl) as [Hb [He Hd]].
  split; [ apply Hb; reflexivity | split ].
  - apply (He 0%Q); reflexivity.
  - apply (Hd 0%Q); reflexivity.
Defined.

(** ** The batch orchestrator *)

Lemma Qgtb_lt (a b : Q) : Qgtb a b = true <-> (b < a)%Q.
Proof.
  unfold Qgtb. rewrite negb_true_iff. split.
  - intros H. apply Qnot_le_lt. intros Hle.
    apply Qle_bool_iff in Hle. congruence.
  - intros H. destruct (Qle_bool a b) eqn:E; [ | reflexivity ].
    apply Qle_bool_iff in E. exfalso. exact (Qlt_not_le _ _ H E).
Qed.

Lemma Qgtb_le (a b : Q) : Qgtb a b = false <-> (a <= b)%Q.
Proof.
  unfold Qgtb. rewrite negb_false_iff. apply Qle_bool_iff.
Qed.

Lemma accepted_length (w : World) (track : Track.t) :
  (length (accepted w track) <= 1)%nat.
Proof.
  unfold accepted. destruct (Track.artists track); simpl; [ lia | ].
  match goal with
  | |- context [if ?b then _ else _] => destruct b
  end; simpl; lia.
Qed.

(** With all three adapters failing the confidence is 0. *)
Lemma all_fail_confidence (artist0 : Artist.t) (track : Track.t) (w : World) :
  all_adapters_fail w ->
  Combined.confidence (Analysis.combined (analysis_of artist0 track w)) = 0%Q.
Proof.
  intros (Hl & Ha & Hb).
  unfold analysis_of, getAlternativeAudioFeatures. simpl.
  destruct (lastfm_settles w); [ discriminate Hl | ].
  destruct (acousticbrainz_settles w); [ discriminate Ha | ].
  destruct (beatport_throws w); [ reflexivity | contradiction ].
Qed.

Lemma all_fail_rejected (w : World) (track : Track.t) :
  all_adapters_fail w -> accepted w track = [].
Proof.
  intros H. unfold accepted.
  destruct (Track.artists track) as [ | artist0 others]; [ reflexivity | ].
  cbv zeta. rewrite (all_fail_confidence artist0 track w H). reflexivity.
Qed.

Lemma length_push {A} (a : list A) (x : A) :
  length (Js.push a x) = S (length a).
Proof. unfold Js.push. rewrite length_app. simpl. lia. Qed.

(** One iteration never throws; it reports progress once and appends what
    the track adds. *)
Lemma batch_step_ok world total i track b :
  exists b',
    batch_step world total i track b = Ok b'
    /\ results b' = (results b ++ accepted (world i) track)%list
    /\ length (progress b') = S (length (progress b))
    /\ (Track.artists track <> [] -> console b' = console b).
Proof.
  unfold batch_step, analyze_track, accepted, analysis_of, try_catch.
  destruct (Track.artists track) as [ | artist0 others]; simpl.
  - eexists. split; [ reflexivity | ]. simpl.
    rewrite app_nil_r, length_push. repeat split. congruence.
  - match goal with
    | |- context [if ?c then _ else _] => destruct c
    end; eexists; (split; [ reflexivity | ]); simpl;
      rewrite ?app_nil_r, length_push; repeat split.
Qed.

Lemma batch_loop_ok world total rest :
  forall i b,
  exists b',
    batch_loop world total i rest b = Ok b'
    /\ results b' = (results b ++ accepted_from world i rest)%list
    /\ length (progress b') = (length (progress b) + length rest)%nat.
Proof.
  induction rest as [ | track rest IH]; intros i b; simpl.
  - exists b. rewrite app_nil_r. repeat split. lia.
  - destruct (batch_step_ok world total i track b)
      as (b1 & E1 & R1 & P1 & _).
    rewrite E1. simpl.
    destruct (IH (S i) b1) as (b2 & E2 & R2 & P2).
    exists b2. split; [ exact E2 | ].
    rewrite R2, R1, P2, P1, <- app_assoc. split; [ reflexivity | lia ].
Qed.

Lemma batch_ok world tracks :
  exists b,
    batchAnalyzeAlternativeSources world tracks = Ok b
    /\ results b = accepted_from world 0 tracks
    /\ length (progress b) = length tracks.
Proof.
  unfold batchAnalyzeAlternativeSources.
  destruct (batch_loop_ok world (length tracks) tracks 0%nat
              {| results := []; progress := []; console := [] |})
    as (b & E & R & P).
  exists b. repeat split; assumption.
Qed.

Lemma accepted_from_length world rest :
  forall i, (length (accepted_from world i rest) <= length rest)%nat.
Proof.
  induction rest as [ | track rest IH]; intros i; simpl; [ lia | ].
  rewrite length_app.
  pose proof (accepted_length (world i) track). specialize (IH (S i)). lia.
Qed.

Lemma accepted_from_strict world rest :
  forall i j,
    (j < length rest)%nat ->
    all_adapters_fail (world (i + j)%nat) ->
    (length (accepted_from world i rest) < length rest)%nat.
Proof.
  induction rest as [ | track rest IH]; intros i j Hj Hfail; simpl in *;
    [ lia | ].
  rewrite length_app.
  destruct j as [ | j].
  - rewrite Nat.add_0_r in Hfail.
    rewrite (all_fail_rejected _ track Hfail). simpl.
    pose proof (accepted_from_length world rest (S i)). lia.
  - pose proof (accepted_length (world i) track).
    assert (Hlt : (j < length rest)%nat) by lia.
    replace (i + S j)%nat with (S i + j)%nat in Hfail by lia.
    specialize (IH (S i) j Hlt Hfail). lia.
Qed.

(** C6: a track whose analysis runs is added to the result list exactly
    when its merged confidence is above 0.2; otherwise the list is left as
    it was, and nothing is logged either way.  Three failing adapters give
    confidence 0, hence exclusion.  The list the batch returns is what the
    tracks add, one after the other. *)
Theorem batch_threshold
    (world : nat -> World) (tracks : list Track.t) (total i : nat)
    (track : Track.t) (artist0 : Artist.t) (others : list Artist.t)
    (b : Batch) :
  Track.artists track = artist0 :: others ->
  let analysis := analysis_of artist0 track (world i) in
  let conf := Combined.confidence (Analysis.combined analysis) in
  (exists b',
     batch_step world total i track b = Ok b'
     /\ console b' = console b
     /\ ((0.2 < conf)%Q ->
         results b' = (results b ++ [make_entry track analysis])%list)
     /\ ((conf <= 0.2)%Q -> results b' = results b)
     /\ (In (make_entry track analysis) (accepted (world i) track)
         <-> (0.2 < conf)%Q))
  /\ (all_adapters_fail (world i) ->
      conf = 0%Q /\ accepted (world i) track = [])
  /\ (exists final,
        batchAnalyzeAlternativeSources world tracks = Ok final
        /\ results final = accepted_from world 0 tracks).
Proof.
  intros Hartists analysis conf.
  assert (Hacc : accepted (world i) track =
                 if Qgtb conf 0.2 then [make_entry track analysis] else []).
  { unfold accepted. rewrite Hartists. reflexivity. }
  split; [ | split ].
  - destruct (batch_step_ok world total i track b)
      as (b' & E & R & _ & C).
    exists b'. split; [ exact E | ].
    split; [ apply C; rewrite Hartists; discriminate | ].
    rewrite R, Hacc.
    split; [ | split ].
    + intros H. apply Qgtb_lt in H. rewrite H. reflexivity.
    + intros H. apply Qgtb_le in H. rewrite H. apply app_nil_r.
    + destruct (Qgtb conf 0.2) eqn:E2.
      * apply Qgtb_lt in E2. simpl. tauto.
      * apply Qgtb_le in E2. simpl. split; [ tauto | ].
        intros H. exfalso. exact (Qlt_not_le _ _ H E2).
  - intros Hfail. split.
    + apply all_fail_confidence. exact Hfail.
    + apply all_fail_rejected. exact Hfail.
  - destruct (batch_ok world tracks) as (final & E & R & _).
    exists final. split; assumption.
Qed.

(** C8: the batch never throws, whatever the adapters do and whatever the
    tracks look like: every track is visited, and the list returned is no
    longer than the input.  When every third track's adapters all fail it
    is strictly shorter. *)
Theorem batch_never_raises (world : nat -> World) (tracks : list Track.t) :
  exists b,
    batchAnalyzeAlternativeSources world tracks = Ok b
    /\ length (progress b) = length tracks
    /\ (length (results b) <= length tracks)%nat
    /\ ((3 <= length tracks)%nat ->
        (forall i, (i < length tracks)%nat -> (i mod 3 = 2)%nat ->
                   all_adapters_fail (world i)) ->
        (length (results b) < length tracks)%nat).
Proof.
  destruct (batch_ok world tracks) as (b & E & R & P).
  exists b. split; [ exact E | split; [ exact P | ] ]. rewrite R.
  split; [ apply accepted_from_length | ].
  intros H3 Hfail.
  apply (accepted_from_strict world tracks 0%nat 2%nat); [ lia | ].
  apply Hfail; [ lia | reflexivity ].
Qed.

Lemma batch_threshold_witness :
  Track.artists (sample_track "One") = [ {| Artist.name := "Artist" |} ]
  /\ exists b',
       batch_step every_third_fails 3 0 (sample_track "One") empty_batch
       = Ok b'
       /\ length (results b') = 1%nat.
Proof.
  split; [ reflexivity | ].
  destruct (batch_threshold every_third_fails three_tracks 3 0
              (sample_track "One") {| Artist.name := "Artist" |} []
              empty_batch eq_refl)
    as [(b' & E & _ & Hin & _) _].
  exists b'. split; [ exact E | ].
  rewrite Hin; [ reflexivity | vm_compute; reflexivity ].
Defined.

Lemma batch_never_raises_witness :
  exists b,
    batchAnalyzeAlternativeSources every_third_fails three_tracks = Ok b
    /\ (length (results b) < 3)%nat.
Proof.
  destruct (batch_never_raises every_third_fails three_tracks)
    as (b & E & _ & _ & Hstrict).
  exists b. split; [ exact E | ].
  apply Hstrict; [ simpl; lia | ].
  intros i _ Hmod. unfold every_third_fails. rewrite Hmod. simpl.
  repeat split; discriminate.
Defined.

Example batch_three_tracks :
  option_map (fun b => length (results b))
    (match batchAnalyzeAlternativeSources every_third_fails three_tracks with
     | Ok b => Some b
     | Throw _ => None
     end) = Some 2%nat.
Proof. vm_compute. reflexivity. Qed.

(** ** Per-track processing *)

Lemma process_fold (l : list Entry.t) :
  forall acc,
    fold_left
      (fun analyzedTracks result =>
         match process_result result with
         | Some feature => Js.push analyzedTracks feature
         | None => analyzedTracks
         end) l acc
    = (acc ++ flat_map features_of l)%list.
Proof.
  induction l as [ | r l IH]; intros acc; simpl.
  - symmetry. apply app_nil_r.
  - rewrite IH. unfold features_of at 2.
    destruct (process_result r); simpl.
    + unfold Js.push. rewrite <- app_assoc. reflexivity.
    + reflexivity.
Qed.

Lemma processAlternativeAnalysis_flat_map (l : list Entry.t) :
  processAlternativeAnalysis l = flat_map features_of l.
Proof. unfold processAlternativeAnalysis. apply process_fold. Qed.


(** ** The harmonic grouper *)

Lemma eqb_append_prefix (k a b : string) :
  String.eqb (k ++ a) (k ++ b) = String.eqb a b.
Proof.
  induction k as [ | c k IH]; simpl; [ reflexivity | ].
  rewrite Ascii.eqb_refl. exact IH.
Qed.

Lemma group_track_first (k : string) (t : Analyzed.t) :
  Analyzed.camelotKey t = k -> group_track [] t = [(k, [t])].
Proof.
  intros <-. unfold group_track. simpl.
  repeat (rewrite String.eqb_refl; simpl). reflexivity.
Qed.

Lemma group_track_same (k : string) (g : list Analyzed.t) (t : Analyzed.t) :
  Analyzed.camelotKey t = k ->
  group_track [(k, g)] t = [(k, (g ++ [t])%list)].
Proof.
  intros <-. unfold group_track. simpl.
  repeat (rewrite String.eqb_refl; simpl). reflexivity.
Qed.

(** C9: five features of one wheel position with tempos 90, 95, 105, 110
    and 135 give exactly two playlists: the slow band with the tracks at 90
    and 95, in that order, and the medium band with the tracks at 105 and
    110.  The fast band, with the single track at 135, is dropped. *)
Theorem five_tracks_two_playlists
    (k : string) (f1 f2 f3 f4 f5 : Analyzed.t) :
  k <> "Unknown" ->
  Analyzed.camelotKey f1 = k -> Analyzed.camelotKey f2 = k ->
  Analyzed.camelotKey f3 = k -> Analyzed.camelotKey f4 = k ->
  Analyzed.camelotKey f5 = k ->
  Analyzed.bpm f1 = 90%Z -> Analyzed.bpm f2 = 95%Z ->
  Analyzed.bpm f3 = 105%Z -> Analyzed.bpm f4 = 110%Z ->
  Analyzed.bpm f5 = 135%Z ->
  exists slow medium,
    createDJPlaylists [f1; f2; f3; f4; f5]
    = [ (k ++ "-slow", slow); (k ++ "-medium", medium) ]
    /\ Playlist.tracks slow = [f1; f2]
    /\ Playlist.bpmRange slow = "slow"
    /\ Playlist.camelotKey slow = k
    /\ Playlist.tracks medium = [f3; f4]
    /\ Playlist.bpmRange medium = "medium"
    /\ Playlist.camelotKey medium = k.
Proof.
  intros Hk K1 K2 K3 K4 K5 B1 B2 B3 B4 B5.
  assert (G : group_by_key [f1; f2; f3; f4; f5]
              = [(k, [f1; f2; f3; f4; f5])]).
  { unfold group_by_key. cbn [fold_left].
    rewrite (group_track_first k f1 K1).
    rewrite !group_track_same by assumption. reflexivity. }
  assert (S5 : sort_by_bpm [f1; f2; f3; f4; f5] = [f1; f2; f3; f4; f5]).
  { unfold sort_by_bpm.
    repeat (cbn [fold_right insert_by_bpm];
            rewrite ?B1, ?B2, ?B3, ?B4, ?B5;
            cbn [Z.leb Z.compare Pos.compare Pos.compare_cont]).
    reflexivity. }
  assert (Fs : filter (fun t => (Analyzed.bpm t <? 100)%Z)
                 [f1; f2; f3; f4; f5] = [f1; f2]).
  { cbn [filter]. rewrite B1, B2, B3, B4, B5. reflexivity. }
  assert (Fm : filter (fun t => (100 <=? Analyzed.bpm t)%Z
                                && (Analyzed.bpm t <? 130)%Z)
                 [f1; f2; f3; f4; f5] = [f3; f4]).
  { cbn [filter]. rewrite B1, B2, B3, B4, B5. reflexivity. }
  assert (Ff : filter (fun t => (130 <=? Analyzed.bpm t)%Z)
                 [f1; f2; f3; f4; f5] = [f5]).
  { cbn [filter]. rewrite B1, B2, B3, B4, B5. reflexivity. }
  assert (S2 : forall a b, (Analyzed.bpm a <= Analyzed.bpm b)%Z ->
                           sort_by_bpm [a; b] = [a; b]).
  { intros a b Hab. unfold sort_by_bpm. cbn [fold_right insert_by_bpm].
    destruct (Z.leb_spec (Analyzed.bpm a) (Analyzed.bpm b));
      [ reflexivity | lia ]. }
  apply String.eqb_neq in Hk.
  unfold createDJPlaylists. rewrite G.
  cbn [fold_left emit_partition length Nat.leb andb negb].
  rewrite Hk. cbn [negb]. rewrite S5.
  unfold bpmRanges. rewrite Fs, Fm, Ff.
  cbn [fold_left]. unfold emit_band.
  cbn [length Nat.leb map last Js.set].
  rewrite eqb_append_prefix. cbn [String.eqb Ascii.eqb Bool.eqb andb].
  rewrite !S2 by lia.
  do 2 eexists. split; [ reflexivity | ].
  cbn [Playlist.tracks Playlist.bpmRange Playlist.camelotKey].
  repeat split.
Qed.

Lemma five_tracks_two_playlists_witness :
  exists slow medium,
    createDJPlaylists
      [ sample_feature "a" "8A" 90; sample_feature "b" "8A" 95;
        sample_feature "c" "8A" 105; sample_feature "d" "8A" 110;
        sample_feature "e" "8A" 135 ]
    = [ ("8A-slow", slow); ("8A-medium", medium) ]
    /\ map Analyzed.bpm (Playlist.tracks slow) = [90; 95]%Z
    /\ map Analyzed.bpm (Playlist.tracks medium) = [105; 110]%Z.
Proof.
  destruct (five_tracks_two_playlists "8A"
              (sample_feature "a" "8A" 90) (sample_feature "b" "8A" 95)
              (sample_feature "c" "8A" 105) (sample_feature "d" "8A" 110)
              (sample_feature "e" "8A" 135))
    as (slow & medium & E & Ts & _ & _ & Tm & _);
    try reflexivity; [ discriminate | ].
  exists slow, medium. split; [ exact E | ].
  rewrite Ts, Tm. split; reflexivity.
Defined.

Example five_tracks_description :
  map (fun kp => Playlist.description (snd kp))
    (createDJPlaylists
       [ sample_feature "a" "8A" 90; sample_feature "b" "8A" 95;
         sample_feature "c" "8A" 105; sample_feature "d" "8A" 110;
         sample_feature "e" "8A" 135 ])
  = [ "DJ Mix Ready • Key: 8A (A Minor) • BPM: 90-95 • 2 tracks";
      "DJ Mix Ready • Key: 8A (A Minor) • BPM: 105-110 • 2 tracks" ].
Proof. vm_compute. reflexivity. Qed.

(** *** Dictionaries *)

Section Dictionary.

Context {V : Type}.
Implicit Types (o : Js.Obj V) (k : string) (v : V).

Lemma get_set o k v k' :
  Js.get (Js.set o k v) k' = if String.eqb k k' then Some v else Js.get o k'.
Proof.
  induction o as [ | [k0 v0] o IH]; simpl.
  - reflexivity.
  - destruct (String.eqb_spec k0 k) as [-> | Hne]; simpl.
    + destruct (String.eqb k k'); reflexivity.
    + rewrite IH. destruct (String.eqb_spec k0 k') as [-> | Hne'].
      * destruct (String.eqb_spec k k'); [ congruence | reflexivity ].
      * reflexivity.
Qed.

Lemma set_In o k v k' v' :
  In (k', v') (Js.set o k v) -> v' = v \/ In (k', v') o.
Proof.
  induction o as [ | [k0 v0] o IH]; simpl.
  - intros [E | []]. injection E as _ <-. left. reflexivity.
  - destruct (String.eqb k0 k); simpl.
    + intros [E | H]; [ injection E as _ <-; left; reflexivity | tauto ].
    + intros [E | H]; [ tauto | ]. destruct (IH H); tauto.
Qed.

Lemma set_keys o k v :
  map fst (Js.set o k v) =
  if in_dec string_dec k (map fst o) then map fst o
  else (map fst o ++ [k])%list.
Proof.
  induction o as [ | [k0 v0] o IH]; simpl; [ reflexivity | ].
  destruct (String.eqb_spec k0 k) as [-> | Hne]; simpl.
  - destruct (string_dec k k); [ reflexivity | congruence ].
  - rewrite IH. destruct (string_dec k0 k); [ congruence | ].
    destruct (in_dec string_dec k (map fst o)); reflexivity.
Qed.

Lemma set_NoDup o k v :
  NoDup (map fst o) -> NoDup (map fst (Js.set o k v)).
Proof.
  intros H. rewrite set_keys.
  destruct (in_dec string_dec k (map fst o)) as [Hin | Hout];
    [ exact H | ].
  apply NoDup_app; [ exact H | constructor; [ tauto | constructor ] | ].
  intros x Hx [<- | []]. exact (Hout Hx).
Qed.

Lemma NoDup_get o k v :
  NoDup (map fst o) -> In (k, v) o -> Js.get o k = Some v.
Proof.
  induction o as [ | [k0 v0] o IH]; simpl; intros Hnd Hin; [ tauto | ].
  inversion Hnd as [ | ? ? Hnotin Hnd']; subst.
  destruct Hin as [E | Hin].
  - injection E as -> ->. rewrite String.eqb_refl. reflexivity.
  - destruct (String.eqb_spec k0 k) as [-> | Hne].
    + exfalso. apply Hnotin. apply (in_map fst) in Hin. exact Hin.
    + apply IH; assumption.
Qed.

End Dictionary.

(** *** Grouping by key *)

Lemma filter_snoc {A} (f : A -> bool) (l : list A) (x : A) :
  filter f (l ++ [x]) = (filter f l ++ if f x then [x] else [])%list.
Proof. rewrite filter_app. simpl. destruct (f x); reflexivity. Qed.

Lemma group_entry_snoc (g : list Analyzed.t) (t : Analyzed.t) :
  group_entry (g ++ [t]) = Some (g ++ [t])%list.
Proof. destruct g; reflexivity. Qed.

Lemma group_entry_Some (g g' : list Analyzed.t) :
  group_entry g = Some g' -> g = g'.
Proof. destruct g; simpl; congruence. Qed.

Lemma group_entry_None (g : list Analyzed.t) :
  group_entry g = None -> g = [].
Proof. destruct g; simpl; congruence. Qed.

Lemma group_track_get G done t :
  (forall k, Js.get G k = group_entry (filter (in_partition k) done)) ->
  forall k,
    Js.get (group_track G t) k
    = group_entry (filter (in_partition k) (done ++ [t])).
Proof.
  intros H k. unfold group_track.
  set (kt := Analyzed.camelotKey t).
  rewrite filter_snoc. unfold in_partition at 2. fold kt.
  destruct (Js.get G kt) as [g | ] eqn:E.
  - rewrite E, get_set.
    destruct (String.eqb_spec kt k) as [<- | Hne].
    + rewrite H in E. apply group_entry_Some in E. rewrite E.
      symmetry. apply group_entry_snoc.
    + rewrite app_nil_r. apply H.
  - rewrite get_set, String.eqb_refl, !get_set.
    destruct (String.eqb_spec kt k) as [<- | Hne].
    + rewrite H in E. apply group_entry_None in E. rewrite E. reflexivity.
    + rewrite app_nil_r. apply H.
Qed.

Lemma group_track_NoDup G t :
  NoDup (map fst G) -> NoDup (map fst (group_track G t)).
Proof.
  intros H. unfold group_track.
  destruct (Js.get G (Analyzed.camelotKey t)) as [g | ] eqn:E.
  - rewrite E. apply set_NoDup. exact H.
  - rewrite get_set, String.eqb_refl. apply set_NoDup, set_NoDup. exact H.
Qed.

Lemma group_fold l :
  forall G done,
    NoDup (map fst G) ->
    (forall k, Js.get G k = group_entry (filter (in_partition k) done)) ->
    NoDup (map fst (fold_left group_track l G))
    /\ (forall k, Js.get (fold_left group_track l G) k
                  = group_entry (filter (in_partition k) (done ++ l))).
Proof.
  induction l as [ | t l IH]; intros G done Hnd H; simpl.
  - rewrite app_nil_r. split; assumption.
  - destruct (IH (group_track G t) (done ++ [t])%list) as [Hnd' H'].
    + apply group_track_NoDup. exact Hnd.
    + apply group_track_get. exact H.
    + split; [ exact Hnd' | ]. intros k. rewrite H', <- app_assoc.
      reflexivity.
Qed.

(** Every group is the partition of its key, in input order. *)
Lemma group_by_key_partition (analyzedTracks : list Analyzed.t) k g :
  In (k, g) (group_by_key analyzedTracks) ->
  g = filter (in_partition k) analyzedTracks.
Proof.
  intros Hin. unfold group_by_key in *.
  destruct (group_fold analyzedTracks [] [] (NoDup_nil _)
              (fun _ => eq_refl)) as [Hnd H].
  apply (NoDup_get _ _ _ Hnd) in Hin. rewrite H in Hin. simpl in Hin.
  apply group_entry_Some in Hin. symmetry. exact Hin.
Qed.

(** *** Sorting *)

Lemma insert_by_bpm_In x l t :
  In t (insert_by_bpm x l) <-> t = x \/ In t l.
Proof.
  induction l as [ | y l IH]; simpl.
  - intuition congruence.
  - destruct (Analyzed.bpm x <=? Analyzed.bpm y)%Z; simpl.
    + intuition congruence.
    + rewrite IH. intuition congruence.
Qed.

Lemma insert_by_bpm_length x l :
  length (insert_by_bpm x l) = S (length l).
Proof.
  induction l as [ | y l IH]; simpl; [ reflexivity | ].
  destruct (Analyzed.bpm x <=? Analyzed.bpm y)%Z; simpl; congruence.
Qed.

Lemma sort_by_bpm_In l t : In t (sort_by_bpm l) <-> In t l.
Proof.
  induction l as [ | x l IH]; simpl; [ tauto | ].
  rewrite insert_by_bpm_In, IH. intuition congruence.
Qed.

Lemma sort_by_bpm_length l : length (sort_by_bpm l) = length l.
Proof.
  induction l as [ | x l IH]; simpl; [ reflexivity | ].
  rewrite insert_by_bpm_length. congruence.
Qed.

(** *** Emitting playlists *)

Section Emit.

Variable analyzedTracks : list Analyzed.t.

Lemma emit_band_emitted k playlists band :
  all_emitted_from analyzedTracks playlists ->
  k <> "Unknown" ->
  (3 <= partition_size analyzedTracks k)%nat ->
  (forall t, In t (snd band) ->
             In t analyzedTracks /\ Analyzed.camelotKey t = k) ->
  all_emitted_from analyzedTracks (emit_band k playlists band).
Proof.
  intros Hall Hk Hsize Hband. destruct band as [speed speedTracks].
  unfold emit_band.
  destruct (2 <=? length speedTracks)%nat eqn:Hlen; [ | exact Hall ].
  destruct speedTracks as [ | first rest]; [ exact Hall | ].
  destruct (last (map Some (first :: rest)) None) as [final | ];
    [ | exact Hall ].
  intros pk p Hin. apply set_In in Hin. destruct Hin as [-> | Hin];
    [ | exact (Hall pk p Hin) ].
  unfold emitted_from. cbn [Playlist.tracks Playlist.camelotKey].
  rewrite sort_by_bpm_length. apply Nat.leb_le in Hlen.
  repeat split; try assumption.
  apply Forall_forall. intros t Ht. rewrite sort_by_bpm_In in Ht.
  apply Hband. exact Ht.
Qed.

Lemma emit_bands_emitted k bands :
  forall playlists,
    all_emitted_from analyzedTracks playlists ->
    k <> "Unknown" ->
    (3 <= partition_size analyzedTracks k)%nat ->
    (forall band t, In band bands -> In t (snd band) ->
                    In t analyzedTracks /\ Analyzed.camelotKey t = k) ->
    all_emitted_from analyzedTracks
      (fold_left (emit_band k) bands playlists).
Proof.
  induction bands as [ | band bands IH]; intros playlists Hall Hk Hs Hb;
    simpl; [ exact Hall | ].
  apply IH; try assumption.
  - apply emit_band_emitted; try assumption.
    intros t Ht. apply (Hb band t); [ left; reflexivity | exact Ht ].
  - intros band' t Hin Ht. apply (Hb band' t); [ right | ]; assumption.
Qed.

Lemma emit_partition_emitted playlists k g :
  all_emitted_from analyzedTracks playlists ->
  g = filter (in_partition k) analyzedTracks ->
  all_emitted_from analyzedTracks (emit_partition playlists (k, g)).
Proof.
  intros Hall Hg. unfold emit_partition.
  destruct (3 <=? length g)%nat eqn:Hlen; [ | exact Hall ].
  destruct (String.eqb_spec k "Unknown") as [-> | Hk]; [ exact Hall | ].
  cbn [andb negb]. apply Nat.leb_le in Hlen.
  apply emit_bands_emitted; try assumption.
  - unfold partition_size. rewrite <- Hg. exact Hlen.
  - intros band t Hband Ht.
    assert (Hsorted : In t (sort_by_bpm g)).
    { unfold bpmRanges in Hband. simpl in Hband.
      destruct Hband as [<- | [<- | [<- | []]]]; simpl in Ht;
        apply filter_In in Ht; tauto. }
    rewrite sort_by_bpm_In in Hsorted. rewrite Hg in Hsorted.
    apply filter_In in Hsorted. destruct Hsorted as [Hin Hpart].
    split; [ exact Hin | ]. apply String.eqb_eq. exact Hpart.
Qed.

Lemma emit_partitions_emitted keyGroups :
  forall playlists,
    all_emitted_from analyzedTracks playlists ->
    (forall k g, In (k, g) keyGroups ->
                 g = filter (in_partition k) analyzedTracks) ->
    all_emitted_from analyzedTracks
      (fold_left emit_partition keyGroups playlists).
Proof.
  induction keyGroups as [ | [k g] keyGroups IH]; intros playlists Hall Hg;
    simpl; [ exact Hall | ].
  apply IH.
  - apply emit_partition_emitted; [ exact Hall | ].
    apply Hg. left. reflexivity.
  - intros k' g' Hin. apply Hg. right. exact Hin.
Qed.

(** Every playlist of the result was emitted from a partition of three
    or more tracks that is not "Unknown", and holds two or more of its
    tracks. *)
Lemma createDJPlaylists_emitted :
  all_emitted_from analyzedTracks (createDJPlaylists analyzedTracks).
Proof.
  unfold createDJPlaylists. apply emit_partitions_emitted.
  - intros pk p [].
  - apply group_by_key_partition.
Qed.

End Emit.

(** C7: every playlist the grouper emits holds at least 2 tracks and
    belongs to a partition that is not "Unknown" and held at least 3 tracks
    before the split into tempo bands.  A partition of exactly 2 tracks
    yields no playlist. *)
Theorem playlists_need_three
    (analyzedTracks : list Analyzed.t) (pk : string) (p : Playlist.t) :
  In (pk, p) (createDJPlaylists analyzedTracks) ->
  (2 <= length (Playlist.tracks p))%nat
  /\ Playlist.camelotKey p <> "Unknown"
  /\ (3 <= partition_size analyzedTracks (Playlist.camelotKey p))%nat
  /\ Forall (fun t => Analyzed.camelotKey t = Playlist.camelotKey p)
       (Playlist.tracks p)
  /\ (forall k, partition_size analyzedTracks k = 2%nat ->
                Playlist.camelotKey p <> k).
Proof.
  intros Hin.
  destruct (createDJPlaylists_emitted analyzedTracks pk p Hin)
    as (H2 & Hk & H3 & Ht).
  repeat split; try assumption.
  - apply Forall_forall. intros t Hin'.
    rewrite Forall_forall in Ht. apply (Ht t Hin').
  - intros k Hsize E. rewrite E, Hsize in H3. lia.
Qed.

Lemma playlists_need_three_witness :
  (2 <= 2)%nat
  /\ "8A" <> "Unknown"
  /\ (3 <= partition_size
             [ sample_feature "a" "8A" 90; sample_feature "b" "8A" 95;
               sample_feature "c" "8A" 105 ] "8A")%nat.
Proof.
  destruct (playlists_need_three
              [ sample_feature "a" "8A" 90; sample_feature "b" "8A" 95;
                sample_feature "c" "8A" 105 ]
              "8A-slow"
              {| Playlist.name := "🎛️ 8A SLOW (A Minor)";
                 Playlist.description :=
                   "DJ Mix Ready • Key: 8A (A Minor) • BPM: 90-95 • 2 tracks";
                 Playlist.tracks :=
                   [ sample_feature "a" "8A" 90; sample_feature "b" "8A" 95 ];
                 Playlist.camelotKey := "8A";
                 Playlist.bpmRange := "slow" |})
    as (H2 & Hk & H3 & _).
  - vm_compute. left. reflexivity.
  - repeat split; assumption.
Defined.

Example two_tracks_no_playlist :
  createDJPlaylists
    [ sample_feature "a" "8A" 120; sample_feature "b" "8A" 122 ] = [].
Proof. vm_compute. reflexivity. Qed.

(** ** Results without a key *)

Lemma getZ_outside {V} (table : list (Z * V)) (k : Z) :
  ~ In k (map fst table) -> Js.getZ table k = None.
Proof.
  induction table as [ | [k' v] table IH]; simpl; intros H;
    [ reflexivity | ].
  destruct (Z.eqb_spec k' k) as [E | E]; [ tauto | apply IH; tauto ].
Qed.

Lemma getCamelotKey_tables (k : Z) (m : option Z) :
  getCamelotKey k m = or_unknown (Js.getZ CAMELOT_WHEEL k)
  \/ getCamelotKey k m = or_unknown (Js.getZ CAMELOT_WHEEL_MINOR k).
Proof.
  unfold getCamelotKey.
  destruct m as [[ | [p | p | ] | p] | ]; auto.
Qed.

(** The wheel position is "Unknown" exactly for a key outside 0..11. *)
Lemma getCamelotKey_unknown (k : Z) (m : option Z) :
  getCamelotKey k m = "Unknown" <-> ~ (0 <= k < 12)%Z.
Proof.
  split.
  - intros H Hk. apply pitch_cases in Hk.
    destruct (getCamelotKey_tables k m) as [E | E]; rewrite E in H;
      each_member Hk; vm_compute in H; discriminate H.
  - intros Hk.
    assert (Hout : ~ In k [0; 1; 2; 3; 4; 5; 6; 7; 8; 9; 10; 11]%Z)
      by (simpl; lia).
    destruct (getCamelotKey_tables k m) as [E | E]; rewrite E;
      rewrite getZ_outside; try reflexivity; exact Hout.
Qed.

Lemma process_result_camelotKey (r : Entry.t) (f : Analyzed.t) :
  process_result r = Some f ->
  Analyzed.camelotKey f = getCamelotKey (Analyzed.key f) (Analyzed.mode f)
  /\ Entry.key r = Some (Analyzed.key f).
Proof.
  unfold process_result.
  destruct (Entry.track r); [ | discriminate ].
  destruct (Entry.key r); [ | discriminate ].
  intros H. injection H as <-. simpl. split; reflexivity.
Qed.

(** C3 (as amended): an analysis result without a key yields no feature
    record: the track is dropped before a record is built, and the list of
    features is the one obtained without that result.  Every feature that
    is built carries the key of its result, and its wheel position is
    "Unknown" exactly when that key is outside 0..11; the grouper puts no
    feature with that wheel position in a playlist. *)
Theorem keyless_result_dropped
    (before after : list Entry.t) (r : Entry.t) :
  Entry.key r = None ->
  process_result r = None
  /\ processAlternativeAnalysis (before ++ r :: after)
     = processAlternativeAnalysis (before ++ after)
  /\ (forall f,
        In f (processAlternativeAnalysis (before ++ r :: after)) ->
        (exists r', In r' (before ++ after)
                    /\ Entry.key r' = Some (Analyzed.key f))
        /\ (Analyzed.camelotKey f = "Unknown"
            <-> ~ (0 <= Analyzed.key f < 12)%Z))
  /\ (forall analyzedTracks pk p t,
        In (pk, p) (createDJPlaylists analyzedTracks) ->
        In t (Playlist.tracks p) ->
        Analyzed.camelotKey t <> "Unknown").
Proof.
  intros Hkey.
  assert (Hnone : process_result r = None).
  { unfold process_result. rewrite Hkey.
    destruct (Entry.track r); reflexivity. }
  assert (Hsame : processAlternativeAnalysis (before ++ r :: after)
                  = processAlternativeAnalysis (before ++ after)).
  { rewrite !processAlternativeAnalysis_flat_map, !flat_map_app. simpl.
    unfold features_of at 2. rewrite Hnone. reflexivity. }
  split; [ exact Hnone | split; [ exact Hsame | split ] ].
  - intros f Hf. rewrite Hsame, processAlternativeAnalysis_flat_map in Hf.
    apply in_flat_map in Hf. destruct Hf as (r' & Hr' & Hf).
    unfold features_of in Hf.
    destruct (process_result r') as [f' | ] eqn:E; [ | contradiction ].
    destruct Hf as [-> | []].
    destruct (process_result_camelotKey r' f E) as [Hck Hk].
    split.
    + exists r'. split; assumption.
    + rewrite Hck. apply getCamelotKey_unknown.
  - intros analyzedTracks pk p t Hp Ht.
    destruct (createDJPlaylists_emitted analyzedTracks pk p Hp)
      as (_ & Hk & _ & Hall).
    rewrite Forall_forall in Hall. destruct (Hall t Ht) as [_ E].
    rewrite E. exact Hk.
Qed.

Lemma keyless_result_dropped_witness :
  Entry.key keyless_entry = None
  /\ processAlternativeAnalysis ([zero_entry] ++ keyless_entry :: [zero_entry])
     = processAlternativeAnalysis ([zero_entry] ++ [zero_entry]).
Proof.
  split; [ reflexivity | ].
  apply (keyless_result_dropped [zero_entry] [zero_entry] keyless_entry).
  reflexivity.
Defined.

(** C3 (as stated) fails: a result without a key yields no feature at all,
    so none whose wheel position is "Unknown". *)
Lemma keyless_result_no_unknown_feature :
  Entry.key keyless_entry = None
  /\ processAlternativeAnalysis [keyless_entry] = []
  /\ ~ (exists f, In f (processAlternativeAnalysis [keyless_entry])
                  /\ Analyzed.camelotKey f = "Unknown").
Proof.
  split; [ reflexivity | split; [ reflexivity | ] ].
  intros (f & Hf & _). exact Hf.
Qed.

(** * Further properties *)

(** ** The key circle, continued *)

Ltac distinct_entries :=
  repeat (constructor;
          [ simpl; intros Hdup;
            repeat (destruct Hdup as [Hdup | Hdup]; [ discriminate Hdup | ]);
            exact Hdup
          | ]);
  constructor.

(** X1: the 8 entries built for a wheel position are pairwise distinct. *)
Theorem compatibility_distinct (n : Z) (letter : string) :
  (1 <= n <= 12)%Z -> is_letter letter ->
  NoDup (getHarmonicCompatibility (camelot n letter)).
Proof.
  intros Hn Hl.
  rewrite (compat_on_wheel n letter (slot_cases n Hn) (letter_cases letter Hl)).
  apply slot_cases in Hn. apply letter_cases in Hl.
  each_member Hn; each_member Hl; vm_compute; distinct_entries.
Qed.

Lemma compatibility_distinct_witness :
  NoDup (getHarmonicCompatibility (camelot 12 "A")).
Proof.
  apply (compatibility_distinct 12 "A"); [ lia | left; reflexivity ].
Defined.

Lemma compatible_with_In (p q : string) :
  compatible_with p q = true <-> In q (getHarmonicCompatibility p).
Proof.
  unfold compatible_with. rewrite existsb_exists. split.
  - intros (x & Hx & E). apply String.eqb_eq in E. subst x. exact Hx.
  - intros H. exists q. split; [ exact H | apply String.eqb_refl ].
Qed.

Lemma compatibility_symmetric_check :
  forallb
    (fun p =>
       forallb (fun q => compatible_with q p)
         (getHarmonicCompatibility p))
    WHEEL_POSITIONS = true.
Proof. vm_compute. reflexivity. Qed.

(** X2: on the wheel, compatibility is symmetric: a position listed for
    [p] lists [p] in turn. *)
Theorem compatibility_symmetric (p q : string) :
  In p WHEEL_POSITIONS ->
  In q (getHarmonicCompatibility p) ->
  In p (getHarmonicCompatibility q).
Proof.
  intros Hp Hq.
  pose proof compatibility_symmetric_check as H.
  rewrite forallb_forall in H. specialize (H p Hp).
  rewrite forallb_forall in H. specialize (H q Hq).
  apply compatible_with_In. exact H.
Qed.

Lemma compatibility_symmetric_witness :
  In "12A" (getHarmonicCompatibility "7A").
Proof.
  apply (compatibility_symmetric "12A" "7A").
  - vm_compute. tauto.
  - vm_compute. tauto.
Defined.

(** X3: the list is empty exactly for the empty key and for "Unknown";
    for any other string, well formed or not, it has 8 entries and starts
    with the key itself.  When the key has no leading number, the seven
    derived entries are "NaN" followed by a letter. *)
Theorem compatibility_of_any_key (key : string) :
  (getHarmonicCompatibility key = [] <-> key = "" \/ key = "Unknown")
  /\ (key <> "" -> key <> "Unknown" ->
      length (getHarmonicCompatibility key) = 8%nat
      /\ entry_at 0 (getHarmonicCompatibility key) = key
      /\ (Js.parseInt key = None ->
          let letter := Js.slice_last key in
          getHarmonicCompatibility key =
          [ key; "NaN" ++ letter; "NaN" ++ letter;
            "NaN" ++ opposite letter;
            "NaN" ++ letter; "NaN" ++ letter;
            "NaN" ++ opposite letter; "NaN" ++ opposite letter ])).
Proof.
  unfold getHarmonicCompatibility.
  destruct (String.eqb_spec key "") as [-> | Hne]; simpl.
  - split; [ tauto | intros H; contradiction ].
  - destruct (String.eqb_spec key "Unknown") as [-> | Hnu]; simpl.
    + split; [ tauto | intros _ H; contradiction ].
    + split.
      * split; [ discriminate | tauto ].
      * intros _ _. repeat split. intros ->. reflexivity.
Qed.

Lemma compatibility_of_any_key_witness :
  length (getHarmonicCompatibility "Z") = 8%nat
  /\ getHarmonicCompatibility "Z" =
     ["Z"; "NaNZ"; "NaNZ"; "NaNA"; "NaNZ"; "NaNZ"; "NaNA"; "NaNA"].
Proof.
  destruct (compatibility_of_any_key "Z") as [_ H].
  destruct H as (Hlen & _ & Hnan); [ discriminate | discriminate | ].
  split; [ exact Hlen | ]. apply Hnan. reflexivity.
Defined.

Ltac each_mode m :=
  destruct m as [[ | [? | ? | ] | ? ] | ].

(** X4: a perfect fifth up (7 semitones) is one slot clockwise, a fifth
    down (5 semitones up) one slot back: for a pitch class and any mode,
    the second and third entries of the compatibility list are the wheel
    positions of the keys a fifth above and below, in the same mode. *)
Theorem fifth_is_adjacent_slot (k : Z) (mode : option Z) :
  (0 <= k < 12)%Z ->
  let entries := getHarmonicCompatibility (getCamelotKey k mode) in
  entry_at 1 entries = getCamelotKey ((k + 7) mod 12) mode
  /\ entry_at 2 entries = getCamelotKey ((k + 5) mod 12) mode.
Proof.
  intros Hk. apply pitch_cases in Hk.
  each_mode mode; each_member Hk; vm_compute; split; reflexivity.
Qed.

Lemma fifth_is_adjacent_slot_witness :
  entry_at 1 (getHarmonicCompatibility (getCamelotKey 5 None))
  = getCamelotKey 0 None.
Proof.
  apply (fifth_is_adjacent_slot 5 None). lia.
Defined.

(** X5: the tables pair each major key with the minor key a semitone
    below it: the fourth entry of the list (same slot, other letter) of a
    major key is the position of the minor key one pitch class down, and
    that of a minor key is the major key one pitch class up. *)
Theorem twin_is_a_semitone_apart (k : Z) :
  (0 <= k < 12)%Z ->
  entry_at 3 (getHarmonicCompatibility (getCamelotKey k (Some 1%Z)))
  = getCamelotKey ((k + 11) mod 12) (Some 0%Z)
  /\ entry_at 3 (getHarmonicCompatibility (getCamelotKey k (Some 0%Z)))
     = getCamelotKey ((k + 1) mod 12) (Some 1%Z).
Proof.
  intros Hk. apply pitch_cases in Hk.
  each_member Hk; vm_compute; split; reflexivity.
Qed.

Lemma twin_is_a_semitone_apart_witness :
  entry_at 3 (getHarmonicCompatibility (getCamelotKey 0 (Some 1%Z)))
  = getCamelotKey 11 (Some 0%Z).
Proof.
  apply (twin_is_a_semitone_apart 0). lia.
Defined.

(** X6: only the mode 1 selects the major table: for any other mode,
    [null] included, a pitch class gets the position of its minor key
    (letter A); with mode 1 the letter is B. *)
Theorem mode_other_than_one_is_minor (k : Z) (mode : option Z) :
  (0 <= k < 12)%Z ->
  (mode <> Some 1%Z ->
   getCamelotKey k mode = getCamelotKey k (Some 0%Z)
   /\ Js.slice_last (getCamelotKey k mode) = "A")
  /\ Js.slice_last (getCamelotKey k (Some 1%Z)) = "B".
Proof.
  intros Hk. apply pitch_cases in Hk. split.
  - intros Hmode.
    assert (E : getCamelotKey k mode = getCamelotKey k (Some 0%Z)).
    { each_mode mode; try reflexivity. contradiction Hmode. reflexivity. }
    rewrite E. split; [ reflexivity | ].
    each_member Hk; reflexivity.
  - each_member Hk; reflexivity.
Qed.

Lemma mode_other_than_one_is_minor_witness :
  getCamelotKey 9 None = getCamelotKey 9 (Some 0%Z)
  /\ Js.slice_last (getCamelotKey 9 None) = "A".
Proof.
  destruct (mode_other_than_one_is_minor 9 None) as [H _]; [ lia | ].
  apply H. discriminate.
Defined.

(** ** Strings *)

Lemma prefix_app (sub s : string) :
  String.prefix sub s = true <-> exists post, s = sub ++ post.
Proof.
  revert s. induction sub as [ | c sub IH]; intros s.
  - split; [ intros _; exists s; reflexivity | ].
    intros _. destruct s; reflexivity.
  - destruct s as [ | c' s]; simpl.
    + split; [ discriminate | intros (post & E); discriminate E ].
    + destruct (Ascii.ascii_dec c c') as [-> | Hne].
      * rewrite IH. split.
        -- intros (post & ->). exists post. reflexivity.
        -- intros (post & E). injection E as ->. exists post. reflexivity.
      * split; [ discriminate | ].
        intros (post & E). injection E as E1 _. congruence.
Qed.

(** [includes] is the substring test. *)
Lemma includes_substring (s sub : string) :
  includes s sub = true <-> exists pre post, s = pre ++ sub ++ post.
Proof.
  induction s as [ | c s IH]; cbn [includes].
  - rewrite orb_false_r, prefix_app. split.
    + intros (post & E). exists "", post. exact E.
    + intros (pre & post & E). destruct pre; simpl in E.
      * exists post. exact E.
      * discriminate E.
  - rewrite orb_true_iff, prefix_app, IH. split.
    + intros [(post & E) | (pre & post & E)].
      * exists "", post. exact E.
      * exists (String c pre), post. simpl. rewrite E. reflexivity.
    + intros (pre & post & E). destruct pre as [ | c' pre]; simpl in E.
      * left. exists post. exact E.
      * right. injection E as _ E. exists pre, post. exact E.
Qed.

Lemma lower_upper_char (c : ascii) : lower_char (upper_char c) = lower_char c.
Proof.
  destruct c as [[ | ] [ | ] [ | ] [ | ] [ | ] [ | ] [ | ] [ | ]];
    reflexivity.
Qed.

Lemma lower_upper (s : string) : toLowerCase (toUpperCase s) = toLowerCase s.
Proof.
  induction s as [ | c s IH]; simpl; [ reflexivity | ].
  rewrite lower_upper_char, IH. reflexivity.
Qed.

(** ** The Last.fm energy estimate *)

Lemma some_counted {A} (f : A -> bool) (l : list A) :
  (0 <? length (filter f l))%nat = existsb f l.
Proof.
  induction l as [ | x l IH]; simpl; [ reflexivity | ].
  destruct (f x); simpl; [ reflexivity | exact IH ].
Qed.

Lemma estimateEnergyFromTags_cases (tags : list Tag.t) :
  estimateEnergyFromTags tags =
  if existsb (matches_any highEnergyTags) (map tag_name tags) then 0.8%Q
  else if existsb (matches_any mediumEnergyTags) (map tag_name tags)
       then 0.6%Q
  else if existsb (matches_any lowEnergyTags) (map tag_name tags) then 0.3%Q
  else 0.5%Q.
Proof.
  unfold estimateEnergyFromTags. cbv zeta. rewrite !some_counted.
  reflexivity.
Qed.

Lemma tagged_existsb (energyTags : list string) (tags : list Tag.t) :
  existsb (matches_any energyTags) (map tag_name tags) = true
  <-> tagged energyTags tags.
Proof.
  rewrite existsb_exists. unfold tagged. split.
  - intros (n & Hin & Hm). apply in_map_iff in Hin.
    destruct Hin as (tag & <- & Hin). exists tag. split; assumption.
  - intros (tag & Hin & Hm). exists (tag_name tag).
    split; [ apply in_map; exact Hin | exact Hm ].
Qed.

Lemma not_tagged_existsb (energyTags : list string) (tags : list Tag.t) :
  ~ tagged energyTags tags ->
  existsb (matches_any energyTags) (map tag_name tags) = false.
Proof.
  intros H.
  destruct (existsb (matches_any energyTags) (map tag_name tags)) eqn:E;
    [ | reflexivity ].
  apply tagged_existsb in E. contradiction.
Qed.

(** X7: the estimate is decided by precedence, not by counts: 0.8 as soon
    as one tag name contains a high-energy keyword, else 0.6 for a
    medium-energy keyword, else 0.3 for a low-energy one, else 0.5 (so 0.5
    for no tags at all).  It is never 0, so the reconciler never sees it
    as missing. *)
Theorem energy_estimate_precedence (tags : list Tag.t) :
  (tagged highEnergyTags tags -> estimateEnergyFromTags tags = 0.8%Q)
  /\ (~ tagged highEnergyTags tags -> tagged mediumEnergyTags tags ->
      estimateEnergyFromTags tags = 0.6%Q)
  /\ (~ tagged highEnergyTags tags -> ~ tagged mediumEnergyTags tags ->
      tagged lowEnergyTags tags -> estimateEnergyFromTags tags = 0.3%Q)
  /\ (~ tagged highEnergyTags tags -> ~ tagged mediumEnergyTags tags ->
      ~ tagged lowEnergyTags tags -> estimateEnergyFromTags tags = 0.5%Q)
  /\ Js.truthyQ (estimateEnergyFromTags tags) = true.
Proof.
  rewrite estimateEnergyFromTags_cases.
  repeat split.
  - intros H. apply tagged_existsb in H. rewrite H. reflexivity.
  - intros Hh Hm. apply tagged_existsb in Hm.
    rewrite (not_tagged_existsb _ _ Hh), Hm. reflexivity.
  - intros Hh Hm Hl. apply tagged_existsb in Hl.
    rewrite (not_tagged_existsb _ _ Hh), (not_tagged_existsb _ _ Hm), Hl.
    reflexivity.
  - intros Hh Hm Hl.
    rewrite (not_tagged_existsb _ _ Hh), (not_tagged_existsb _ _ Hm),
      (not_tagged_existsb _ _ Hl).
    reflexivity.
  - repeat match goal with
           | |- context [if ?b then _ else _] => destruct b
           end; reflexivity.
Qed.

Lemma energy_estimate_precedence_witness :
  estimateEnergyFromTags
    [ {| Tag.name := Some "Chillout" |}; {| Tag.name := None |};
      {| Tag.name := Some "Deep House" |} ] = 0.8%Q.
Proof.
  apply (energy_estimate_precedence
           [ {| Tag.name := Some "Chillout" |}; {| Tag.name := None |};
             {| Tag.name := Some "Deep House" |} ]).
  exists {| Tag.name := Some "Deep House" |}.
  split; [ simpl; tauto | reflexivity ].
Defined.

Lemma existsb_perm {A} (f : A -> bool) (l l' : list A) :
  Permutation l l' -> existsb f l = existsb f l'.
Proof.
  induction 1 as [ | x l l' _ IH | x y l | l l' l'' _ IH1 _ IH2]; simpl.
  - reflexivity.
  - rewrite IH. reflexivity.
  - destruct (f x), (f y); reflexivity.
  - congruence.
Qed.

Lemma tag_name_shout (tag : Tag.t) : tag_name (shout tag) = tag_name tag.
Proof.
  unfold tag_name, shout. destruct (Tag.name tag); simpl;
    [ apply lower_upper | reflexivity ].
Qed.

(** X8: the estimate does not depend on the order of the tags nor on the
    case of their (ASCII) names. *)
Theorem energy_estimate_order_and_case (tags tags' : list Tag.t) :
  Permutation tags tags' ->
  estimateEnergyFromTags tags' = estimateEnergyFromTags tags
  /\ estimateEnergyFromTags (map shout tags) = estimateEnergyFromTags tags.
Proof.
  intros Hp. rewrite !estimateEnergyFromTags_cases. split.
  - assert (Hn : Permutation (map tag_name tags) (map tag_name tags'))
      by (apply Permutation_map; exact Hp).
    rewrite !(existsb_perm _ _ _ Hn). reflexivity.
  - rewrite map_map.
    rewrite (map_ext _ tag_name tag_name_shout). reflexivity.
Qed.

Lemma energy_estimate_order_and_case_witness :
  estimateEnergyFromTags
    [ {| Tag.name := Some "rock" |}; {| Tag.name := Some "Ambient" |} ]
  = estimateEnergyFromTags
      [ {| Tag.name := Some "Ambient" |}; {| Tag.name := Some "rock" |} ].
Proof.
  apply (energy_estimate_order_and_case
           [ {| Tag.name := Some "Ambient" |}; {| Tag.name := Some "rock" |} ]
           [ {| Tag.name := Some "rock" |}; {| Tag.name := Some "Ambient" |} ]).
  apply perm_swap.
Defined.

(** ** Random estimates and key tables *)

Lemma floor_between (x : Q) (a b : Z) :
  (inject_Z a <= x)%Q -> (x < inject_Z b)%Q -> (a <= Js.floor x < b)%Z.
Proof.
  intros Ha Hb. unfold Js.floor. split.
  - rewrite <- (Qfloor_Z a). apply Qfloor_resp_le. exact Ha.
  - rewrite Zlt_Qlt. apply Qle_lt_trans with x; [ apply Qfloor_le | exact Hb ].
Qed.

Lemma floor_draw (r : Q) (n : Z) :
  unit_draw r -> (0 < n)%Z -> (0 <= Js.floor (r * (n # 1)) < n)%Z.
Proof.
  intros [H0 H1] Hn. apply floor_between.
  - apply Qmult_le_0_compat; [ exact H0 | ]. unfold Qle. simpl. lia.
  - change (inject_Z n) with (n # 1).
    setoid_replace (n # 1) with (1 * (n # 1))%Q at 2 by ring.
    apply Qmult_lt_compat_r; [ | exact H1 ].
    unfold Qlt. simpl. lia.
Qed.

Lemma round_draw (r : Q) :
  unit_draw r -> Js.round r = 0%Z \/ Js.round r = 1%Z.
Proof.
  intros [H0 H1]. unfold Js.round.
  assert (H : (0 <= Js.floor (r + (1 # 2)) < 2)%Z).
  { apply floor_between.
    - apply Qle_trans with (0 + (1 # 2))%Q; [ discriminate | ].
      apply Qplus_le_l. exact H0.
    - apply Qlt_le_trans with (1 + (1 # 2))%Q.
      + apply Qplus_lt_l. exact H1.
      + discriminate. }
  unfold Js.floor in H. lia.
Qed.

(** X9: with draws of [Math.random()], the Beatport estimator picks one of
    its five genres and a tempo inside that genre's range, so a tempo
    between 120 and 179, and a key between 0 and 11. *)
Theorem estimateBeatportData_ranges (d : Draws) :
  unit_draws d ->
  match estimateBeatportData d with
  | (bpm, key, genre) =>
      (exists g lo hi,
          genre = Some g /\ In (g, (lo, hi)) genre_tempo
          /\ (lo <= bpm <= hi)%Z)
      /\ (120 <= bpm <= 179)%Z
      /\ (0 <= key <= 11)%Z
  end.
Proof.
  intros (Hg & Hb & Hk & _ & _).
  unfold estimateBeatportData. cbv zeta.
  pose proof (floor_draw _ 5 Hg ltac:(lia)) as Hi.
  pose proof (floor_draw _ 8 Hb ltac:(lia)) as H8.
  pose proof (floor_draw _ 10 Hb ltac:(lia)) as H10.
  pose proof (floor_draw _ 12 Hk ltac:(lia)) as H12.
  change (5 # 1) with 5%Q in Hi. change (8 # 1) with 8%Q in H8.
  change (10 # 1) with 10%Q in H10. change (12 # 1) with 12%Q in H12.
  remember (Js.floor (genre_draw d * 5)) as i eqn:Ei. clear Ei.
  assert (Hpick : exists g,
             In (Some g) (map Some genres)
             /\ (if (i <? 0)%Z then None
                 else nth_error genres (Z.to_nat i)) = Some g).
  { assert (Hcases : (i = 0 \/ i = 1 \/ i = 2 \/ i = 3 \/ i = 4)%Z) by lia.
    destruct Hcases as [-> | [-> | [-> | [-> | ->]]]];
      eexists; (split; [ | reflexivity ]); simpl; tauto. }
  destruct Hpick as (g & Hin & ->).
  each_member Hin;
    match goal with
    | H : Some _ = Some g |- _ => injection H as <-
    end;
    cbn -[Js.floor Qmult Z.add];
    (split; [ | split; lia ]).
  - exists "house", 120%Z, 127%Z.
    split; [ reflexivity | split; [ simpl; tauto | lia ] ].
  - exists "techno", 125%Z, 134%Z.
    split; [ reflexivity | split; [ simpl; tauto | lia ] ].
  - exists "trance", 128%Z, 135%Z.
    split; [ reflexivity | split; [ simpl; tauto | lia ] ].
  - exists "drum and bass", 170%Z, 179%Z.
    split; [ reflexivity | split; [ simpl; tauto | lia ] ].
  - exists "dubstep", 140%Z, 149%Z.
    split; [ reflexivity | split; [ simpl; tauto | lia ] ].
Qed.

Lemma half_draws_unit : unit_draws half_draws.
Proof.
  unfold unit_draws, unit_draw. simpl.
  repeat split; first [ discriminate | reflexivity ].
Qed.

Lemma estimateBeatportData_ranges_witness :
  match estimateBeatportData half_draws with
  | (bpm, key, genre) =>
      (exists g lo hi,
          genre = Some g /\ In (g, (lo, hi)) genre_tempo
          /\ (lo <= bpm <= hi)%Z)
      /\ (120 <= bpm <= 179)%Z
      /\ (0 <= key <= 11)%Z
  end.
Proof.
  apply (estimateBeatportData_ranges half_draws).
  unfold unit_draws, unit_draw. simpl.
  repeat split; first [ discriminate | reflexivity ].
Defined.

Example estimateBeatportData_half :
  estimateBeatportData half_draws = (132%Z, 6%Z, Some "trance").
Proof. reflexivity. Qed.

Lemma get_In {V} (o : Js.Obj V) (k : string) (v : V) :
  Js.get o k = Some v -> In (k, v) o.
Proof.
  induction o as [ | [k' v'] o IH]; simpl; [ discriminate | ].
  destruct (String.eqb_spec k' k) as [-> | Hne].
  - intros E. injection E as ->. left. reflexivity.
  - intros E. right. apply IH. exact E.
Qed.

Lemma mapAcousticBrainzKey_range (abKey : string) (d : Draws) :
  unit_draws d -> (0 <= mapAcousticBrainzKey abKey d <= 11)%Z.
Proof.
  intros (_ & _ & _ & Hk & _). unfold mapAcousticBrainzKey.
  destruct (Js.get keyMap abKey) as [k | ] eqn:E.
  - apply get_In in E. unfold keyMap in E.
    each_member E;
      match goal with
      | H : (_, _) = (_, _) |- _ => injection H as _ <-
      end; lia.
  - pose proof (floor_draw _ 12 Hk ltac:(lia)) as H.
    change (12 # 1) with 12%Q in H. lia.
Qed.



(** ** The reconciler, continued *)

(** Case analysis on what each adapter's data holds. *)
Ltac adapter_cases :=
  repeat (simpl;
          match goal with
          | |- context [AcousticBrainz.bpm ?ab] =>
              destruct (AcousticBrainz.bpm ab)
          | |- context [Js.truthyQ ?x] =>
              is_var x; destruct (Js.truthyQ x) eqn:?
          | |- context [Js.truthyZ (Js.round ?x)] =>
              destruct (Js.truthyZ (Js.round x)) eqn:?
          | |- context [Js.truthy_oZ (Beatport.bpm ?bp)] =>
              destruct (Js.truthy_oZ (Beatport.bpm bp)) eqn:?
          | |- context [Js.truthy_oQ (AcousticBrainz.energy ?ab)] =>
              destruct (Js.truthy_oQ (AcousticBrainz.energy ab)) eqn:?
          | |- context [Js.truthy_oQ (LastFm.estimatedEnergy ?lf)] =>
              destruct (Js.truthy_oQ (LastFm.estimatedEnergy lf)) eqn:?
          end).

(** X11: whatever the three adapters return, the confidence lies between
    0 and 0.8. *)
Theorem confidence_bounds
    (l : Result LastFm.t) (a : Result AcousticBrainz.t)
    (c : Result Beatport.t) (d : Draws) :
  (0 <= Combined.confidence (combineAudioFeatures l a c d) <= 0.8)%Q.
Proof.
  rewrite (confidence_closed_form d l a c).
  unfold sources_counted, weights_contributed, beatport_consulted,
    beatport_weighs, lastfm_weighs, ab_weighs, ab_energy, ab_tempo.
  destruct a as [ab | ea], c as [bp | ec], l as [lf | el];
    adapter_cases; split; discriminate.
Qed.

(** X12: the reconciled record passes the 0.2 threshold exactly when
    AcousticBrainz supplies a tempo, or AcousticBrainz fails and Beatport
    supplies the tempo while Last.fm either fails or contributes its
    energy.  So Last.fm alone is never enough, and an AcousticBrainz answer
    without a tempo makes the track be dropped even when Beatport
    answers. *)
Theorem acceptance
    (l : Result LastFm.t) (a : Result AcousticBrainz.t)
    (c : Result Beatport.t) (d : Draws) :
  Qgtb (Combined.confidence (combineAudioFeatures l a c d)) 0.2 = true
  <-> (ab_weighs a = true
       \/ (succeeded a = false
           /\ beatport_weighs a c = true
           /\ (succeeded l = false \/ lastfm_weighs l a = true))).
Proof.
  unfold Qgtb.
  rewrite (confidence_closed_form d l a c).
  unfold sources_counted, weights_contributed, beatport_consulted,
    beatport_weighs, lastfm_weighs, ab_weighs, ab_energy, ab_tempo.
  destruct a as [ab | ea], c as [bp | ec], l as [lf | el];
    adapter_cases;
    (split; [ intros H; try discriminate H; tauto
            | intros H; try reflexivity;
              intuition discriminate ]).
Qed.

Lemma merge_beatport_skipped (c : Result Beatport.t) (m : Merge) :
  Js.truthy_oZ (Combined.bpm (combined m)) = true -> merge_beatport c m = m.
Proof.
  intros H. destruct c as [bp | e]; simpl; [ | reflexivity ].
  rewrite H. reflexivity.
Qed.

(** X13: Beatport is only a backup: once AcousticBrainz has supplied a
    tempo that does not round to 0, the Beatport result is ignored
    altogether, as if the adapter had failed. *)
Theorem beatport_is_a_backup
    (l : Result LastFm.t) (a : Result AcousticBrainz.t)
    (c : Result Beatport.t) (d : Draws) (e : string) :
  Js.truthy_oZ (ab_tempo a) = true ->
  combineAudioFeatures l a c d = combineAudioFeatures l a (Failure e) d.
Proof.
  intros H. unfold combineAudioFeatures. cbv zeta.
  rewrite merge_beatport_skipped; [ reflexivity | ].
  rewrite merge_acousticbrainz_bpm.
  destruct (ab_tempo a); [ exact H | discriminate H ].
Qed.

Lemma beatport_is_a_backup_witness :
  combineAudioFeatures no_lastfm_key (Success sample_ab) sample_beatport
    zero_draws
  = combineAudioFeatures no_lastfm_key (Success sample_ab)
      (Failure "Beatport search failed: URI malformed") zero_draws.
Proof.
  apply (beatport_is_a_backup no_lastfm_key (Success sample_ab)
           sample_beatport zero_draws). reflexivity.
Defined.

Lemma merge_lastfm_fields (l : Result LastFm.t) (m : Merge) :
  Combined.bpm (combined (merge_lastfm l m)) = Combined.bpm (combined m)
  /\ Combined.key (combined (merge_lastfm l m)) = Combined.key (combined m)
  /\ Combined.mode (combined (merge_lastfm l m)) = Combined.mode (combined m)
  /\ Combined.danceability (combined (merge_lastfm l m))
     = Combined.danceability (combined m).
Proof.
  destruct l as [lf | e]; simpl; [ | repeat split ].
  match goal with
  | |- context [if ?b then _ else _] => destruct b
  end; repeat split.
Qed.

(** X14: Last.fm can only change the energy and the confidence: the tempo,
    key, mode and danceability of the reconciled record are the same
    whatever Last.fm returned; and its energy is used only when
    AcousticBrainz supplied none. *)
Theorem lastfm_only_energy
    (l l' : Result LastFm.t) (a : Result AcousticBrainz.t)
    (c : Result Beatport.t) (d : Draws) :
  let r := combineAudioFeatures l a c d in
  let r' := combineAudioFeatures l' a c d in
  Combined.bpm r = Combined.bpm r'
  /\ Combined.key r = Combined.key r'
  /\ Combined.mode r = Combined.mode r'
  /\ Combined.danceability r = Combined.danceability r'
  /\ (ab_energy a = true -> Combined.energy r = Combined.energy r').
Proof.
  unfold combineAudioFeatures. cbv zeta.
  set (m := merge_beatport c
              (merge_acousticbrainz a d
                 {| combined := empty_combined; sources := 0;
                    totalConfidence := 0 |})).
  destruct (merge_lastfm_fields l m) as (B & K & M & D).
  destruct (merge_lastfm_fields l' m) as (B' & K' & M' & D').
  cbn [Combined.set_confidence Combined.bpm Combined.key Combined.mode
       Combined.danceability Combined.energy].
  rewrite B, B', K, K', M, M', D, D'.
  repeat split.
  intros Ha.
  assert (He : Js.truthy_oQ (Combined.energy (combined m)) = true).
  { unfold m. rewrite merge_beatport_energy, merge_acousticbrainz_energy.
    rewrite Ha. reflexivity. }
  destruct l as [lf | e], l' as [lf' | e']; simpl; rewrite ?He;
    rewrite ?andb_false_r; reflexivity.
Qed.

Lemma lastfm_only_energy_witness :
  Combined.energy
    (combineAudioFeatures
       (Success {| LastFm.tags := []; LastFm.estimatedEnergy := Some 0.3%Q |})
       (Success {| AcousticBrainz.bpm := None;
                   AcousticBrainz.key := None;
                   AcousticBrainz.mode := None;
                   AcousticBrainz.energy := Some 0.9%Q;
                   AcousticBrainz.danceability := None;
                   AcousticBrainz.confidence := 0.8 |})
       sample_beatport zero_draws)
  = Combined.energy
      (combineAudioFeatures no_lastfm_key
         (Success {| AcousticBrainz.bpm := None;
                     AcousticBrainz.key := None;
                     AcousticBrainz.mode := None;
                     AcousticBrainz.energy := Some 0.9%Q;
                     AcousticBrainz.danceability := None;
                     AcousticBrainz.confidence := 0.8 |})
         sample_beatport zero_draws).
Proof.
  apply (lastfm_only_energy
           (Success {| LastFm.tags := [];
                       LastFm.estimatedEnergy := Some 0.3%Q |})
           no_lastfm_key). reflexivity.
Defined.

Lemma merge_beatport_key (c : Result Beatport.t) (m : Merge) :
  Combined.key (combined (merge_beatport c m)) =
  match c with
  | Success bp =>
      if negb (Js.truthy_oZ (Combined.bpm (combined m)))
         && Js.truthy_oZ (Beatport.key bp)
         && negb (Js.truthy_oZ (Combined.key (combined m)))
      then Beatport.key bp
      else Combined.key (combined m)
  | Failure _ => Combined.key (combined m)
  end.
Proof.
  destruct c as [bp | e]; simpl; [ | reflexivity ].
  destruct (Js.truthy_oZ (Combined.bpm (combined m))); simpl;
    [ reflexivity | ].
  destruct (Js.truthy_oZ (Beatport.bpm bp)); simpl;
    destruct (Js.truthy_oZ (Beatport.key bp)); simpl;
    destruct (Js.truthy_oZ (Combined.key (combined m))); reflexivity.
Qed.

Lemma merge_beatport_mode (c : Result Beatport.t) (m : Merge) :
  Combined.mode (combined (merge_beatport c m)) = Combined.mode (combined m).
Proof.
  destruct c as [bp | e]; simpl; [ | reflexivity ].
  destruct (Js.truthy_oZ (Combined.bpm (combined m))); simpl;
    [ reflexivity | ].
  destruct (Js.truthy_oZ (Beatport.bpm bp)); simpl;
    match goal with
    | |- context [if ?b then _ else _] => destruct b
    end; reflexivity.
Qed.

Lemma merge_acousticbrainz_key ab d m :
  Combined.key (combined (merge_acousticbrainz (Success ab) d m)) =
  match AcousticBrainz.key ab with
  | Some k => Some (mapAcousticBrainzKey k d)
  | None => Combined.key (combined m)
  end
  /\ Combined.mode (combined (merge_acousticbrainz (Success ab) d m)) =
     match AcousticBrainz.key ab with
     | Some _ => Some (mapAcousticBrainzMode (AcousticBrainz.mode ab) d)
     | None => Combined.mode (combined m)
     end.
Proof.
  simpl.
  destruct (AcousticBrainz.bpm ab) as [b | ]; [ destruct (Js.truthyQ b) | ];
    destruct (AcousticBrainz.key ab);
    (destruct (AcousticBrainz.energy ab) as [en | ];
     [ destruct (Js.truthyQ en) | ]);
    (destruct (AcousticBrainz.danceability ab) as [dn | ];
     [ destruct (Js.truthyQ dn) | ]);
    split; reflexivity.
Qed.

(** X15: pitch class 0 (C) counts as no key.  A Beatport key of 0 is never
    taken.  And when AcousticBrainz gives the key C without a tempo, a
    Beatport key other than 0 replaces it, while the mode stays the one
    AcousticBrainz gave. *)
Theorem pitch_class_zero_is_no_key
    (l : Result LastFm.t) (a : Result AcousticBrainz.t)
    (ab : AcousticBrainz.t) (bp : Beatport.t) (d : Draws)
    (abKey e : string) :
  (Beatport.key bp = Some 0%Z ->
   Combined.key (combineAudioFeatures l a (Success bp) d)
   = Combined.key (combineAudioFeatures l a (Failure e) d))
  /\ (AcousticBrainz.bpm ab = None ->
      AcousticBrainz.key ab = Some abKey ->
      mapAcousticBrainzKey abKey d = 0%Z ->
      Js.truthy_oZ (Beatport.key bp) = true ->
      let r := combineAudioFeatures l (Success ab) (Success bp) d in
      Combined.key r = Beatport.key bp
      /\ Combined.mode r
         = Some (mapAcousticBrainzMode (AcousticBrainz.mode ab) d)).
Proof.
  split.
  - intros Hk. unfold combineAudioFeatures. cbv zeta.
    cbn [Combined.set_confidence Combined.key].
    destruct (merge_lastfm_fields l
                (merge_beatport (Success bp)
                   (merge_acousticbrainz a d
                      {| combined := empty_combined; sources := 0;
                         totalConfidence := 0 |}))) as (_ & -> & _).
    destruct (merge_lastfm_fields l
                (merge_beatport (Failure e)
                   (merge_acousticbrainz a d
                      {| combined := empty_combined; sources := 0;
                         totalConfidence := 0 |}))) as (_ & -> & _).
    rewrite !merge_beatport_key, Hk. simpl.
    rewrite andb_false_r. reflexivity.
  - intros Hb Hkey Hzero Hbk r. unfold r, combineAudioFeatures. cbv zeta.
    cbn [Combined.set_confidence Combined.key Combined.mode].
    set (m0 := {| combined := empty_combined; sources := 0;
                  totalConfidence := 0 |}).
    destruct (merge_lastfm_fields l
                (merge_beatport (Success bp)
                   (merge_acousticbrainz (Success ab) d m0)))
      as (_ & -> & -> & _).
    rewrite merge_beatport_key, merge_beatport_mode.
    destruct (merge_acousticbrainz_key ab d m0) as [-> ->].
    rewrite merge_acousticbrainz_bpm.
    unfold ab_tempo. rewrite Hb, Hkey, Hzero, Hbk. simpl.
    split; reflexivity.
Qed.

Lemma pitch_class_zero_is_no_key_witness :
  let ab := {| AcousticBrainz.bpm := None;
               AcousticBrainz.key := Some "C";
               AcousticBrainz.mode := Some "major";
               AcousticBrainz.energy := None;
               AcousticBrainz.danceability := None;
               AcousticBrainz.confidence := 0.8 |} in
  let r := combineAudioFeatures no_lastfm_key (Success ab)
             (Success (getBeatportData "Artist" "Title" half_draws))
             half_draws in
  Combined.key r = Some 6%Z /\ Combined.mode r = Some 1%Z.
Proof.
  intros ab r.
  destruct (pitch_class_zero_is_no_key no_lastfm_key (Success ab) ab
              (getBeatportData "Artist" "Title" half_draws) half_draws
              "C" "none") as [_ H].
  apply H; reflexivity.
Defined.

Lemma merge_acousticbrainz_values ab d m :
  Combined.energy (combined (merge_acousticbrainz (Success ab) d m)) =
  (if Js.truthy_oQ (AcousticBrainz.energy ab)
   then option_map Js.min1 (AcousticBrainz.energy ab)
   else Combined.energy (combined m))
  /\ Combined.danceability (combined (merge_acousticbrainz (Success ab) d m)) =
     (if Js.truthy_oQ (AcousticBrainz.danceability ab)
      then AcousticBrainz.danceability ab
      else Combined.danceability (combined m)).
Proof.
  simpl.
  destruct (AcousticBrainz.bpm ab) as [b | ]; [ destruct (Js.truthyQ b) | ];
    destruct (AcousticBrainz.key ab);
    (destruct (AcousticBrainz.energy ab) as [en | ]; simpl;
     [ destruct (Js.truthyQ en) | ]);
    (destruct (AcousticBrainz.danceability ab) as [dn | ]; simpl;
     [ destruct (Js.truthyQ dn) | ]);
    split; reflexivity.
Qed.

Lemma merge_beatport_danceability (c : Result Beatport.t) (m : Merge) :
  Combined.danceability (combined (merge_beatport c m))
  = Combined.danceability (combined m).
Proof.
  destruct c as [bp | e]; simpl; [ | reflexivity ].
  destruct (Js.truthy_oZ (Combined.bpm (combined m))); simpl;
    [ reflexivity | ].
  destruct (Js.truthy_oZ (Beatport.bpm bp)); simpl;
    match goal with
    | |- context [if ?b then _ else _] => destruct b
    end; reflexivity.
Qed.

Lemma merge_lastfm_energy_kept (l : Result LastFm.t) (m : Merge) :
  Js.truthy_oQ (Combined.energy (combined m)) = true ->
  Combined.energy (combined (merge_lastfm l m))
  = Combined.energy (combined m).
Proof.
  intros H. destruct l as [lf | e]; simpl; [ | reflexivity ].
  rewrite H, andb_false_r. reflexivity.
Qed.

(** X16: an energy supplied by AcousticBrainz is capped at 1, and only
    from above: a value of at most 1, negative ones included, is kept as it
    is, and Last.fm's estimate is not used.  A danceability supplied by
    AcousticBrainz is kept as it is. *)
Theorem acousticbrainz_energy_capped
    (l : Result LastFm.t) (ab : AcousticBrainz.t) (c : Result Beatport.t)
    (d : Draws) :
  let r := combineAudioFeatures l (Success ab) c d in
  (forall e, AcousticBrainz.energy ab = Some e -> Js.truthyQ e = true ->
             Combined.energy r = Some (Js.min1 e)
             /\ (Js.min1 e <= 1)%Q
             /\ ((e <= 1)%Q -> Js.min1 e = e))
  /\ (forall x, AcousticBrainz.danceability ab = Some x ->
                Js.truthyQ x = true ->
                Combined.danceability r = Some x).
Proof.
  intros r. unfold r, combineAudioFeatures. cbv zeta.
  set (m0 := {| combined := empty_combined; sources := 0;
                totalConfidence := 0 |}).
  cbn [Combined.set_confidence Combined.energy Combined.danceability].
  destruct (merge_acousticbrainz_values ab d m0) as [He Hd].
  split.
  - intros e Hen Ht.
    assert (Hm : Combined.energy
                   (combined (merge_beatport c
                                (merge_acousticbrainz (Success ab) d m0)))
                 = Some (Js.min1 e)).
    { rewrite merge_beatport_energy, He, Hen. simpl. rewrite Ht.
      reflexivity. }
    split; [ | split ].
    + rewrite merge_lastfm_energy_kept; [ exact Hm | ].
      rewrite Hm. simpl. apply truthyQ_min1. exact Ht.
    + unfold Js.min1. destruct (Qle_bool e 1) eqn:E.
      * apply Qle_bool_iff. exact E.
      * discriminate.
    + intros Hle. unfold Js.min1. apply Qle_bool_iff in Hle.
      rewrite Hle. reflexivity.
  - intros x Hx Ht.
    destruct (merge_lastfm_fields l
                (merge_beatport c (merge_acousticbrainz (Success ab) d m0)))
      as (_ & _ & _ & ->).
    rewrite merge_beatport_danceability, Hd, Hx. simpl. rewrite Ht.
    reflexivity.
Qed.

Lemma acousticbrainz_energy_capped_witness :
  Combined.energy
    (combineAudioFeatures no_lastfm_key
       (Success {| AcousticBrainz.bpm := Some 128%Q;
                   AcousticBrainz.key := None;
                   AcousticBrainz.mode := None;
                   AcousticBrainz.energy := Some 2.5%Q;
                   AcousticBrainz.danceability := Some 1.4%Q;
                   AcousticBrainz.confidence := 0.8 |})
       sample_beatport zero_draws) = Some 1%Q.
Proof.
  destruct (acousticbrainz_energy_capped no_lastfm_key
              {| AcousticBrainz.bpm := Some 128%Q;
                 AcousticBrainz.key := None;
                 AcousticBrainz.mode := None;
                 AcousticBrainz.energy := Some 2.5%Q;
                 AcousticBrainz.danceability := Some 1.4%Q;
                 AcousticBrainz.confidence := 0.8 |}
              sample_beatport zero_draws) as [H _].
  destruct (H 2.5%Q eq_refl eq_refl) as [E _]. exact E.
Defined.

(** ** From the adapters to the features *)

Lemma getBeatportData_fields (artist track : string) (d : Draws) :
  unit_draws d ->
  exists bpm key,
    Beatport.bpm (getBeatportData artist track d) = Some bpm
    /\ Beatport.key (getBeatportData artist track d) = Some key
    /\ (120 <= bpm <= 179)%Z /\ (0 <= key <= 11)%Z.
Proof.
  intros (Hg & Hb & Hk & _ & _).
  pose proof (floor_draw _ 12 Hk ltac:(lia)) as H12.
  change (12 # 1) with 12%Q in H12.
  pose proof (floor_draw _ 8 Hb ltac:(lia)) as H8.
  pose proof (floor_draw _ 10 Hb ltac:(lia)) as H10.
  pose proof (floor_draw _ 20 Hb ltac:(lia)) as H20.
  change (8 # 1) with 8%Q in H8. change (10 # 1) with 10%Q in H10.
  change (20 # 1) with 20%Q in H20.
  unfold getBeatportData, estimateBeatportData. cbv zeta.
  cbn [Beatport.bpm Beatport.key].
  eexists. eexists. split; [ reflexivity | split; [ reflexivity | ] ].
  split; [ | lia ].
  repeat match goal with
         | |- context [if ?b then _ else _] => destruct b
         end; lia.
Qed.

(** The key of an analysis, when there is one, is a pitch class. *)
Lemma analysis_key_range (artist track spotifyId : string) (w : World) k :
  unit_draws (draws w) ->
  Combined.key
    (Analysis.combined (getAlternativeAudioFeatures artist track spotifyId w))
  = Some k ->
  (0 <= k <= 11)%Z.
Proof.
  intros Hd. unfold getAlternativeAudioFeatures.
  cbn [Analysis.combined]. unfold combineAudioFeatures. cbv zeta.
  cbn [Combined.set_confidence Combined.key].
  set (m0 := {| combined := empty_combined; sources := 0;
                totalConfidence := 0 |}).
  set (c := match beatport_throws w with
            | Some message => Failure ("Beatport search failed: " ++ message)
            | None => Success (getBeatportData artist track (draws w))
            end).
  destruct (merge_lastfm_fields (lastfm_settles w)
              (merge_beatport c
                 (merge_acousticbrainz (acousticbrainz_settles w)
                    (draws w) m0))) as (_ & -> & _).
  rewrite merge_beatport_key.
  assert (Hab : forall k',
             Combined.key
               (combined (merge_acousticbrainz (acousticbrainz_settles w)
                            (draws w) m0)) = Some k' ->
             (0 <= k' <= 11)%Z).
  { intros k'. destruct (acousticbrainz_settles w) as [ab | e].
    - destruct (merge_acousticbrainz_key ab (draws w) m0) as [-> _].
      destruct (AcousticBrainz.key ab) as [s | ]; [ | discriminate ].
      intros E. injection E as <-. apply mapAcousticBrainzKey_range.
      exact Hd.
    - discriminate. }
  unfold c. destruct (beatport_throws w) as [message | ].
  - apply Hab.
  - destruct (getBeatportData_fields artist track (draws w) Hd)
      as (bpm & key & _ & Ek & _ & Hk).
    match goal with
    | |- context [if ?b then _ else _] => destruct b
    end; [ | apply Hab ].
    rewrite Ek. intros E. injection E as <-. exact Hk.
Qed.

Lemma accepted_from_In world tracks :
  forall i e,
    In e (accepted_from world i tracks) ->
    exists j track artist0 others,
      In track tracks
      /\ Track.artists track = artist0 :: others
      /\ e = make_entry track (analysis_of artist0 track (world j))
      /\ Qgtb (Entry.confidence e) 0.2 = true.
Proof.
  induction tracks as [ | t tracks IH]; intros i e Hin; simpl in Hin;
    [ contradiction | ].
  apply in_app_or in Hin. destruct Hin as [Hin | Hin].
  - unfold accepted in Hin.
    destruct (Track.artists t) as [ | artist0 others] eqn:Ea;
      [ contradiction | ].
    cbv zeta in Hin.
    destruct (Qgtb _ 0.2) eqn:Eq; [ | contradiction ].
    destruct Hin as [<- | []].
    exists i, t, artist0, others.
    repeat split; [ left; reflexivity | exact Ea | exact Eq ].
  - destruct (IH (S i) e Hin) as (j & track & artist0 & others & H & Hrest).
    exists j, track, artist0, others. split; [ right; exact H | exact Hrest ].
Qed.

Lemma getCamelotKey_on_wheel (k : Z) (mode : option Z) :
  (0 <= k <= 11)%Z -> In (getCamelotKey k mode) WHEEL_POSITIONS.
Proof.
  intros Hk. assert (Hk' : (0 <= k < 12)%Z) by lia.
  apply pitch_cases in Hk'.
  each_mode mode; each_member Hk'; vm_compute; tauto.
Qed.

Lemma compat_length_on_wheel (p : string) :
  In p WHEEL_POSITIONS -> length (getHarmonicCompatibility p) = 8%nat.
Proof.
  intros Hp. unfold WHEEL_POSITIONS in Hp. each_member Hp; reflexivity.
Qed.



Lemma getBeatportData_key (artist track : string) (d : Draws) :
  Beatport.key (getBeatportData artist track d)
  = Some (Js.floor (bkey_draw d * 12)).
Proof. reflexivity. Qed.

(** X18: a track for which only the Beatport estimator answers is
    accepted, with confidence 0.3 and no mode.  If the estimated key is
    0 the track yields no feature; otherwise its feature is filed under
    the minor key (letter A) of the estimated pitch class, with a tempo
    between 120 and 179. *)
Theorem beatport_only_track
    (w : World) (track : Track.t) (artist0 : Artist.t)
    (others : list Artist.t) (e1 e2 : string) :
  Track.artists track = artist0 :: others ->
  lastfm_settles w = Failure e1 ->
  acousticbrainz_settles w = Failure e2 ->
  beatport_throws w = None ->
  unit_draws (draws w) ->
  let e := make_entry track (analysis_of artist0 track w) in
  let key := Js.floor (bkey_draw (draws w) * 12) in
  accepted w track = [e]
  /\ Entry.confidence e = 0.3%Q
  /\ Entry.sources e = ["beatport"]
  /\ Entry.mode e = None
  /\ (key = 0%Z -> process_result e = None)
  /\ (key <> 0%Z ->
      exists f,
        process_result e = Some f
        /\ Analyzed.camelotKey f = getCamelotKey key (Some 0%Z)
        /\ Js.slice_last (Analyzed.camelotKey f) = "A"
        /\ (120 <= Analyzed.bpm f <= 179)%Z).
Proof.
  intros Ha Hl Hab Hbp Hd e key.
  destruct (getBeatportData_fields (Artist.name artist0) (Track.name track)
              (draws w) Hd) as (bpm & k & Eb & Ek & Hbpm & Hk).
  assert (Ekey : k = key).
  { rewrite getBeatportData_key in Ek. injection Ek as <-. reflexivity. }
  subst k. clearbody key.
  assert (Hc : Analysis.combined (analysis_of artist0 track w) =
               {| Combined.bpm := Some bpm;
                  Combined.key := if Js.truthyZ key then Some key else None;
                  Combined.mode := None;
                  Combined.energy := None;
                  Combined.danceability := None;
                  Combined.confidence := 0.3 |}).
  { unfold analysis_of, getAlternativeAudioFeatures.
    cbn [Analysis.combined]. rewrite Hl, Hab, Hbp.
    remember (getBeatportData (Artist.name artist0) (Track.name track)
                (draws w)) as bp eqn:Ebp. clear Ebp.
    unfold combineAudioFeatures. simpl. rewrite Eb, Ek. simpl.
    assert (Ht : Js.truthyZ bpm = true).
    { unfold Js.truthyZ. destruct (Z.eqb_spec bpm 0); [ lia | reflexivity ]. }
    rewrite Ht. simpl. destruct (Js.truthyZ key); reflexivity. }
  assert (Hs : Entry.sources e = ["beatport"]).
  { unfold e, make_entry, analysis_of, getAlternativeAudioFeatures.
    cbn [Entry.sources Analysis.sources]. unfold contributing.
    cbn [Sources.lastfm Sources.acousticbrainz Sources.beatport].
    rewrite Hl, Hab, Hbp. reflexivity. }
  assert (Hconf : Entry.confidence e = 0.3%Q).
  { unfold e, make_entry. cbn [Entry.confidence]. rewrite Hc. reflexivity. }
  split; [ | split; [ exact Hconf | split; [ exact Hs | split ] ] ].
  - unfold accepted. rewrite Ha. cbv zeta. rewrite Hc. reflexivity.
  - unfold e, make_entry. cbn [Entry.mode]. rewrite Hc. reflexivity.
  - split.
    + intros Hz. unfold e, process_result, make_entry.
      cbn [Entry.track Entry.key]. rewrite Hc. cbn [Combined.key].
      rewrite Hz. reflexivity.
    + intros Hnz. unfold e, process_result, make_entry.
      cbn [Entry.track Entry.key Entry.mode Entry.bpm]. rewrite Hc.
      cbn [Combined.key Combined.mode Combined.bpm].
      assert (Ht : Js.truthyZ key = true).
      { unfold Js.truthyZ. destruct (Z.eqb_spec key 0);
          [ contradiction | reflexivity ]. }
      rewrite Ht. eexists. split; [ reflexivity | ].
      cbn [Analyzed.camelotKey Analyzed.bpm].
      split; [ reflexivity | split ].
      * assert (Hk' : (0 <= key < 12)%Z) by lia.
        apply pitch_cases in Hk'.
        clear - Hk'. each_member Hk'; reflexivity.
      * unfold Js.orZ.
        assert (Htb : Js.truthyZ bpm = true).
        { unfold Js.truthyZ. destruct (Z.eqb_spec bpm 0);
            [ lia | reflexivity ]. }
        rewrite Htb. exact Hbpm.
Qed.

Lemma beatport_only_track_witness :
  exists f,
    process_result
      (make_entry (sample_track "One")
         (analysis_of {| Artist.name := "Artist" |} (sample_track "One")
            half_world)) = Some f
    /\ Analyzed.camelotKey f = "2A"
    /\ (120 <= Analyzed.bpm f <= 179)%Z.
Proof.
  destruct (beatport_only_track half_world (sample_track "One")
              {| Artist.name := "Artist" |} []
              "Last.fm API key not configured"
              "AcousticBrainz failed: Track not found in MusicBrainz")
    as (_ & _ & _ & _ & _ & H); try reflexivity.
  - unfold unit_draws, unit_draw. simpl.
    repeat split; first [ discriminate | reflexivity ].
  - destruct H as (f & Ef & Ek & _ & Hb); [ discriminate | ].
    exists f. split; [ exact Ef | split; [ exact Ek | exact Hb ] ].
Defined.

(** ** The batch orchestrator, continued *)

Lemma contributing_sources (s : Sources.t) :
  subsequence (contributing s) source_names.
Proof.
  unfold contributing, source_names.
  destruct (succeeded (Sources.lastfm s)),
    (succeeded (Sources.acousticbrainz s)),
    (succeeded (Sources.beatport s)); simpl;
    repeat first [ apply subsequence_nil
                 | apply subsequence_keep
                 | apply subsequence_skip ].
Qed.

Lemma no_source_no_confidence (artist track spotifyId : string) (w : World) :
  contributing
    (Analysis.sources (getAlternativeAudioFeatures artist track spotifyId w))
  = [] ->
  Combined.confidence
    (Analysis.combined (getAlternativeAudioFeatures artist track spotifyId w))
  = 0%Q.
Proof.
  unfold getAlternativeAudioFeatures, contributing.
  cbn [Analysis.sources Analysis.combined Sources.lastfm
       Sources.acousticbrainz Sources.beatport].
  destruct (lastfm_settles w); [ discriminate | ].
  destruct (acousticbrainz_settles w); [ simpl; discriminate | ].
  destruct (beatport_throws w); [ | simpl; discriminate ].
  reflexivity.
Qed.

(** X19: every entry the batch returns belongs to one of the input tracks,
    has a confidence above 0.2, and lists at least one source; the sources
    listed are names of adapters that did not fail, in the order Last.fm,
    AcousticBrainz, Beatport. *)
Theorem batch_entries
    (world : nat -> World) (tracks : list Track.t) (b : Batch)
    (e : Entry.t) :
  batchAnalyzeAlternativeSources world tracks = Ok b ->
  In e (results b) ->
  (exists track, In track tracks /\ Entry.track e = Some track)
  /\ (0.2 < Entry.confidence e)%Q
  /\ Entry.sources e <> []
  /\ subsequence (Entry.sources e) source_names.
Proof.
  intros Hb He.
  destruct (batch_ok world tracks) as (b' & E & R & _).
  rewrite Hb in E. injection E as <-. rewrite R in He.
  apply accepted_from_In in He.
  destruct He as (j & track & artist0 & others & Hin & _ & -> & Hq).
  split; [ exists track; split; [ exact Hin | reflexivity ] | ].
  apply Qgtb_lt in Hq.
  split; [ exact Hq | split ].
  - intros Hnone. cbn [make_entry Entry.sources Entry.confidence] in *.
    unfold analysis_of in *.
    rewrite (no_source_no_confidence _ _ _ _ Hnone) in Hq.
    revert Hq. unfold Qlt. simpl. lia.
  - apply contributing_sources.
Qed.

Lemma batch_entries_witness :
  exists b e,
    batchAnalyzeAlternativeSources (fun _ => half_world) [sample_track "One"]
    = Ok b
    /\ In e (results b)
    /\ (0.2 < Entry.confidence e)%Q
    /\ Entry.sources e <> [].
Proof.
  eexists. eexists.
  split; [ vm_compute; reflexivity | ].
  split; [ vm_compute; left; reflexivity | ].
  refine ((fun H => conj (proj1 (proj2 H)) (proj1 (proj2 (proj2 H))))
            (batch_entries (fun _ => half_world) [sample_track "One"]
               _ _ _ _)).
  - vm_compute. reflexivity.
  - vm_compute. left. reflexivity.
Defined.

Lemma accepted_from_order world tracks :
  forall i,
    subsequence (map Entry.track (accepted_from world i tracks))
      (map Some tracks).
Proof.
  induction tracks as [ | t tracks IH]; intros i; simpl.
  - apply subsequence_nil.
  - rewrite map_app. unfold accepted at 1.
    destruct (Track.artists t) as [ | artist0 others]; simpl.
    + apply subsequence_skip. apply IH.
    + match goal with
      | |- context [if ?c then _ else _] => destruct c
      end; simpl.
      * apply subsequence_keep. apply IH.
      * apply subsequence_skip. apply IH.
Qed.

(** X20: the batch keeps the input order: the tracks of the entries
    returned are the input tracks with some left out, none repeated or
    moved. *)
Theorem batch_keeps_order
    (world : nat -> World) (tracks : list Track.t) (b : Batch) :
  batchAnalyzeAlternativeSources world tracks = Ok b ->
  subsequence (map Entry.track (results b)) (map Some tracks).
Proof.
  intros Hb.
  destruct (batch_ok world tracks) as (b' & E & R & _).
  rewrite Hb in E. injection E as <-. rewrite R.
  apply accepted_from_order.
Qed.

Lemma batch_keeps_order_witness :
  exists b,
    batchAnalyzeAlternativeSources every_third_fails three_tracks = Ok b
    /\ subsequence (map Entry.track (results b)) (map Some three_tracks).
Proof.
  eexists. split; [ vm_compute; reflexivity | ].
  apply (batch_keeps_order every_third_fails three_tracks).
  vm_compute. reflexivity.
Defined.

Lemma batch_step_trace world total i track b :
  exists b',
    batch_step world total i track b = Ok b'
    /\ progress b' =
       (progress b
        ++ [((inject_Z (Z.of_nat i) / inject_Z (Z.of_nat total) * 100)%Q,
             ("Analyzing: " ++ Track.name track)%string)])%list
    /\ length (console b') =
       (length (console b) + if without_artist track then 1 else 0)%nat.
Proof.
  unfold batch_step, analyze_track, try_catch, without_artist.
  destruct (Track.artists track) as [ | artist0 others]; simpl.
  - eexists. split; [ reflexivity | ]. simpl.
    rewrite length_push. split; [ reflexivity | lia ].
  - match goal with
    | |- context [if ?c then _ else _] => destruct c
    end; eexists; (split; [ reflexivity | ]); simpl;
      (split; [ reflexivity | lia ]).
Qed.

Lemma batch_loop_trace world total tracks :
  forall i b,
  exists b',
    batch_loop world total i tracks b = Ok b'
    /\ progress b' = (progress b ++ progress_from total i tracks)%list
    /\ length (console b') =
       (length (console b) + length (filter without_artist tracks))%nat.
Proof.
  induction tracks as [ | track tracks IH]; intros i b; simpl.
  - exists b. rewrite app_nil_r. repeat split. lia.
  - destruct (batch_step_trace world total i track b) as (b1 & E1 & P1 & C1).
    rewrite E1. simpl.
    destruct (IH (S i) b1) as (b2 & E2 & P2 & C2).
    exists b2. split; [ exact E2 | ].
    rewrite P2, P1, C2, C1, <- app_assoc. split; [ reflexivity | ].
    destruct (without_artist track); simpl; lia.
Qed.

Lemma percent_range (i total : nat) :
  (i < total)%nat ->
  (0 <= inject_Z (Z.of_nat i) / inject_Z (Z.of_nat total) * 100 < 100)%Q.
Proof.
  intros Hlt.
  assert (Hpos : (0 < inject_Z (Z.of_nat total))%Q).
  { rewrite <- (Zlt_Qlt 0). lia. }
  assert (H0 : (0 <= inject_Z (Z.of_nat i) / inject_Z (Z.of_nat total))%Q).
  { apply Qle_shift_div_l; [ exact Hpos | ].
    rewrite Qmult_0_l. rewrite <- (Zle_Qle 0). lia. }
  assert (H1 : (inject_Z (Z.of_nat i) / inject_Z (Z.of_nat total) < 1)%Q).
  { apply Qlt_shift_div_r; [ exact Hpos | ].
    rewrite Qmult_1_l. rewrite <- Zlt_Qlt. lia. }
  split.
  - apply Qmult_le_0_compat; [ exact H0 | discriminate ].
  - setoid_replace 100%Q with (1 * 100)%Q at 2 by ring.
    apply Qmult_lt_compat_r; [ reflexivity | exact H1 ].
Qed.

Lemma progress_from_range total tracks :
  forall i,
    (i + length tracks <= total)%nat ->
    Forall (fun p => (0 <= fst p < 100)%Q) (progress_from total i tracks).
Proof.
  induction tracks as [ | track tracks IH]; intros i Hle; simpl;
    constructor.
  - simpl in *. apply percent_range. lia.
  - apply IH. simpl in Hle. lia.
Qed.

(** X21: the progress callback is called once per track, in input order,
    with the track's name and the share of tracks before it: the
    percentage lies between 0 and 100 and never reaches 100.  One failure
    line is logged per track without an artist, and none otherwise. *)
Theorem batch_progress
    (world : nat -> World) (tracks : list Track.t) (b : Batch) :
  batchAnalyzeAlternativeSources world tracks = Ok b ->
  progress b = progress_from (length tracks) 0 tracks
  /\ Forall (fun p => (0 <= fst p < 100)%Q) (progress b)
  /\ length (console b) = length (filter without_artist tracks).
Proof.
  intros Hb. unfold batchAnalyzeAlternativeSources in Hb.
  destruct (batch_loop_trace world (length tracks) tracks 0%nat
              {| results := []; progress := []; console := [] |})
    as (b' & E & P & C).
  rewrite Hb in E. injection E as <-. simpl in P, C.
  split; [ exact P | split; [ | exact C ] ].
  rewrite P. apply progress_from_range. simpl. lia.
Qed.

Lemma batch_progress_witness :
  exists b,
    batchAnalyzeAlternativeSources every_third_fails three_tracks = Ok b
    /\ map snd (progress b)
       = ["Analyzing: One"; "Analyzing: Two"; "Analyzing: Three"]
    /\ length (console b) = 0%nat.
Proof.
  eexists. split; [ vm_compute; reflexivity | ].
  destruct (batch_progress every_third_fails three_tracks _
              ltac:(vm_compute; reflexivity)) as (P & _ & C).
  split; [ rewrite P; reflexivity | rewrite C; reflexivity ].
Defined.

(** ** Per-track processing, continued *)

Lemma orQ_truthy (v : option Q) (dflt : Q) :
  Js.truthyQ dflt = true -> Js.truthyQ (Js.orQ v dflt) = true.
Proof.
  intros Hd. unfold Js.orQ. destruct v as [q | ]; [ | exact Hd ].
  destruct (Js.truthyQ q) eqn:E; [ exact E | exact Hd ].
Qed.

(** X22: a feature never holds a zero tempo, energy or danceability: the
    defaults take the place of missing and of zero values.  Its harmonic
    keys are those of the wheel position of its own key and mode, and it
    stems from a result with that track and key. *)
Theorem features_are_filled_in (analysisResults : list Entry.t)
    (f : Analyzed.t) :
  In f (processAlternativeAnalysis analysisResults) ->
  Analyzed.bpm f <> 0%Z
  /\ ~ (Analyzed.energy f == 0)%Q
  /\ ~ (Analyzed.danceability f == 0)%Q
  /\ Analyzed.harmonicKeys f
     = getHarmonicCompatibility
         (getCamelotKey (Analyzed.key f) (Analyzed.mode f))
  /\ (exists r, In r analysisResults
                /\ Entry.track r = Some (Analyzed.track f)
                /\ Entry.key r = Some (Analyzed.key f)
                /\ Entry.mode r = Analyzed.mode f).
Proof.
  intros Hf. rewrite processAlternativeAnalysis_flat_map in Hf.
  apply in_flat_map in Hf. destruct Hf as (r & Hr & Hf).
  unfold features_of, process_result in Hf.
  destruct (Entry.track r) as [t | ] eqn:Et; [ | contradiction ].
  destruct (Entry.key r) as [k | ] eqn:Ek; [ | contradiction ].
  destruct Hf as [<- | []].
  cbn [Analyzed.bpm Analyzed.energy Analyzed.danceability
       Analyzed.harmonicKeys Analyzed.key Analyzed.mode Analyzed.track].
  assert (Hq : forall v, ~ (Js.orQ v 0.5 == 0)%Q).
  { intros v H. apply falsy_zeroQ in H.
    rewrite orQ_truthy in H; [ discriminate H | reflexivity ]. }
  split; [ | split; [ apply Hq | split; [ apply Hq | split ] ] ].
  - unfold Js.orZ. destruct (Entry.bpm r) as [z | ]; [ | discriminate ].
    unfold Js.truthyZ. destruct (Z.eqb_spec z 0); simpl;
      [ discriminate | assumption ].
  - reflexivity.
  - exists r. repeat split; assumption.
Qed.

Lemma features_are_filled_in_witness :
  exists f,
    In f (processAlternativeAnalysis [keyless_entry; zero_entry])
    /\ Analyzed.bpm f <> 0%Z.
Proof.
  eexists. split; [ vm_compute; left; reflexivity | ].
  refine (proj1 (features_are_filled_in [keyless_entry; zero_entry] _ _)).
  vm_compute. left. reflexivity.
Defined.

Lemma features_of_usable (r : Entry.t) :
  map (fun f => Some (Analyzed.track f)) (features_of r)
  = if usable r then [Entry.track r] else [].
Proof.
  unfold features_of, process_result, usable.
  destruct (Entry.track r); [ | reflexivity ].
  destruct (Entry.key r); reflexivity.
Qed.

(** X23: the processing works result by result: the features of a
    concatenation are those of the parts, one after the other; there is
    exactly one feature per result that has a track and a key, in input
    order. *)
Theorem processing_is_per_result (l1 l2 : list Entry.t) :
  processAlternativeAnalysis (l1 ++ l2)
  = (processAlternativeAnalysis l1 ++ processAlternativeAnalysis l2)%list
  /\ map (fun f => Some (Analyzed.track f)) (processAlternativeAnalysis l1)
     = map Entry.track (filter usable l1)
  /\ length (processAlternativeAnalysis l1) = length (filter usable l1).
Proof.
  rewrite !processAlternativeAnalysis_flat_map.
  split; [ apply flat_map_app | ].
  assert (H : map (fun f => Some (Analyzed.track f))
                (flat_map features_of l1)
              = map Entry.track (filter usable l1)).
  { induction l1 as [ | r l IH]; simpl; [ reflexivity | ].
    rewrite map_app, IH, features_of_usable.
    destruct (usable r); reflexivity. }
  split; [ exact H | ].
  rewrite <- (length_map (fun f => Some (Analyzed.track f))), H.
  apply length_map.
Qed.

(** ** The harmonic grouper, continued *)

Lemma set_In_key {V} (o : Js.Obj V) k v k' v' :
  In (k', v') (Js.set o k v) -> (k' = k /\ v' = v) \/ In (k', v') o.
Proof.
  induction o as [ | [k0 v0] o IH]; simpl.
  - intros [E | []]. injection E as <- <-. left. split; reflexivity.
  - destruct (String.eqb_spec k0 k) as [-> | Hne]; simpl.
    + intros [E | H]; [ injection E as <- <-; left; split; reflexivity | ].
      right. right. exact H.
    + intros [E | H]; [ right; left; exact E | ].
      destruct (IH H) as [Hnew | Hold]; [ left; exact Hnew | ].
      right. right. exact Hold.
Qed.

Lemma insert_by_bpm_ascending x l :
  ascending l -> ascending (insert_by_bpm x l).
Proof.
  unfold ascending. induction l as [ | y l IH]; intros Hs; simpl.
  - constructor; constructor.
  - destruct (Z.leb_spec (Analyzed.bpm x) (Analyzed.bpm y)) as [Hle | Hgt].
    + constructor; [ exact Hs | ].
      apply StronglySorted_inv in Hs. destruct Hs as [_ Hall].
      constructor; [ exact Hle | ].
      rewrite Forall_forall in *. intros z Hz. specialize (Hall z Hz). lia.
    + apply StronglySorted_inv in Hs. destruct Hs as [Hs Hall].
      constructor; [ apply IH; exact Hs | ].
      rewrite Forall_forall in *. intros z Hz.
      apply insert_by_bpm_In in Hz. destruct Hz as [-> | Hz];
        [ lia | apply Hall; exact Hz ].
Qed.

Lemma sort_by_bpm_ascending l : ascending (sort_by_bpm l).
Proof.
  induction l as [ | x l IH]; simpl.
  - constructor.
  - apply insert_by_bpm_ascending. exact IH.
Qed.

Lemma filter_ascending (f : Analyzed.t -> bool) l :
  ascending l -> ascending (filter f l).
Proof.
  unfold ascending. induction l as [ | x l IH]; intros Hs; simpl.
  - constructor.
  - apply StronglySorted_inv in Hs. destruct Hs as [Hs Hall].
    destruct (f x); [ | apply IH; exact Hs ].
    constructor; [ apply IH; exact Hs | ].
    rewrite Forall_forall in *. intros z Hz. apply filter_In in Hz.
    apply Hall. tauto.
Qed.

(** Sorting an ascending list changes nothing. *)
Lemma sort_by_bpm_fixed l : ascending l -> sort_by_bpm l = l.
Proof.
  unfold ascending. induction l as [ | x l IH]; intros Hs; simpl;
    [ reflexivity | ].
  apply StronglySorted_inv in Hs. destruct Hs as [Hs Hall].
  fold (sort_by_bpm l). rewrite (IH Hs).
  destruct l as [ | y l]; simpl; [ reflexivity | ].
  inversion Hall as [ | ? ? Hle _]; subst.
  destruct (Z.leb_spec (Analyzed.bpm x) (Analyzed.bpm y));
    [ reflexivity | lia ].
Qed.

Lemma bpmRanges_bands (tracks : list Analyzed.t) speed speedTracks :
  In (speed, speedTracks) (bpmRanges tracks) ->
  In speed speeds /\ speedTracks = filter (in_band speed) tracks.
Proof.
  unfold bpmRanges, speeds. simpl.
  intros [E | [E | [E | []]]]; injection E as <- <-; simpl; tauto.
Qed.

Section Shape.

Variable analyzedTracks : list Analyzed.t.

Lemma emit_band_shaped k playlists speed speedTracks :
  (forall pk p, In (pk, p) playlists -> well_shaped analyzedTracks pk p) ->
  In speed speeds ->
  speedTracks = band_of analyzedTracks k speed ->
  forall pk p,
    In (pk, p) (emit_band k playlists (speed, speedTracks)) ->
    well_shaped analyzedTracks pk p.
Proof.
  intros Hall Hspeed Hband pk p. unfold emit_band.
  destruct (2 <=? length speedTracks)%nat; [ | apply Hall ].
  destruct speedTracks as [ | first rest] eqn:Est; [ apply Hall | ].
  destruct (last (map Some (first :: rest)) None) as [final | ];
    [ | apply Hall ].
  intros Hin. apply set_In_key in Hin.
  destruct Hin as [[-> ->] | Hin]; [ | exact (Hall pk p Hin) ].
  assert (Hasc : ascending (first :: rest)).
  { rewrite Hband. unfold band_of.
    apply filter_ascending, sort_by_bpm_ascending. }
  unfold well_shaped.
  cbn [Playlist.tracks Playlist.camelotKey Playlist.bpmRange].
  rewrite (sort_by_bpm_fixed _ Hasc).
  repeat split; assumption.
Qed.

Lemma emit_partition_shaped playlists k g :
  (forall pk p, In (pk, p) playlists -> well_shaped analyzedTracks pk p) ->
  g = filter (in_partition k) analyzedTracks ->
  forall pk p,
    In (pk, p) (emit_partition playlists (k, g)) ->
    well_shaped analyzedTracks pk p.
Proof.
  intros Hall Hg. unfold emit_partition.
  destruct ((3 <=? length g)%nat && negb (String.eqb k "Unknown"));
    [ | exact Hall ].
  assert (Hbands : forall speed speedTracks,
             In (speed, speedTracks) (bpmRanges (sort_by_bpm g)) ->
             In speed speeds
             /\ speedTracks = band_of analyzedTracks k speed).
  { intros speed speedTracks Hin. apply bpmRanges_bands in Hin.
    unfold band_of. rewrite <- Hg. exact Hin. }
  revert Hall Hbands. generalize (bpmRanges (sort_by_bpm g)).
  intros bands. revert playlists.
  induction bands as [ | [speed speedTracks] bands IH];
    intros playlists Hall Hbands; simpl; [ exact Hall | ].
  apply IH.
  - destruct (Hbands speed speedTracks (or_introl eq_refl)) as [Hs Hb].
    apply emit_band_shaped; assumption.
  - intros s st Hin. apply Hbands. right. exact Hin.
Qed.

Lemma createDJPlaylists_shaped pk p :
  In (pk, p) (createDJPlaylists analyzedTracks) ->
  well_shaped analyzedTracks pk p.
Proof.
  unfold createDJPlaylists.
  assert (Hg : forall k g,
             In (k, g) (group_by_key analyzedTracks) ->
             g = filter (in_partition k) analyzedTracks)
    by apply group_by_key_partition.
  assert (Hall : forall pk' p',
             In (pk', p') ([] : Js.Obj Playlist.t) ->
             well_shaped analyzedTracks pk' p') by (intros ? ? []).
  revert Hg Hall. generalize (group_by_key analyzedTracks).
  generalize ([] : Js.Obj Playlist.t). intros playlists keyGroups.
  revert playlists.
  induction keyGroups as [ | [k g] keyGroups IH];
    intros playlists Hg Hall; simpl; [ apply Hall | ].
  apply IH.
  - intros k' g' Hin. apply Hg. right. exact Hin.
  - apply emit_partition_shaped; [ exact Hall | ].
    apply Hg. left. reflexivity.
Qed.

End Shape.

Lemma in_band_bounds (speed : string) (t : Analyzed.t) :
  In speed speeds -> in_band speed t = true ->
  (speed = "slow" /\ (Analyzed.bpm t < 100)%Z)
  \/ (speed = "medium" /\ (100 <= Analyzed.bpm t < 130)%Z)
  \/ (speed = "fast" /\ (130 <= Analyzed.bpm t)%Z).
Proof.
  unfold speeds, in_band. simpl.
  intros [<- | [<- | [<- | []]]]; simpl; intros H.
  - left. split; [ reflexivity | lia ].
  - right. left. split; [ reflexivity | lia ].
  - right. right. split; [ reflexivity | lia ].
Qed.

(** X24: a playlist stored under a key is the tempo band of a wheel
    position: the key is the Camelot key, a dash and the band name; the
    tracks are exactly the tracks of that position whose tempo lies in the
    band (under 100, 100 to under 130, from 130), by ascending tempo, and
    tracks of equal tempo stay in input order. *)
Theorem playlist_is_a_band
    (analyzedTracks : list Analyzed.t) (pk : string) (p : Playlist.t) :
  In (pk, p) (createDJPlaylists analyzedTracks) ->
  pk = Playlist.camelotKey p ++ "-" ++ Playlist.bpmRange p
  /\ Playlist.tracks p
     = filter (in_band (Playlist.bpmRange p))
         (sort_by_bpm
            (filter (in_partition (Playlist.camelotKey p)) analyzedTracks))
  /\ ascending (Playlist.tracks p)
  /\ Forall
       (fun t =>
          (Playlist.bpmRange p = "slow" /\ (Analyzed.bpm t < 100)%Z)
          \/ (Playlist.bpmRange p = "medium"
              /\ (100 <= Analyzed.bpm t < 130)%Z)
          \/ (Playlist.bpmRange p = "fast" /\ (130 <= Analyzed.bpm t)%Z))
       (Playlist.tracks p).
Proof.
  intros Hin.
  destruct (createDJPlaylists_shaped analyzedTracks pk p Hin)
    as (Hs & Hk & Ht & Ha).
  split; [ exact Hk | split; [ exact Ht | split; [ exact Ha | ] ] ].
  rewrite Ht. unfold band_of. apply Forall_forall. intros t Hf.
  apply filter_In in Hf. apply in_band_bounds; tauto.
Qed.

Lemma playlist_is_a_band_witness :
  exists p,
    In ("8A-medium", p)
      (createDJPlaylists
         [ sample_feature "d" "8A" 110; sample_feature "a" "8A" 90;
           sample_feature "c" "8A" 105 ; sample_feature "x" "9A" 120 ])
    /\ map Analyzed.bpm (Playlist.tracks p) = [105; 110]%Z
    /\ ascending (Playlist.tracks p).
Proof.
  eexists. split; [ vm_compute; left; reflexivity | ].
  split; [ reflexivity | ].
  refine (proj1 (proj2 (proj2
            (playlist_is_a_band
               [ sample_feature "d" "8A" 110; sample_feature "a" "8A" 90;
                 sample_feature "c" "8A" 105 ; sample_feature "x" "9A" 120 ]
               "8A-medium" _ _)))).
  vm_compute. left. reflexivity.
Defined.

Lemma emit_band_keys k playlists band :
  NoDup (map fst playlists) ->
  NoDup (map fst (emit_band k playlists band)).
Proof.
  intros H. destruct band as [speed speedTracks]. unfold emit_band.
  destruct (2 <=? length speedTracks)%nat; [ | exact H ].
  destruct speedTracks as [ | first rest]; [ exact H | ].
  destruct (last (map Some (first :: rest)) None); [ | exact H ].
  apply set_NoDup. exact H.
Qed.

Lemma emit_partition_keys playlists entry :
  NoDup (map fst playlists) ->
  NoDup (map fst (emit_partition playlists entry)).
Proof.
  intros H. destruct entry as [k g]. unfold emit_partition.
  destruct ((3 <=? length g)%nat && negb (String.eqb k "Unknown"));
    [ | exact H ].
  revert H. generalize (bpmRanges (sort_by_bpm g)). intros bands.
  revert playlists. induction bands as [ | band bands IH];
    intros playlists H; simpl; [ exact H | ].
  apply IH. apply emit_band_keys. exact H.
Qed.

Lemma createDJPlaylists_keys (analyzedTracks : list Analyzed.t) :
  NoDup (map fst (createDJPlaylists analyzedTracks)).
Proof.
  unfold createDJPlaylists.
  assert (H : NoDup (map fst ([] : Js.Obj Playlist.t))) by constructor.
  revert H. generalize ([] : Js.Obj Playlist.t).
  generalize (group_by_key analyzedTracks). intros keyGroups.
  induction keyGroups as [ | entry keyGroups IH]; intros playlists H;
    simpl; [ exact H | ].
  apply IH. apply emit_partition_keys. exact H.
Qed.

(** X25: the keys of the result are pairwise distinct, and there is at
    most one playlist per wheel position and tempo band. *)
Theorem one_playlist_per_band
    (analyzedTracks : list Analyzed.t)
    (pk1 pk2 : string) (p1 p2 : Playlist.t) :
  NoDup (map fst (createDJPlaylists analyzedTracks))
  /\ (In (pk1, p1) (createDJPlaylists analyzedTracks) ->
      In (pk2, p2) (createDJPlaylists analyzedTracks) ->
      Playlist.camelotKey p1 = Playlist.camelotKey p2 ->
      Playlist.bpmRange p1 = Playlist.bpmRange p2 ->
      pk1 = pk2 /\ p1 = p2).
Proof.
  pose proof (createDJPlaylists_keys analyzedTracks) as Hnd.
  split; [ exact Hnd | ].
  intros H1 H2 Hk Hr.
  destruct (createDJPlaylists_shaped analyzedTracks pk1 p1 H1)
    as (_ & E1 & _).
  destruct (createDJPlaylists_shaped analyzedTracks pk2 p2 H2)
    as (_ & E2 & _).
  assert (E : pk1 = pk2) by (rewrite E1, E2, Hk, Hr; reflexivity).
  split; [ exact E | ]. subst pk2.
  apply (NoDup_get _ _ _ Hnd) in H1. apply (NoDup_get _ _ _ Hnd) in H2.
  congruence.
Qed.

Lemma one_playlist_per_band_witness :
  exists p,
    In ("8A-medium", p)
      (createDJPlaylists
         [ sample_feature "d" "8A" 110; sample_feature "a" "8A" 90;
           sample_feature "c" "8A" 105; sample_feature "b" "8A" 95 ])
    /\ ("8A-medium" = "8A-medium" /\ p = p).
Proof.
  eexists. split; [ vm_compute; right; left; reflexivity | ].
  refine (proj2 (one_playlist_per_band
                   [ sample_feature "d" "8A" 110; sample_feature "a" "8A" 90;
                     sample_feature "c" "8A" 105;
                     sample_feature "b" "8A" 95 ]
                   "8A-medium" "8A-medium" _ _) _ _ eq_refl eq_refl);
    vm_compute; right; left; reflexivity.
Defined.

(** *** Every eligible band gets its playlist *)

Ltac peel H k :=
  repeat (destruct k as [ | ? k]; simpl in H;
          [ discriminate H
          | first [ discriminate H | injection H as _ H ] ]).

(** A playlist key determines the Camelot key and the band. *)
Lemma playlist_key_inj (k k' speed speed' : string) :
  In speed speeds -> In speed' speeds ->
  k ++ "-" ++ speed = k' ++ "-" ++ speed' ->
  k = k' /\ speed = speed'.
Proof.
  intros Hs Hs'. revert k'.
  induction k as [ | c k IH]; intros k' H.
  - destruct k' as [ | c' k'].
    + simpl in H. injection H as H. split; [ reflexivity | exact H ].
    + exfalso. unfold speeds in Hs, Hs'.
      each_member Hs; each_member Hs'; simpl in H; injection H as _ H;
        peel H k'.
  - destruct k' as [ | c' k'].
    + exfalso. unfold speeds in Hs, Hs'. symmetry in H.
      each_member Hs; each_member Hs'; simpl in H; injection H as _ H;
        peel H k.
    + simpl in H. injection H as -> H.
      destruct (IH k' H) as [-> ->]. split; reflexivity.
Qed.

Lemma last_map_Some {A} (x : A) (l : list A) :
  exists y, last (map Some (x :: l)) None = Some y.
Proof.
  revert x. induction l as [ | z l IH]; intros x.
  - exists x. reflexivity.
  - destruct (IH z) as (y & E). exists y.
    change (last (map Some (x :: z :: l)) None)
      with (last (map Some (z :: l)) None).
    exact E.
Qed.

Lemma emit_band_get_other k' playlists speed' speedTracks key :
  key <> k' ++ "-" ++ speed' ->
  Js.get (emit_band k' playlists (speed', speedTracks)) key
  = Js.get playlists key.
Proof.
  intros Hne. unfold emit_band.
  destruct (2 <=? length speedTracks)%nat; [ | reflexivity ].
  destruct speedTracks as [ | first rest]; [ reflexivity | ].
  destruct (last (map Some (first :: rest)) None); [ | reflexivity ].
  rewrite get_set.
  destruct (String.eqb_spec (k' ++ "-" ++ speed') key) as [E | _];
    [ congruence | reflexivity ].
Qed.

Lemma emit_band_get_same k playlists speed speedTracks :
  (2 <= length speedTracks)%nat ->
  exists p,
    Js.get (emit_band k playlists (speed, speedTracks)) (k ++ "-" ++ speed)
    = Some p
    /\ Playlist.tracks p = sort_by_bpm speedTracks
    /\ Playlist.camelotKey p = k
    /\ Playlist.bpmRange p = speed.
Proof.
  intros Hlen. unfold emit_band.
  apply Nat.leb_le in Hlen. rewrite Hlen.
  destruct speedTracks as [ | first rest]; [ discriminate Hlen | ].
  destruct (last_map_Some first rest) as (final & ->).
  rewrite get_set, String.eqb_refl.
  eexists. split; [ reflexivity | ]. repeat split.
Qed.

Lemma emit_partition_get_other playlists k' g' k speed :
  k' <> k -> In speed speeds ->
  Js.get (emit_partition playlists (k', g')) (k ++ "-" ++ speed)
  = Js.get playlists (k ++ "-" ++ speed).
Proof.
  intros Hne Hs. unfold emit_partition.
  destruct ((3 <=? length g')%nat && negb (String.eqb k' "Unknown"));
    [ | reflexivity ].
  unfold bpmRanges. cbn [fold_left].
  rewrite !emit_band_get_other; [ reflexivity | | | ];
    intros E; apply playlist_key_inj in E; unfold speeds; simpl;
    try tauto; destruct E as [E _]; congruence.
Qed.

Lemma emit_partitions_get_other keyGroups k speed :
  forall playlists,
    (forall k' g', In (k', g') keyGroups -> k' <> k) ->
    In speed speeds ->
    Js.get (fold_left emit_partition keyGroups playlists) (k ++ "-" ++ speed)
    = Js.get playlists (k ++ "-" ++ speed).
Proof.
  induction keyGroups as [ | [k' g'] keyGroups IH]; intros playlists Hk Hs;
    simpl; [ reflexivity | ].
  rewrite IH; [ | intros k2 g2 Hin; apply (Hk k2 g2); right; exact Hin
              | exact Hs ].
  apply emit_partition_get_other; [ | exact Hs ].
  apply (Hk k' g'). left. reflexivity.
Qed.

Lemma emit_partition_get_same playlists k g speed :
  k <> "Unknown" -> (3 <= length g)%nat -> In speed speeds ->
  (2 <= length (filter (in_band speed) (sort_by_bpm g)))%nat ->
  exists p,
    Js.get (emit_partition playlists (k, g)) (k ++ "-" ++ speed) = Some p
    /\ Playlist.tracks p = filter (in_band speed) (sort_by_bpm g)
    /\ Playlist.camelotKey p = k
    /\ Playlist.bpmRange p = speed.
Proof.
  intros Hk Hg Hs Hband. unfold emit_partition.
  apply Nat.leb_le in Hg. rewrite Hg.
  apply String.eqb_neq in Hk. rewrite Hk. cbn [andb negb].
  assert (Hfix : sort_by_bpm (filter (in_band speed) (sort_by_bpm g))
                 = filter (in_band speed) (sort_by_bpm g)).
  { apply sort_by_bpm_fixed, filter_ascending, sort_by_bpm_ascending. }
  assert (Hneq : forall s s', In s speeds -> In s' speeds -> s <> s' ->
                              k ++ "-" ++ s <> k ++ "-" ++ s').
  { intros s s' H1 H2 Hd E. apply playlist_key_inj in E; tauto. }
  unfold bpmRanges. cbn [fold_left].
  unfold speeds in Hs. simpl in Hs.
  destruct Hs as [<- | [<- | [<- | []]]].
  - rewrite !emit_band_get_other
      by (apply Hneq; unfold speeds; simpl; try tauto; discriminate).
    destruct (emit_band_get_same k playlists "slow" _ Hband)
      as (p & E & T & K & R).
    exists p. rewrite <- Hfix. repeat split; assumption.
  - rewrite emit_band_get_other
      by (apply Hneq; unfold speeds; simpl; try tauto; discriminate).
    destruct (emit_band_get_same k
                (emit_band k playlists
                   ("slow",
                    filter (fun t => (Analyzed.bpm t <? 100)%Z)
                      (sort_by_bpm g)))
                "medium" _ Hband) as (p & E & T & K & R).
    exists p. rewrite <- Hfix. repeat split; assumption.
  - destruct (emit_band_get_same k
                (emit_band k
                   (emit_band k playlists
                      ("slow",
                       filter (fun t => (Analyzed.bpm t <? 100)%Z)
                         (sort_by_bpm g)))
                   ("medium",
                    filter
                      (fun t => (100 <=? Analyzed.bpm t)%Z
                                && (Analyzed.bpm t <? 130)%Z)
                      (sort_by_bpm g)))
                "fast" _ Hband) as (p & E & T & K & R).
    exists p. rewrite <- Hfix. repeat split; assumption.
Qed.

Lemma emit_partitions_get_same keyGroups k g speed :
  forall playlists,
    NoDup (map fst keyGroups) -> In (k, g) keyGroups ->
    k <> "Unknown" -> (3 <= length g)%nat -> In speed speeds ->
    (2 <= length (filter (in_band speed) (sort_by_bpm g)))%nat ->
    exists p,
      Js.get (fold_left emit_partition keyGroups playlists)
        (k ++ "-" ++ speed) = Some p
      /\ Playlist.tracks p = filter (in_band speed) (sort_by_bpm g)
      /\ Playlist.camelotKey p = k
      /\ Playlist.bpmRange p = speed.
Proof.
  induction keyGroups as [ | [k0 g0] keyGroups IH];
    intros playlists Hnd Hin Hk Hg Hs Hband; [ contradiction | ].
  simpl in Hnd. inversion Hnd as [ | ? ? Hnotin Hnd']; subst.
  destruct Hin as [E | Hin].
  - injection E as -> ->. cbn [fold_left].
    rewrite emit_partitions_get_other; [ | | exact Hs ].
    + apply emit_partition_get_same; assumption.
    + intros k' g' Hin' ->. apply Hnotin.
      apply (in_map fst) in Hin'. exact Hin'.
  - cbn [fold_left]. apply IH; assumption.
Qed.

Lemma group_by_key_lookup (analyzedTracks : list Analyzed.t) (k : string) :
  NoDup (map fst (group_by_key analyzedTracks))
  /\ Js.get (group_by_key analyzedTracks) k
     = group_entry (filter (in_partition k) analyzedTracks).
Proof.
  unfold group_by_key.
  destruct (group_fold analyzedTracks [] [] (NoDup_nil _)
              (fun _ => eq_refl)) as [Hnd H].
  split; [ exact Hnd | apply H ].
Qed.

(** X26: no eligible band is missed: for a wheel position other than
    "Unknown" with at least 3 tracks, every tempo band with at least 2 of
    them has its playlist in the result, stored under the position, a dash
    and the band name, and holding exactly the tracks of the band. *)
Theorem eligible_band_gets_playlist
    (analyzedTracks : list Analyzed.t) (k speed : string) :
  k <> "Unknown" -> In speed speeds ->
  (3 <= partition_size analyzedTracks k)%nat ->
  (2 <= length (band_of analyzedTracks k speed))%nat ->
  exists p,
    Js.get (createDJPlaylists analyzedTracks) (k ++ "-" ++ speed) = Some p
    /\ In (k ++ "-" ++ speed, p) (createDJPlaylists analyzedTracks)
    /\ Playlist.tracks p = band_of analyzedTracks k speed
    /\ Playlist.camelotKey p = k
    /\ Playlist.bpmRange p = speed.
Proof.
  intros Hk Hs Hsize Hband.
  destruct (group_by_key_lookup analyzedTracks k) as [Hnd Hget].
  unfold partition_size in Hsize.
  assert (Hin : In (k, filter (in_partition k) analyzedTracks)
                  (group_by_key analyzedTracks)).
  { apply get_In. rewrite Hget.
    destruct (filter (in_partition k) analyzedTracks);
      [ simpl in Hsize; lia | reflexivity ]. }
  destruct (emit_partitions_get_same (group_by_key analyzedTracks) k _ speed
              [] Hnd Hin Hk Hsize Hs Hband) as (p & E & T & K & R).
  exists p. unfold createDJPlaylists.
  split; [ exact E | split; [ apply get_In; exact E | ] ].
  repeat split; assumption.
Qed.

Lemma eligible_band_gets_playlist_witness :
  exists p,
    Js.get
      (createDJPlaylists
         [ sample_feature "d" "8A" 110; sample_feature "a" "8A" 90;
           sample_feature "c" "8A" 105; sample_feature "x" "9A" 120 ])
      "8A-medium" = Some p
    /\ map Analyzed.bpm (Playlist.tracks p) = [105; 110]%Z.
Proof.
  destruct (eligible_band_gets_playlist
              [ sample_feature "d" "8A" 110; sample_feature "a" "8A" 90;
                sample_feature "c" "8A" 105; sample_feature "x" "9A" 120 ]
              "8A" "medium") as (p & E & _ & T & _).
  - discriminate.
  - unfold speeds. simpl. tauto.
  - vm_compute. lia.
  - vm_compute. lia.
  - exists p. split; [ exact E | ]. rewrite T. reflexivity.
Defined.

(** ** The AcousticBrainz adapter *)

Lemma null_if_zeroQ_idem (v : option Q) :
  null_if_zeroQ (null_if_zeroQ v) = null_if_zeroQ v.
Proof.
  unfold null_if_zeroQ. destruct (Js.truthy_oQ v) eqn:E;
    [ rewrite E | ]; reflexivity.
Qed.

Lemma first_analysed_data lowlevel recordings :
  forall i data,
    first_analysed lowlevel i recordings = Some data ->
    AcousticBrainz.confidence data = 0.8%Q
    /\ ab_without_zeros data = data
    /\ AcousticBrainz.key data <> Some "".
Proof.
  induction recordings as [ | r recordings IH]; intros i data; simpl;
    [ discriminate | ].
  destruct (lowlevel i) as [[doc | ] | message]; try apply IH.
  destruct (negb (LowLevel.error doc)); [ | apply IH ].
  intros E. injection E as <-.
  unfold ab_without_zeros. simpl. rewrite !null_if_zeroQ_idem.
  repeat split.
  unfold null_if_empty. destruct (LowLevel.tonal_key_key doc) as [s | ];
    [ | discriminate ].
  destruct (String.eqb_spec s ""); [ discriminate | congruence ].
Qed.

Lemma first_analysed_none lowlevel recordings :
  forall i,
    (forall j, (j < length recordings)%nat -> unusable (lowlevel (i + j)%nat)) ->
    first_analysed lowlevel i recordings = None.
Proof.
  induction recordings as [ | r recordings IH]; intros i H; simpl;
    [ reflexivity | ].
  assert (Hrest : first_analysed lowlevel (S i) recordings = None).
  { apply IH. intros j Hj.
    replace (S i + j)%nat with (i + S j)%nat by lia.
    apply H. simpl. lia. }
  pose proof (H 0%nat ltac:(simpl; lia)) as H0.
  rewrite Nat.add_0_r in H0. unfold unusable in H0.
  destruct (lowlevel i) as [[doc | ] | message]; try exact Hrest.
  rewrite H0. exact Hrest.
Qed.



(** ** Fetching the library *)

Lemma saved_tracks_served {Item : Type} (fuel : nat) :
  forall (fetched rest : list Item),
    (length rest < fuel * limit)%nat ->
    getAllSavedTracks_loop (serve (fetched ++ rest)) fuel fetched
      (length fetched)
    = Some (Ok (fetched ++ rest)%list).
Proof.
  induction fuel as [ | fuel IH]; intros fetched rest Hfuel;
    [ simpl in Hfuel; lia | ].
  cbn [getAllSavedTracks_loop]. unfold serve at 1.
  rewrite skipn_app, Nat.sub_diag, skipn_all. cbn [skipn app].
  destruct rest as [ | x rest'] eqn:Erest.
  - rewrite firstn_nil, app_nil_r. reflexivity.
  - rewrite <- Erest in *.
    assert (Hpos : (length (firstn limit rest) =? 0)%nat = false).
    { apply Nat.eqb_neq. rewrite length_firstn. subst rest.
      unfold limit. simpl. lia. }
    rewrite Hpos. cbv zeta.
    destruct (Nat.ltb_spec (length (firstn limit rest)) limit) as [Hs | Hf].
    + rewrite length_firstn in Hs.
      rewrite firstn_all2 by lia. reflexivity.
    + rewrite length_firstn in Hf.
      assert (E : (fetched ++ rest
                   = (fetched ++ firstn limit rest) ++ skipn limit rest)%list).
      { rewrite <- app_assoc, firstn_skipn. reflexivity. }
      assert (El : (length fetched + limit
                    = length (fetched ++ firstn limit rest))%nat).
      { rewrite length_app, length_firstn. lia. }
      rewrite El. rewrite E at 1. rewrite IH.
      * rewrite <- E. reflexivity.
      * rewrite length_skipn. unfold limit in *. simpl in Hfuel. lia.
Qed.

(** X28: against a server that answers each request with the page asked
    for, the loop returns the whole library, in order, as soon as it is
    allowed one request more than there are full pages. *)
Theorem library_is_fetched_whole {Item : Type}
    (library : list Item) (fuel : nat) :
  (length library < fuel * limit)%nat ->
  getAllSavedTracks (serve library) fuel = Some (Ok library).
Proof.
  intros H. unfold getAllSavedTracks.
  apply (saved_tracks_served fuel [] library). exact H.
Qed.

Lemma library_is_fetched_whole_witness :
  getAllSavedTracks (serve (repeat "track" 120)) 3
  = Some (Ok (repeat "track" 120)).
Proof.
  apply (library_is_fetched_whole (repeat "track" 120) 3).
  vm_compute. lia.
Defined.

Lemma saved_tracks_endless {Item : Type}
    (fetch : nat -> exc (option (list Item))) (fuel : nat) :
  (forall offset, exists items,
      fetch offset = Ok (Some items) /\ (limit <= length items)%nat) ->
  forall allTracks offset,
    getAllSavedTracks_loop fetch fuel allTracks offset = None.
Proof.
  intros H. induction fuel as [ | fuel IH]; intros allTracks offset;
    [ reflexivity | ].
  cbn [getAllSavedTracks_loop].
  destruct (H offset) as (items & -> & Hlen).
  assert (E0 : (length items =? 0)%nat = false)
    by (apply Nat.eqb_neq; unfold limit in Hlen; lia).
  assert (E1 : (length items <? limit)%nat = false)
    by (apply Nat.ltb_ge; exact Hlen).
  rewrite E0, E1. apply IH.
Qed.

(** X29: the loop ends with the first page that is short, empty or
    without [items], and keeps what it fetched: a first page of fewer
    than 50 tracks is the whole result, whatever the later pages hold,
    and a first response without [items] gives the empty list.  A
    rejected request is passed on to the caller.  If every page is full
    the loop never returns. *)
Theorem paging_ends_at_a_short_page {Item : Type}
    (fetch : nat -> exc (option (list Item))) (fuel : nat) :
  (forall items,
      fetch 0%nat = Ok (Some items) -> (length items < limit)%nat ->
      getAllSavedTracks fetch (S fuel) = Some (Ok items))
  /\ (fetch 0%nat = Ok None ->
      getAllSavedTracks fetch (S fuel) = Some (Ok []))
  /\ (forall message,
         fetch 0%nat = Throw message ->
         getAllSavedTracks fetch (S fuel) = Some (Throw message))
  /\ ((forall offset, exists items,
          fetch offset = Ok (Some items) /\ (limit <= length items)%nat) ->
      getAllSavedTracks fetch fuel = None).
Proof.
  unfold getAllSavedTracks. split; [ | split; [ | split ] ].
  - intros items E Hlen. cbn [getAllSavedTracks_loop]. rewrite E.
    destruct items as [ | x items]; [ reflexivity | ].
    apply Nat.ltb_lt in Hlen.
    change ((length (x :: items) =? 0)%nat) with false.
    cbv iota zeta. rewrite Hlen. reflexivity.
  - intros E. cbn [getAllSavedTracks_loop]. rewrite E. reflexivity.
  - intros message E. cbn [getAllSavedTracks_loop]. rewrite E. reflexivity.
  - intros H. apply saved_tracks_endless. exact H.
Qed.

Lemma paging_ends_at_a_short_page_witness :
  getAllSavedTracks
    (fun offset =>
       if (offset =? 0)%nat then Ok (Some ["a"; "b"])
       else Ok (Some (repeat "later" 50)))
    1 = Some (Ok ["a"; "b"])
  /\ getAllSavedTracks (fun _ => Ok (Some (repeat "again" 50))) 7 = None.
Proof.
  split.
  - apply (proj1 (paging_ends_at_a_short_page
                    (fun offset =>
                       if (offset =? 0)%nat then Ok (Some ["a"; "b"])
                       else Ok (Some (repeat "later" 50))) 0)).
    + reflexivity.
    + vm_compute. lia.
  - apply (proj2 (proj2 (proj2 (paging_ends_at_a_short_page
                                  (fun _ => Ok (Some (repeat "again" 50)))
                                  7)))).
    intros offset. exists (repeat "again" 50).
    split; [ reflexivity | vm_compute; lia ].
Defined.

(** ** Adding tracks in chunks *)

Lemma chunk_loop_covers (trackUris : list string) (fuel : nat) :
  forall i chunks,
    (length trackUris - i <= fuel * 100)%nat ->
    exists more,
      chunk_loop (S fuel) trackUris i chunks = Some (chunks ++ more)%list
      /\ concat more = skipn i trackUris
      /\ Forall (fun chunk => (1 <= length chunk <= 100)%nat) more
      /\ (length trackUris - i <= length more * 100)%nat
      /\ (length more * 100 < length trackUris - i + 100)%nat.
Proof.
  induction fuel as [ | fuel IH]; intros i chunks Hfuel.
  - exists []. cbn [chunk_loop].
    assert (E : (i <? length trackUris)%nat = false)
      by (apply Nat.ltb_ge; simpl in Hfuel; lia).
    rewrite E, app_nil_r.
    repeat split; try constructor.
    + symmetry. apply skipn_all2. apply Nat.ltb_ge in E. exact E.
    + simpl in *. lia.
    + simpl. lia.
  - cbn [chunk_loop].
    destruct (Nat.ltb_spec i (length trackUris)) as [Hlt | Hge].
    + destruct (IH (i + 100)%nat
                  (Js.push chunks (slice i (i + 100) trackUris)))
        as (more & E & Hc & Hf & Hlo & Hhi); [ simpl in Hfuel; lia | ].
      set (chunk := slice i (i + 100) trackUris) in *.
      assert (Echunk : chunk = firstn 100 (skipn i trackUris)).
      { unfold chunk, slice. replace (i + 100 - i)%nat with 100%nat by lia.
        reflexivity. }
      assert (Hlen : length chunk = Nat.min 100 (length trackUris - i)).
      { rewrite Echunk, length_firstn, length_skipn. reflexivity. }
      exists (chunk :: more).
      split; [ | split; [ | split; [ | split ] ] ].
      * cbn [chunk_loop] in E. rewrite E. unfold Js.push.
        rewrite <- app_assoc. reflexivity.
      * cbn [concat]. rewrite Hc, Echunk.
        replace (i + 100)%nat with (100 + i)%nat by lia.
        rewrite <- skipn_skipn. apply firstn_skipn.
      * constructor; [ | exact Hf ]. rewrite Hlen. lia.
      * cbn [length]. lia.
      * cbn [length]. lia.
    + exists []. rewrite app_nil_r.
      repeat split; try constructor.
      * symmetry. apply skipn_all2. exact Hge.
      * simpl. lia.
      * simpl. lia.
Qed.

(** X30: the tracks of a playlist are added in chunks of at most 100 URIs:
    the chunks are never empty, put end to end they are the URIs of the
    playlist's tracks in order, and there are as many requests as the
    number of tracks divided by 100, rounded up (none for an empty
    playlist). *)
Theorem tracks_are_added_in_chunks
    (playlistData : Playlist.t) (playlist_id : string) :
  let uris :=
    map (fun t => Track.uri (Analyzed.track t)) (Playlist.tracks playlistData)
  in
  exists chunks,
    track_chunks (S (length uris)) playlistData = Some chunks
    /\ concat chunks = uris
    /\ Forall (fun chunk => (1 <= length chunk <= 100)%nat) chunks
    /\ (length uris <= length chunks * 100 < length uris + 100)%nat
    /\ length (add_tracks_endpoints playlist_id chunks) = length chunks.
Proof.
  intros uris. unfold track_chunks. fold uris.
  destruct (chunk_loop_covers uris (length uris) 0 [])
    as (chunks & E & Hc & Hf & Hlo & Hhi); [ lia | ].
  exists chunks. simpl in E.
  split; [ exact E | split; [ exact Hc | split; [ exact Hf | split ] ] ].
  - rewrite Nat.sub_0_r in Hlo, Hhi. lia.
  - unfold add_tracks_endpoints. apply length_map.
Qed.

Example chunks_of_250 :
  option_map (map (@length string))
    (chunk_loop 251 (repeat "spotify:track:x" 250) 0 [])
  = Some [100; 100; 50]%nat.
Proof. vm_compute. reflexivity. Qed.
